(** * IntSet: an ordered set of distinct ints in a resizable heap array

    Shallow embedding of [IntSet.cpp].  An [IntSet] object is a struct of
    three fields ([data], [capacity], [used]); [data] points to a heap array
    obtained from [new int[...]].  Objects and arrays both live in an
    explicit memory so that object identity ([this == &rhs]), aliasing of
    arguments ([a.unionWith(a)]) and ownership of buffers are visible.

    Each member function is a computation in a monad that passes the memory
    along and may fault.  Undefined behaviour of the C++ program (an access
    outside an array, a read of a cell never written, the use of a pointer
    to nothing, an [int] computation that leaves the range of [int]) is a
    [Fault] of the model.  Allocation always succeeds: the termination of
    the program when memory is exhausted is not modelled.

    The values stored in a set are integers of any size; the code only
    copies and compares them.  The fields [capacity] and [used] are [int]s:
    the invariant bounds them by [INT_MAX] and the arithmetic on them is
    checked. *)

From stdpp Require Import gmap list pretty strings.
From Stdlib Require Import ZArith Lia.

Local Open Scope Z_scope.

(** ** Machine integers

    [int] has 32 bits. *)

Definition INT_MAX : Z := 2147483647.
Definition INT_MIN : Z := -2147483648.

Definition is_int (z : Z) : Prop := INT_MIN ≤ z ≤ INT_MAX.

#[global] Instance is_int_dec z : Decision (is_int z).
Proof. unfold is_int. apply _. Defined.

(** ** Memory *)

Abbreviation loc := positive.

(** A cell of an [int] array: [None] until it is first written. *)
Abbreviation cell := (option Z).

Record IntSet : Type := mkIntSet {
  data : loc;
  capacity : Z;
  used : Z
}.

Record mem : Type := mkMem {
  arrays : gmap loc (list cell);
  objects : gmap loc IntSet
}.

Inductive fault : Type :=
  | OutOfBounds
  | Uninitialised
  | InvalidPointer
  | BadArrayLength
  | IntOverflow.

Inductive outcome (A : Type) : Type :=
  | Ok (a : A) (m : mem)
  | Fault (f : fault).
Arguments Ok {A} a m.
Arguments Fault {A} f.

(** ** The monad of memory-passing computations that may fault *)

Definition M (A : Type) : Type := mem → outcome A.

#[global] Instance M_ret : MRet M := λ A a m, Ok a m.

#[global] Instance M_bind : MBind M := λ A B f c m,
  match c m with
  | Ok a m' => f a m'
  | Fault e => Fault e
  end.

(** The computation stops with the fault [e]. *)
Definition raise {A : Type} (e : fault) : M A := λ _, Fault e.

(** [int] arithmetic whose mathematical result is [z]. *)
Definition to_int (z : Z) : M Z :=
  if decide (is_int z) then mret z else raise IntOverflow.

(** [new int[n]] *)
Definition new_array (n : Z) : M loc := λ m,
  if decide (n < 0) then Fault BadArrayLength
  else
    let d := fresh (dom (arrays m)) in
    Ok d (mkMem (<[d := replicate (Z.to_nat n) None]> (arrays m)) (objects m)).

(** [delete [] d] *)
Definition delete_array (d : loc) : M unit := λ m,
  match arrays m !! d with
  | Some _ => Ok () (mkMem (delete d (arrays m)) (objects m))
  | None => Fault InvalidPointer
  end.

(** [d[i]] as an rvalue *)
Definition read (d : loc) (i : Z) : M Z := λ m,
  match arrays m !! d with
  | None => Fault InvalidPointer
  | Some a =>
      if decide (i < 0) then Fault OutOfBounds
      else match a !! Z.to_nat i with
           | None => Fault OutOfBounds
           | Some None => Fault Uninitialised
           | Some (Some v) => Ok v m
           end
  end.

(** [d[i] = v] *)
Definition write (d : loc) (i : Z) (v : Z) : M unit := λ m,
  match arrays m !! d with
  | None => Fault InvalidPointer
  | Some a =>
      if decide (0 ≤ i < Z.of_nat (length a)) then
        Ok () (mkMem (<[d := <[Z.to_nat i := Some v]> a]> (arrays m)) (objects m))
      else Fault OutOfBounds
  end.

(** The fields of the object at [p]. *)
Definition get_obj (p : loc) : M IntSet := λ m,
  match objects m !! p with
  | Some o => Ok o m
  | None => Fault InvalidPointer
  end.

(** Assignment to the fields of the object at [p]. *)
Definition set_obj (p : loc) (o : IntSet) : M unit := λ m,
  match objects m !! p with
  | Some _ => Ok () (mkMem (arrays m) (<[p := o]> (objects m)))
  | None => Fault InvalidPointer
  end.

(** [data = d], [capacity = c] and [used = u] in the object at [p]. *)
Definition set_data (p : loc) (d : loc) : M unit :=
  o ← get_obj p; set_obj p (mkIntSet d (capacity o) (used o)).

Definition set_capacity (p : loc) (c : Z) : M unit :=
  o ← get_obj p; set_obj p (mkIntSet (data o) c (used o)).

Definition set_used (p : loc) (u : Z) : M unit :=
  o ← get_obj p; set_obj p (mkIntSet (data o) (capacity o) u).

(** Storage for a new object (a local variable or a returned value). *)
Definition new_obj (o : IntSet) : M loc := λ m,
  let p := fresh (dom (objects m)) in
  Ok p (mkMem (arrays m) (<[p := o]> (objects m))).

(** ** The member functions

    A [for (int i = a; i < b; i++)] loop whose bound is not changed by its
    body runs [b - a] times (none when [b <= a]); each loop below is a
    [Fixpoint] on that number of remaining iterations. *)

Section IntSet_code.

(** [DEFAULT_CAPACITY] is declared in [IntSet.h], which is not among the
    sources; the code is modelled for any value of it. *)
Variable DEFAULT_CAPACITY : Z.

(** [for (i = ...; i < used; i++) dst[i] = src[i];] *)
Fixpoint copy_loop (src dst : loc) (i : Z) (n : nat) : M unit :=
  match n with
  | O => mret ()
  | S n' =>
      v ← read src i;
      write dst i v;;
      copy_loop src dst (i + 1) n'
  end.

(** The capacity [resize] settles on. *)
Definition resize_capacity (used_now new_capacity : Z) : Z :=
  if decide (new_capacity ≤ 0) then DEFAULT_CAPACITY
  else if decide (new_capacity < used_now) then used_now
  else new_capacity.

(** [void IntSet::resize(int new_capacity)] *)
Definition resize (this : loc) (new_capacity : Z) : M unit :=
  o ← get_obj this;
  set_capacity this (resize_capacity (used o) new_capacity);;
  o ← get_obj this;
  newData ← new_array (capacity o);
  copy_loop (data o) newData 0 (Z.to_nat (used o));;
  delete_array (data o);;
  set_data this newData.

(** [IntSet::IntSet(int initial_capacity)] *)
Definition IntSet_new (initial_capacity : Z) : M loc :=
  let cap := if decide (initial_capacity ≤ 0) then DEFAULT_CAPACITY
             else initial_capacity in
  d ← new_array cap;
  new_obj (mkIntSet d cap 0).

(** [IntSet::IntSet(const IntSet& src)] *)
Definition IntSet_copy (src : loc) : M loc :=
  s ← get_obj src;
  d ← new_array (capacity s);
  copy_loop (data s) d 0 (Z.to_nat (used s));;
  new_obj (mkIntSet d (capacity s) (used s)).

(** The end of the lifetime of the object at [p]: its fields are no more. *)
Definition free_obj (p : loc) : M unit := λ m,
  match objects m !! p with
  | Some _ => Ok () (mkMem (arrays m) (delete p (objects m)))
  | None => Fault InvalidPointer
  end.

(** [IntSet::~IntSet()], with the end of the object's lifetime that every
    call of a destructor is followed by: [delete [] data] releases the
    array; [data = NULL] is a store to a field of an object that ends here,
    which nothing can read again; the object is removed from the memory. *)
Definition IntSet_destroy (this : loc) : M unit :=
  o ← get_obj this;
  delete_array (data o);;
  free_obj this.

(** [IntSet& IntSet::operator=(const IntSet& rhs)] *)
Definition assign (this rhs : loc) : M unit :=
  if decide (this = rhs) then mret ()
  else
    r ← get_obj rhs;
    temp ← new_array (capacity r);
    copy_loop (data r) temp 0 (Z.to_nat (used r));;
    o ← get_obj this;
    delete_array (data o);;
    set_data this temp;;
    r ← get_obj rhs;
    set_capacity this (capacity r);;
    set_used this (used r).

(** [int IntSet::size() const] *)
Definition size (this : loc) : M Z :=
  o ← get_obj this; mret (used o).

(** [bool IntSet::isEmpty() const] *)
Definition isEmpty (this : loc) : M bool :=
  o ← get_obj this;
  if decide (used o = 0) then mret true else mret false.

(** [for (i = ...; i < used; i++) if (anInt == data[i]) return true;] *)
Fixpoint contains_loop (d : loc) (anInt : Z) (i : Z) (n : nat) : M bool :=
  match n with
  | O => mret false
  | S n' =>
      v ← read d i;
      if decide (anInt = v) then mret true
      else contains_loop d anInt (i + 1) n'
  end.

(** [bool IntSet::contains(int anInt) const] *)
Definition contains (this : loc) (anInt : Z) : M bool :=
  o ← get_obj this;
  if decide (used o > 0) then
    contains_loop (data o) anInt 0 (Z.to_nat (used o))
  else mret false.

(** [for (i = ...; i < used; i++)
      if (!otherIntSet.contains(data[i])) return false;] *)
Fixpoint isSubsetOf_loop (d : loc) (otherIntSet : loc) (i : Z) (n : nat)
  : M bool :=
  match n with
  | O => mret true
  | S n' =>
      v ← read d i;
      c ← contains otherIntSet v;
      if negb c then mret false
      else isSubsetOf_loop d otherIntSet (i + 1) n'
  end.

(** [bool IntSet::isSubsetOf(const IntSet& otherIntSet) const] *)
Definition isSubsetOf (this otherIntSet : loc) : M bool :=
  e ← isEmpty this;
  if (e : bool) then mret true
  else
    o ← get_obj this;
    isSubsetOf_loop (data o) otherIntSet 0 (Z.to_nat (used o)).

(** [out << data[0]; for (i = 1; ...) out << "  " << data[i];] with the
    stream as the text written so far. *)
Fixpoint DumpData_loop (d : loc) (i : Z) (n : nat) (out : string) : M string :=
  match n with
  | O => mret out
  | S n' =>
      v ← read d i;
      DumpData_loop d (i + 1) n' (out +:+ "  " +:+ pretty v)
  end.

(** [void IntSet::DumpData(ostream& out) const] *)
Definition DumpData (this : loc) (out : string) : M string :=
  o ← get_obj this;
  if decide (used o > 0) then
    v ← read (data o) 0;
    DumpData_loop (data o) 1 (Z.to_nat (used o - 1)) (out +:+ pretty v)
  else mret out.

(** [void IntSet::reset()] *)
Definition reset (this : loc) : M unit := set_used this 0.

(** [int(1.5 * capacity) + 1]: the product is exact in [double], the
    conversion truncates towards zero, and both the conversion and the
    addition are undefined outside the range of [int]. *)
Definition grow_request (cap : Z) : M Z :=
  t ← to_int ((3 * cap) `quot` 2);
  to_int (t + 1).

(** [bool IntSet::add(int anInt)] *)
Definition add (this : loc) (anInt : Z) : M bool :=
  c ← contains this anInt;
  if negb c then
    o ← get_obj this;
    (if decide (used o >= capacity o) then
       n ← grow_request (capacity o); resize this n
     else mret () : M unit);;
    o ← get_obj this;
    write (data o) (used o) anInt;;
    u ← to_int (used o + 1);
    set_used this u;;
    mret true
  else mret false.

(** [for (j = i; j < used - 1; j++) data[j] = data[j + 1];] *)
Fixpoint shift_loop (d : loc) (j : Z) (n : nat) : M unit :=
  match n with
  | O => mret ()
  | S n' =>
      v ← read d (j + 1);
      write d j v;;
      shift_loop d (j + 1) n'
  end.

(** The scan of [remove]: [for (i = ...; i < used; i++)
      if (data[i] == anInt) { shift; used--; return true; }], and the
    [return false] that follows it. *)
Fixpoint remove_loop (this : loc) (anInt : Z) (i : Z) (n : nat) : M bool :=
  match n with
  | O => mret false
  | S n' =>
      o ← get_obj this;
      v ← read (data o) i;
      if decide (v = anInt) then
        shift_loop (data o) i (Z.to_nat (used o - 1 - i));;
        u ← to_int (used o - 1);
        set_used this u;;
        mret true
      else remove_loop this anInt (i + 1) n'
  end.

(** [bool IntSet::remove(int anInt)] *)
Definition remove (this : loc) (anInt : Z) : M bool :=
  c ← contains this anInt;
  if (c : bool) then
    o ← get_obj this;
    remove_loop this anInt 0 (Z.to_nat (used o))
  else mret false.

(** In the three functions below the local [IntSet] that is returned by
    value is the object the caller receives (the copy on return is elided). *)

(** [for (i = ...; i < otherSize; i++)
      if (unionSet.contains(otherIntSet.data[i]) == false)
        unionSet.add(otherIntSet.data[i]);] *)
Fixpoint unionWith_loop (unionSet otherIntSet : loc) (i : Z) (n : nat)
  : M unit :=
  match n with
  | O => mret ()
  | S n' =>
      o ← get_obj otherIntSet;
      v ← read (data o) i;
      c ← contains unionSet v;
      (if negb c then
         w ← read (data o) i; _ ← add unionSet w; mret ()
       else mret () : M unit);;
      unionWith_loop unionSet otherIntSet (i + 1) n'
  end.

(** [IntSet IntSet::unionWith(const IntSet& otherIntSet) const] *)
Definition unionWith (this otherIntSet : loc) : M loc :=
  unionSet ← IntSet_copy this;
  otherSize ← size otherIntSet;
  unionWith_loop unionSet otherIntSet 0 (Z.to_nat otherSize);;
  mret unionSet.

(** [for (i = ...; i < size(); i++)
      if (otherIntSet.contains(data[i]) == false)
        intersectSet.remove(data[i]);] *)
Fixpoint intersect_loop (this intersectSet otherIntSet : loc) (i : Z) (n : nat)
  : M unit :=
  match n with
  | O => mret ()
  | S n' =>
      o ← get_obj this;
      v ← read (data o) i;
      c ← contains otherIntSet v;
      (if negb c then
         w ← read (data o) i; _ ← remove intersectSet w; mret ()
       else mret () : M unit);;
      intersect_loop this intersectSet otherIntSet (i + 1) n'
  end.

(** [IntSet IntSet::intersect(const IntSet& otherIntSet) const] *)
Definition intersect (this otherIntSet : loc) : M loc :=
  intersectSet ← IntSet_copy this;
  n ← size this;
  intersect_loop this intersectSet otherIntSet 0 (Z.to_nat n);;
  mret intersectSet.

(** [for (i = ...; i < otherSize; i++)
      if (subSet.contains(otherIntSet.data[i]))
        subSet.remove(otherIntSet.data[i]);] *)
Fixpoint subtract_loop (subSet otherIntSet : loc) (i : Z) (n : nat) : M unit :=
  match n with
  | O => mret ()
  | S n' =>
      o ← get_obj otherIntSet;
      v ← read (data o) i;
      c ← contains subSet v;
      (if (c : bool) then
         w ← read (data o) i; _ ← remove subSet w; mret ()
       else mret () : M unit);;
      subtract_loop subSet otherIntSet (i + 1) n'
  end.

(** [IntSet IntSet::subtract(const IntSet& otherIntSet) const] *)
Definition subtract (this otherIntSet : loc) : M loc :=
  subSet ← IntSet_copy this;
  otherSize ← size otherIntSet;
  subtract_loop subSet otherIntSet 0 (Z.to_nat otherSize);;
  mret subSet.

(** [bool operator==(const IntSet& is1, const IntSet& is2)] *)
Definition equal (is1 is2 : loc) : M bool :=
  n1 ← size is1;
  n2 ← size is2;
  if decide (n1 ≠ n2) then mret false
  else
    s12 ← isSubsetOf is1 is2;
    if (s12 : bool) then
      s21 ← isSubsetOf is2 is1;
      if (s21 : bool) then mret true else mret false
    else mret false.

End IntSet_code.

(** The memory before any object exists. *)
Definition empty_mem : mem := mkMem ∅ ∅.

(** ** Abstract view of an object *)

(** The values held in the first [n] cells of an array. *)
Definition cells_values (a : list cell) (n : nat) : list Z :=
  omap id (take n a).

(** The members of the set at [p], in the order of the array. *)
Definition elements (m : mem) (p : loc) : list Z :=
  match objects m !! p with
  | Some o =>
      match arrays m !! data o with
      | Some a => cells_values a (Z.to_nat (used o))
      | None => []
      end
  | None => []
  end.

(** [rep m p o a l]: the object at [p] has fields [o], its array is [a], of
    [capacity o] cells, and the first [used o] cells hold [l]. *)
Record rep (m : mem) (p : loc) (o : IntSet) (a : list cell) (l : list Z)
  : Prop := mkRep {
  rep_obj : objects m !! p = Some o;
  rep_arr : arrays m !! data o = Some a;
  rep_cap : Z.of_nat (length a) = capacity o;
  rep_used : Z.of_nat (length l) = used o;
  rep_cells : take (length l) a = Some <$> l
}.

(** The class invariant of one object, with the range of its [int] fields. *)
Definition obj_ok (m : mem) (p : loc) (o : IntSet) : Prop :=
  ∃ a l, rep m p o a l ∧ NoDup l ∧ 1 ≤ capacity o ≤ INT_MAX.

(** Every object satisfies its invariant and owns its array alone. *)
Record mem_ok (m : mem) : Prop := mkMemOk {
  ok_objs : ∀ p o, objects m !! p = Some o → obj_ok m p o;
  ok_sep : ∀ p q o o', objects m !! p = Some o → objects m !! q = Some o' →
                       data o = data o' → p = q
}.

(** The object at [q] and its array are the same in [m'] as in [m]. *)
Definition unchanged (m m' : mem) (q : loc) : Prop :=
  ∀ o, objects m !! q = Some o →
       objects m' !! q = Some o ∧ arrays m' !! data o = arrays m !! data o.

(** ** Definitions used to state and prove the properties *)

(** *** Lists the operations compute *)

(** The text [DumpData] appends to [out] for the members [l]. *)
Definition dump_text (out : string) (l : list Z) : string :=
  match l with
  | [] => out
  | v :: l' => foldl (λ s w, s +:+ "  " +:+ pretty w) (out +:+ pretty v) l'
  end.

(** Members of [lu], then those of [l] not met before, in the order of [l]. *)
Definition union_list (lu l : list Z) : list Z :=
  foldl (λ acc v, if decide (v ∈ acc) then acc else acc ++ [v]) lu l.

(** [li] without the members of [l] that are not in [l2]. *)
Definition intersect_list (l2 li l : list Z) : list Z :=
  foldl (λ acc v, if decide (v ∈ l2) then acc else filter (λ y, y ≠ v) acc) li l.

(** [ls] without the members of [l]. *)
Definition subtract_list (ls l : list Z) : list Z :=
  foldl (λ acc v, filter (λ y, y ≠ v) acc) ls l.

(** *** Capacities *)

(** The capacity the constructor settles on. *)
Definition initial (D initial_capacity : Z) : Z :=
  if decide (initial_capacity ≤ 0) then D else initial_capacity.

(** The request [add] makes when the array is full, as a number. *)
Definition grown (cap : Z) : Z := (3 * cap) `quot` 2 + 1.

(** The largest capacity whose growth request is still an [int]. *)
Definition MAX_GROWABLE : Z := 1431655764.

(** The capacity after an [add] that stores a value. *)
Definition capacity_after_add (o : IntSet) : Z :=
  if decide (used o < capacity o) then capacity o else grown (capacity o).

(** *** Memories the operations leave *)

(** The memory [resize] leaves: the members [l] of the object at [p] have
    moved to a new array of [c] cells and the old array is gone. *)
Definition resized (m : mem) (p : loc) (o : IntSet) (l : list Z) (c : Z) : mem :=
  let d := fresh (dom (arrays m)) in
  mkMem (delete (data o)
           (<[d := (Some <$> l) ++ replicate (Z.to_nat c - length l) None]>
              (arrays m)))
        (<[p := mkIntSet d c (used o)]> (objects m)).

(** The memory after [x] is stored behind the members of the object [o]
    at [p], in its array [a]. *)
Definition appended (m : mem) (p : loc) (o : IntSet) (a : list cell) (x : Z)
  : mem :=
  mkMem (<[data o := <[Z.to_nat (used o) := Some x]> a]> (arrays m))
        (<[p := mkIntSet (data o) (capacity o) (used o + 1)]> (objects m)).

(** *** Postconditions *)

(** What a call that returns the set [r] in memory [m'] owes its operands
    [A] and [B] of memory [m]: [r] is an object that did not exist, its
    array is the array of no object of [m], and [A] and [B] have the fields,
    the array and hence the members they had. *)
Definition new_and_framed (m : mem) (A B r : loc) (m' : mem) : Prop :=
  objects m !! r = None
  ∧ (∃ o', objects m' !! r = Some o'
           ∧ ∀ q oq, objects m !! q = Some oq → data oq ≠ data o')
  ∧ (∀ q, q = A ∨ q = B →
       objects m' !! q = objects m !! q
       ∧ (∀ oq, objects m !! q = Some oq →
                arrays m' !! data oq = arrays m !! data oq)
       ∧ elements m' q = elements m q).

(** Where [add] has put [x]: the object at [p] had [n] members before, and
    now its capacity is more than [n] and the cell [n] of its array, which
    has [capacity] cells, holds [x]. *)
Definition stored_in_bounds (m' : mem) (p : loc) (n : Z) (x : Z) : Prop :=
  ∃ o' a',
    objects m' !! p = Some o' ∧ arrays m' !! data o' = Some a'
    ∧ Z.of_nat (length a') = capacity o'
    ∧ 0 ≤ n < capacity o'
    ∧ a' !! Z.to_nat n = Some (Some x).

(** Every array of the memory is the array of some object: no array
    obtained from [new] has been lost. *)
Definition no_leak (m : mem) : Prop :=
  ∀ d, is_Some (arrays m !! d) → ∃ p o, objects m !! p = Some o ∧ data o = d.

(** [footprint m m' p]: from [m] to [m'] only the object at [p] and its
    array have changed.  The object at [p] has fields [o'] in [m'] and no
    other object differs; the array of [o'] exists, and it is the array the
    object had or one that was no array of [m]; the array the object had,
    if it has another one now, is released; every other array is as it
    was. *)
Definition footprint (m m' : mem) (p : loc) : Prop :=
  ∃ o',
    objects m' = <[p := o']> (objects m)
    ∧ is_Some (arrays m' !! data o')
    ∧ ((∀ o, objects m !! p = Some o → data o ≠ data o') →
       arrays m !! data o' = None)
    ∧ (∀ o, objects m !! p = Some o → data o ≠ data o' →
            arrays m' !! data o = None)
    ∧ (∀ d, d ≠ data o' → (∀ o, objects m !! p = Some o → d ≠ data o) →
            arrays m' !! d = arrays m !! d).

(** What a [unionWith] that has returned [r] in [m'] has made of the
    operands [A] and [B] of [m]: the members of [A] in their order, then
    those of [B] that are not in [A], in the order of [B]. *)
Definition union_made (m : mem) (A B r : loc) (m' : mem) : Prop :=
  elements m' r
  = elements m A ++ filter (λ x, x ∉ elements m A) (elements m B)
  ∧ (∀ x, contains r x m'
          = Ok (bool_decide (x ∈ elements m A ∨ x ∈ elements m B)) m')
  ∧ isSubsetOf A r m' = Ok true m'
  ∧ isSubsetOf B r m' = Ok true m'.

(** *** The invariant as a decidable check *)

(** The invariant of one object, as a decidable statement about its array. *)
Definition obj_check (m : mem) (o : IntSet) : Prop :=
  match arrays m !! data o with
  | Some a =>
      let l := cells_values a (Z.to_nat (used o)) in
      Z.of_nat (length a) = capacity o ∧ Z.of_nat (length l) = used o
      ∧ take (length l) a = Some <$> l ∧ NoDup l
      ∧ 1 ≤ capacity o ≤ INT_MAX
  | None => False
  end.

#[global] Instance obj_check_dec m o : Decision (obj_check m o).
Proof. unfold obj_check. destruct (arrays m !! data o); apply _. Defined.

(** All objects pass the check and no two of them have the same array. *)
Definition mem_check (m : mem) : Prop :=
  map_Forall (λ _ o, obj_check m o) (objects m)
  ∧ map_Forall (λ p o,
      map_Forall (λ q o', data o = data o' → p = q) (objects m)) (objects m).

#[global] Instance mem_check_dec m : Decision (mem_check m).
Proof. unfold mem_check. apply _. Defined.

(** *** Client programs *)

(** One statement of a client program; a set is named by the position of
    its declaration ([0] is the set constructed first, each copy
    construction declares the next one).  No set goes out of scope before
    the program ends, so the destructor is not called. *)
Inductive op : Type :=
  | Add (v : nat) (x : Z)        (* v.add(x) *)
  | Remove (v : nat) (x : Z)     (* v.remove(x) *)
  | Reset (v : nat)              (* v.reset() *)
  | Copy (v : nat)               (* IntSet fresh(v) *)
  | Assign (v w : nat).          (* v = w *)

(** The object a name stands for; a name that was never declared stands for
    nothing. *)
Definition var (env : list loc) (v : nat) : M loc :=
  match env !! v with
  | Some p => mret p
  | None => raise InvalidPointer
  end.

(** One statement; a copy construction declares a new name. *)
Definition step (D : Z) (env : list loc) (o : op) : M (list loc) :=
  match o with
  | Add v x => p ← var env v; _ ← add D p x; mret env
  | Remove v x => p ← var env v; _ ← remove p x; mret env
  | Reset v => p ← var env v; reset p;; mret env
  | Copy v => p ← var env v; q ← IntSet_copy p; mret (env ++ [q])
  | Assign v w => p ← var env v; q ← var env w; assign p q;; mret env
  end.

(** The statements in turn; the result is the list of the declared sets. *)
Fixpoint run (D : Z) (env : list loc) (ops : list op) : M (list loc) :=
  match ops with
  | [] => mret env
  | o :: ops' => env' ← step D env o; run D env' ops'
  end.

(** [IntSet s(c);] followed by the statements [ops]. *)
Definition program (D c : Z) (ops : list op) : M (list loc) :=
  s ← IntSet_new D c; run D [s] ops.

(** The statement uses only the [n] names declared so far. *)
Definition scoped (n : nat) (o : op) : Prop :=
  match o with
  | Add v _ | Remove v _ | Reset v | Copy v => (v < n)%nat
  | Assign v w => (v < n)%nat ∧ (w < n)%nat
  end.

(** The number of names the statement declares. *)
Definition binds (o : op) : nat :=
  match o with Copy _ => 1%nat | _ => 0%nat end.

(** 1 for a call of [add], 0 otherwise. *)
Definition adds (o : op) : Z :=
  match o with Add _ _ => 1 | _ => 0 end.

(** Every statement uses only names declared before it, [n] at the start. *)
Fixpoint well_scoped (n : nat) (ops : list op) : Prop :=
  match ops with
  | [] => True
  | o :: ops' => scoped n o ∧ well_scoped (n + binds o) ops'
  end.

(** The number of calls of [add] in the program. *)
Fixpoint count_adds (ops : list op) : Z :=
  match ops with
  | [] => 0
  | o :: ops' => adds o + count_adds ops'
  end.

(** The invariant of the set at [p] as the specification words it: the
    count is between 0 and the capacity, the cells below the count all hold
    a value, and these values are pairwise distinct. *)
Definition set_inv (m : mem) (p : loc) : Prop :=
  ∃ o, objects m !! p = Some o
       ∧ 0 ≤ used o ≤ capacity o
       ∧ Z.of_nat (length (elements m p)) = used o
       ∧ NoDup (elements m p).

(** Every name stands for a set of at most [k] members. *)
Definition env_ok (m : mem) (env : list loc) (k : Z) : Prop :=
  Forall (λ p, is_Some (objects m !! p)
               ∧ Z.of_nat (length (elements m p)) ≤ k) env.

(** [s.add(a); s.add(b); s.remove(a); s.add(a); s.DumpData(out);] with the
    text written to [out] as result. *)
Definition readd_scenario (D : Z) (s : loc) (a b : Z) : M string :=
  add D s a;; add D s b;; remove s a;; add D s a;;
  DumpData s "".

(** The same on a set constructed for it: [IntSet s(c);] first. *)
Definition readd_fresh (D c a b : Z) : M (loc * string) :=
  s ← IntSet_new D c;
  out ← readd_scenario D s a b;
  mret (s, out).

(** [s.add(0); s.add(1); ...; s.add(k - 1);] on the set declared first. *)
Definition count_up (k : nat) : list op :=
  (λ i, Add 0 (Z.of_nat i)) <$> seq 0 k.

(** *** Concrete memories and programs *)

(** A memory with one set, holding 5 and 3 in an array of two cells. *)
Definition sample_mem : mem :=
  mkMem {[ 1%positive := [Some 5; Some 3] ]}
        {[ 1%positive := mkIntSet 1 2 2 ]}.

(** Two sets with the same members in different orders and arrays of
    different sizes. *)
Definition sample_mem2 : mem :=
  mkMem {[ 1%positive := [Some 5; Some 3];
           2%positive := [Some 3; Some 5; None; None] ]}
        {[ 1%positive := mkIntSet 1 2 2; 2%positive := mkIntSet 2 4 2 ]}.

(** The set of [sample_mem] in an array of four cells: the two cells beyond
    the count hold a value left behind and nothing. *)
Definition slack_mem : mem :=
  mkMem {[ 1%positive := [Some 5; Some 3; Some 7; None] ]}
        {[ 1%positive := mkIntSet 1 4 2 ]}.

(** A full set of the eleven members 0, ..., 10. *)
Definition eleven_mem : mem :=
  mkMem {[ 1%positive := Some <$> [0; 1; 2; 3; 4; 5; 6; 7; 8; 9; 10] ]}
        {[ 1%positive := mkIntSet 1 11 11 ]}.

(** The number of members of the large set below. *)
Definition big_count : nat := Z.to_nat 1431655765.

(** The values 0, 1, ..., 1431655764. *)
Definition big_values : list Z := Z.of_nat <$> seq 0 big_count.

(** A full set of 1431655765 members at 1, and the set holding -1 at 2. *)
Definition big_mem : mem :=
  mkMem {[ 1%positive := Some <$> big_values; 2%positive := [Some (-1)] ]}
        {[ 1%positive := mkIntSet 1 1431655765 1431655765;
           2%positive := mkIntSet 2 1 1 ]}.

(** 1431655765 distinct values added, then one more. *)
Definition long_ops : list op := count_up big_count ++ [Add 0 (-1)].

(** * Properties of the operations *)

(** ** Stepping through monadic code *)

Lemma bind_ok {A B} (c : M A) (f : A → M B) m a m' :
  c m = Ok a m' → (c ≫= f) m = f a m'.
Proof. intros H. unfold mbind, M_bind. by rewrite H. Qed.

Lemma bind_fault {A B} (c : M A) (f : A → M B) m e :
  c m = Fault e → (c ≫= f) m = Fault e.
Proof. intros H. unfold mbind, M_bind. by rewrite H. Qed.

(** [mstep H]: the first call of a sequence returns as [H] says. *)
Tactic Notation "mstep" uconstr(H) := rewrite (bind_ok _ _ _ _ _ H).

Lemma mem_eta m : mkMem (arrays m) (objects m) = m.
Proof. by destruct m. Qed.

Lemma get_obj_ok m p o : objects m !! p = Some o → get_obj p m = Ok o m.
Proof. intros H. unfold get_obj. by rewrite H. Qed.

Lemma set_obj_ok m p o o' :
  objects m !! p = Some o →
  set_obj p o' m = Ok () (mkMem (arrays m) (<[p := o']> (objects m))).
Proof. intros H. unfold set_obj. by rewrite H. Qed.

Lemma set_used_ok m p o u :
  objects m !! p = Some o →
  set_used p u m
  = Ok () (mkMem (arrays m) (<[p := mkIntSet (data o) (capacity o) u]> (objects m))).
Proof.
  intros H. unfold set_used.
  mstep (get_obj_ok _ _ _ H). by apply set_obj_ok with o.
Qed.

Lemma set_capacity_ok m p o c :
  objects m !! p = Some o →
  set_capacity p c m
  = Ok () (mkMem (arrays m) (<[p := mkIntSet (data o) c (used o)]> (objects m))).
Proof.
  intros H. unfold set_capacity.
  mstep (get_obj_ok _ _ _ H). by apply set_obj_ok with o.
Qed.

Lemma set_data_ok m p o d :
  objects m !! p = Some o →
  set_data p d m
  = Ok () (mkMem (arrays m) (<[p := mkIntSet d (capacity o) (used o)]> (objects m))).
Proof.
  intros H. unfold set_data.
  mstep (get_obj_ok _ _ _ H). by apply set_obj_ok with o.
Qed.

Lemma read_ok m d a k v :
  arrays m !! d = Some a → a !! k = Some (Some v) →
  read d (Z.of_nat k) m = Ok v m.
Proof.
  intros Ha Hk. unfold read. rewrite Ha.
  destruct (decide (Z.of_nat k < 0)); [lia|].
  by rewrite Nat2Z.id, Hk.
Qed.

Lemma write_ok m d a k v :
  arrays m !! d = Some a → (k < length a)%nat →
  write d (Z.of_nat k) v m
  = Ok () (mkMem (<[d := <[k := Some v]> a]> (arrays m)) (objects m)).
Proof.
  intros Ha Hk. unfold write. rewrite Ha.
  destruct (decide (0 ≤ Z.of_nat k < Z.of_nat (length a))); [|lia].
  by rewrite Nat2Z.id.
Qed.

Lemma new_array_ok m n :
  0 ≤ n →
  new_array n m
  = Ok (fresh (dom (arrays m)))
       (mkMem (<[fresh (dom (arrays m)) := replicate (Z.to_nat n) None]> (arrays m))
              (objects m)).
Proof. intros H. unfold new_array. destruct (decide (n < 0)); [lia|done]. Qed.

Lemma fresh_array m : arrays m !! fresh (dom (arrays m)) = None.
Proof. apply not_elem_of_dom, is_fresh. Qed.

Lemma fresh_object m : objects m !! fresh (dom (objects m)) = None.
Proof. apply not_elem_of_dom, is_fresh. Qed.

Lemma delete_array_ok m d a :
  arrays m !! d = Some a →
  delete_array d m = Ok () (mkMem (delete d (arrays m)) (objects m)).
Proof. intros H. unfold delete_array. by rewrite H. Qed.

Lemma to_int_ok z m : is_int z → to_int z m = Ok z m.
Proof. intros H. unfold to_int. by destruct (decide (is_int z)). Qed.

Lemma to_int_overflow z m : ¬ is_int z → to_int z m = Fault IntOverflow.
Proof. intros H. unfold to_int. by destruct (decide (is_int z)). Qed.

(** ** Cells and values *)

Lemma cells_lookup (a : list cell) (l : list Z) k v :
  take (length l) a = Some <$> l → l !! k = Some v → a !! k = Some (Some v).
Proof.
  intros Hc Hk.
  assert (k < length l)%nat by (by eapply lookup_lt_Some).
  rewrite <- (lookup_take_lt a (length l) k) by done.
  by rewrite Hc, list_lookup_fmap, Hk.
Qed.

Lemma cells_length (a : list cell) (l : list Z) :
  take (length l) a = Some <$> l → (length l ≤ length a)%nat.
Proof.
  intros Hc. apply (f_equal length) in Hc.
  rewrite length_take, length_fmap in Hc. lia.
Qed.

Lemma cells_values_take (a : list cell) (l : list Z) :
  take (length l) a = Some <$> l → cells_values a (length l) = l.
Proof.
  intros Hc. unfold cells_values. rewrite Hc. clear.
  induction l as [|x l IH]; [done|]. rewrite fmap_cons. simpl. by f_equal.
Qed.

Lemma rep_elements m p o a l : rep m p o a l → elements m p = l.
Proof.
  intros [Ho Ha _ Hu Hc]. unfold elements. rewrite Ho, Ha, <- Hu, Nat2Z.id.
  by apply cells_values_take.
Qed.

Lemma rep_used_le m p o a l : rep m p o a l → 0 ≤ used o ≤ capacity o.
Proof.
  intros [_ _ Hcap Hu Hc]. apply cells_length in Hc. lia.
Qed.

Lemma rep_inj m p o a l o' a' l' :
  rep m p o a l → rep m p o' a' l' → o' = o ∧ a' = a ∧ l' = l.
Proof.
  intros H H'. pose proof (rep_elements _ _ _ _ _ H) as E.
  pose proof (rep_elements _ _ _ _ _ H') as E'.
  destruct H as [Ho Ha _ _ _], H' as [Ho' Ha' _ _ _].
  assert (o' = o) by congruence. subst o'.
  split; [done|]. split; congruence.
Qed.

(** ** Queries *)

Lemma contains_loop_spec d (a : list cell) (l : list Z) x n k m :
  arrays m !! d = Some a → take (length l) a = Some <$> l →
  (k + n = length l)%nat →
  contains_loop d x (Z.of_nat k) n m = Ok (bool_decide (x ∈ drop k l)) m.
Proof.
  intros Ha Hc. revert k. induction n as [|n IH]; intros k Hk.
  - rewrite drop_ge by lia. by rewrite bool_decide_eq_false_2 by apply not_elem_of_nil.
  - destruct (lookup_lt_is_Some_2 l k) as [v Hv]; [lia|].
    simpl. mstep (read_ok _ _ _ _ _ Ha (cells_lookup _ _ _ _ Hc Hv)).
    rewrite (drop_S _ _ _ Hv).
    destruct (decide (x = v)) as [->|Hne].
    + by rewrite bool_decide_eq_true_2 by apply list_elem_of_here.
    + replace (Z.of_nat k + 1) with (Z.of_nat (S k)) by lia.
      rewrite IH by lia. f_equal. apply bool_decide_ext.
      rewrite elem_of_cons. tauto.
Qed.

Lemma contains_spec m p o a l x :
  rep m p o a l → contains p x m = Ok (bool_decide (x ∈ l)) m.
Proof.
  intros [Ho Ha Hcap Hu Hc]. unfold contains.
  mstep (get_obj_ok _ _ _ Ho).
  destruct (decide (used o > 0)) as [Hpos|Hz].
  - rewrite <- Hu, Nat2Z.id.
    by rewrite (contains_loop_spec _ _ _ _ _ 0%nat _ Ha Hc).
  - destruct l; [|simpl in Hu; lia].
    by rewrite bool_decide_eq_false_2 by apply not_elem_of_nil.
Qed.

Lemma size_spec m p o a l : rep m p o a l → size p m = Ok (Z.of_nat (length l)) m.
Proof.
  intros [Ho _ _ Hu _]. unfold size.
  mstep (get_obj_ok _ _ _ Ho). by rewrite Hu.
Qed.

Lemma isEmpty_spec m p o a l :
  rep m p o a l → isEmpty p m = Ok (bool_decide (l = [])) m.
Proof.
  intros [Ho _ _ Hu _]. unfold isEmpty.
  mstep (get_obj_ok _ _ _ Ho).
  destruct (decide (used o = 0)); destruct l; simpl in *; try lia; done.
Qed.

Lemma isSubsetOf_loop_spec d (a : list cell) (l : list Z) q o2 a2 l2 n k m :
  arrays m !! d = Some a → take (length l) a = Some <$> l →
  rep m q o2 a2 l2 →
  (k + n = length l)%nat →
  isSubsetOf_loop d q (Z.of_nat k) n m
  = Ok (bool_decide (Forall (λ x, x ∈ l2) (drop k l))) m.
Proof.
  intros Ha Hc Hq. revert k. induction n as [|n IH]; intros k Hk.
  - rewrite drop_ge by lia. by rewrite bool_decide_eq_true_2 by constructor.
  - destruct (lookup_lt_is_Some_2 l k) as [v Hv]; [lia|].
    simpl. mstep (read_ok _ _ _ _ _ Ha (cells_lookup _ _ _ _ Hc Hv)).
    mstep (contains_spec _ _ _ _ _ v Hq).
    rewrite (drop_S _ _ _ Hv).
    destruct (decide (v ∈ l2)) as [Hin|Hnin].
    + rewrite (bool_decide_eq_true_2 _ Hin). simpl.
      replace (Z.of_nat k + 1) with (Z.of_nat (S k)) by lia.
      rewrite IH by lia. f_equal. apply bool_decide_ext.
      rewrite Forall_cons. tauto.
    + rewrite (bool_decide_eq_false_2 _ Hnin). simpl.
      rewrite bool_decide_eq_false_2; [done|].
      rewrite Forall_cons. tauto.
Qed.

Lemma isSubsetOf_spec m p o a l q o2 a2 l2 :
  rep m p o a l → rep m q o2 a2 l2 →
  isSubsetOf p q m = Ok (bool_decide (Forall (λ x, x ∈ l2) l)) m.
Proof.
  intros Hp Hq. unfold isSubsetOf.
  mstep (isEmpty_spec _ _ _ _ _ Hp).
  destruct Hp as [Ho Ha Hcap Hu Hc].
  destruct (decide (l = [])) as [->|Hne].
  - rewrite bool_decide_eq_true_2 by done.
    by rewrite bool_decide_eq_true_2 by constructor.
  - rewrite (bool_decide_eq_false_2 _ Hne).
    mstep (get_obj_ok _ _ _ Ho).
    rewrite <- Hu, Nat2Z.id.
    by rewrite (isSubsetOf_loop_spec _ _ _ _ _ _ _ _ 0%nat _ Ha Hc Hq).
Qed.

Lemma equal_spec m p o a l q o2 a2 l2 :
  rep m p o a l → rep m q o2 a2 l2 →
  equal p q m
  = Ok (bool_decide (length l = length l2)
        && bool_decide (Forall (λ x, x ∈ l2) l)
        && bool_decide (Forall (λ x, x ∈ l) l2)) m.
Proof.
  intros Hp Hq. unfold equal.
  mstep (size_spec _ _ _ _ _ Hp).
  mstep (size_spec _ _ _ _ _ Hq).
  destruct (decide (Z.of_nat (length l) ≠ Z.of_nat (length l2))) as [Hne|He].
  - rewrite bool_decide_eq_false_2 by lia. done.
  - rewrite bool_decide_eq_true_2 by lia. simpl.
    mstep (isSubsetOf_spec _ _ _ _ _ _ _ _ _ Hp Hq).
    destruct (bool_decide (Forall (λ x, x ∈ l2) l)); simpl; [|done].
    mstep (isSubsetOf_spec _ _ _ _ _ _ _ _ _ Hq Hp).
    by destruct (bool_decide (Forall (λ x, x ∈ l) l2)).
Qed.

Lemma DumpData_loop_spec d (a : list cell) (l : list Z) n k out m :
  arrays m !! d = Some a → take (length l) a = Some <$> l →
  (k + n = length l)%nat →
  DumpData_loop d (Z.of_nat k) n out m
  = Ok (foldl (λ s w, s +:+ "  " +:+ pretty w) out (drop k l)) m.
Proof.
  intros Ha Hc. revert k out. induction n as [|n IH]; intros k out Hk.
  - by rewrite drop_ge by lia.
  - destruct (lookup_lt_is_Some_2 l k) as [v Hv]; [lia|].
    simpl. mstep (read_ok _ _ _ _ _ Ha (cells_lookup _ _ _ _ Hc Hv)).
    rewrite (drop_S _ _ _ Hv).
    replace (Z.of_nat k + 1) with (Z.of_nat (S k)) by lia.
    by rewrite IH by lia.
Qed.

Lemma DumpData_spec m p o a l out :
  rep m p o a l → DumpData p out m = Ok (dump_text out l) m.
Proof.
  intros [Ho Ha Hcap Hu Hc]. unfold DumpData.
  mstep (get_obj_ok _ _ _ Ho).
  destruct l as [|v l]; simpl in Hu.
  - destruct (decide (used o > 0)); [lia|done].
  - destruct (decide (used o > 0)); [|lia].
    assert (Hv : (v :: l) !! 0%nat = Some v) by done.
    rewrite (bind_ok (read (data o) 0) _ _ _ _
               (read_ok _ _ _ 0%nat _ Ha (cells_lookup _ _ _ _ Hc Hv))).
    replace (Z.to_nat (used o - 1)) with (length l) by lia.
    exact (DumpData_loop_spec _ _ (v :: l) _ 1%nat _ _ Ha Hc eq_refl).
Qed.

(** ** Framing *)

Lemma unchanged_rep m m' q o a l :
  unchanged m m' q → rep m q o a l → rep m' q o a l.
Proof.
  intros Hu [Ho Ha Hcap Hus Hc]. destruct (Hu _ Ho) as [Ho' Ha'].
  split; try done. by rewrite Ha'.
Qed.

Lemma unchanged_refl m q : unchanged m m q.
Proof. by intros o Ho. Qed.

Lemma unchanged_trans m1 m2 m3 q :
  unchanged m1 m2 q → unchanged m2 m3 q → unchanged m1 m3 q.
Proof.
  intros H12 H23 o Ho. destruct (H12 _ Ho) as [Ho2 Ha2].
  destruct (H23 _ Ho2) as [Ho3 Ha3]. split; [done|]. by rewrite Ha3.
Qed.

Lemma unchanged_elements m m' q :
  unchanged m m' q → is_Some (objects m !! q) → elements m' q = elements m q.
Proof.
  intros Hu [o Ho]. destruct (Hu _ Ho) as [Ho' Ha'].
  unfold elements. by rewrite Ho, Ho', Ha'.
Qed.

(** The object at [p] is (re)bound to [o'] with array [a'] holding [l'];
    every other object keeps its array, which is not the one of [o']. *)
Lemma mem_ok_update m m' p o' a' l' :
  mem_ok m →
  objects m' = <[p := o']> (objects m) →
  arrays m' !! data o' = Some a' →
  Z.of_nat (length a') = capacity o' →
  Z.of_nat (length l') = used o' →
  take (length l') a' = Some <$> l' →
  NoDup l' →
  1 ≤ capacity o' ≤ INT_MAX →
  (∀ q oq, q ≠ p → objects m !! q = Some oq →
           arrays m' !! data oq = arrays m !! data oq ∧ data oq ≠ data o') →
  mem_ok m' ∧ rep m' p o' a' l' ∧ (∀ q, q ≠ p → unchanged m m' q).
Proof.
  intros [Hobjs Hsep] Hob Ha' Hcap Hus Hc Hnd Hrange Hfr.
  assert (Hrep : rep m' p o' a' l').
  { split; try done. rewrite Hob. apply lookup_insert_eq. }
  assert (Hun : ∀ q, q ≠ p → unchanged m m' q).
  { intros q Hq oq Hoq. split; [|by apply (Hfr q oq)].
    rewrite Hob. by rewrite lookup_insert_ne. }
  split; [|done]. split.
  - intros q oq Hoq. destruct (decide (q = p)) as [->|Hq].
    + rewrite Hob, lookup_insert_eq in Hoq. injection Hoq as <-.
      by exists a', l'.
    + rewrite Hob, lookup_insert_ne in Hoq by done.
      destruct (Hobjs _ _ Hoq) as (a & l & Hr & Hn & Hcp).
      exists a, l. split; [|done]. by apply (unchanged_rep m m' q), Hr; auto.
  - intros q1 q2 o1 o2 H1 H2 Hd. rewrite Hob in H1, H2.
    destruct (decide (q1 = p)) as [->|Hq1], (decide (q2 = p)) as [->|Hq2];
      try done.
    + rewrite lookup_insert_eq in H1. injection H1 as <-.
      rewrite lookup_insert_ne in H2 by done.
      destruct (Hfr _ _ Hq2 H2) as [_ Hne]. congruence.
    + rewrite lookup_insert_eq in H2. injection H2 as <-.
      rewrite lookup_insert_ne in H1 by done.
      destruct (Hfr _ _ Hq1 H1) as [_ Hne]. congruence.
    + rewrite lookup_insert_ne in H1, H2 by done. by eapply Hsep.
Qed.

(** ** Copying a prefix into another array *)

Lemma copy_loop_spec src dst (a : list cell) (l : list Z) n k b m :
  arrays m !! src = Some a → arrays m !! dst = Some b → src ≠ dst →
  take (length l) a = Some <$> l →
  (k + n = length l)%nat → (length l ≤ length b)%nat →
  copy_loop src dst (Z.of_nat k) n m
  = Ok () (mkMem (<[dst := take k b ++ (Some <$> drop k l) ++ drop (length l) b]>
                    (arrays m))
                 (objects m)).
Proof.
  intros Ha Hb Hne Hc. revert k b m Ha Hb.
  induction n as [|n IH]; intros k b m Ha Hb Hk Hlen.
  - assert (k = length l) as -> by lia.
    rewrite drop_all, fmap_nil, app_nil_l, take_drop.
    rewrite insert_id by done. by rewrite mem_eta.
  - destruct (lookup_lt_is_Some_2 l k) as [v Hv]; [lia|].
    simpl.
    mstep (read_ok _ _ _ _ _ Ha (cells_lookup _ _ _ _ Hc Hv)).
    assert (Hkb : (k < length b)%nat) by lia.
    mstep (write_ok _ _ _ _ v Hb Hkb).
    replace (Z.of_nat k + 1) with (Z.of_nat (S k)) by lia.
    rewrite (IH (S k) (<[k := Some v]> b)); simpl.
    + rewrite insert_insert_eq. do 2 f_equal.
      rewrite (take_S_r _ _ (Some v)) by (by apply list_lookup_insert_eq).
      rewrite take_insert_ge by lia. rewrite drop_insert_lt by lia.
      rewrite (drop_S _ _ _ Hv), fmap_cons. by rewrite <- !app_assoc.
    + by rewrite lookup_insert_ne.
    + apply lookup_insert_eq.
    + lia.
    + rewrite length_insert. lia.
Qed.

Lemma cells_app (l : list Z) (t : list cell) :
  take (length l) ((Some <$> l) ++ t) = Some <$> l.
Proof.
  rewrite <- (length_fmap Some l) at 1. by rewrite take_app_length.
Qed.

(** ** resize *)

Lemma resize_spec D m p o a l n :
  rep m p o a l →
  used o ≤ resize_capacity D (used o) n →
  resize D p n m = Ok () (resized m p o l (resize_capacity D (used o) n)).
Proof.
  intros [Ho Ha Hcap Hu Hc] Hle.
  set (c := resize_capacity D (used o) n) in *.
  unfold resize.
  mstep (get_obj_ok _ _ _ Ho). fold c.
  mstep (set_capacity_ok _ _ _ c Ho).
  set (m1 := mkMem (arrays m) (<[p := mkIntSet (data o) c (used o)]> (objects m))).
  assert (Ho1 : objects m1 !! p = Some (mkIntSet (data o) c (used o)))
    by apply lookup_insert_eq.
  mstep (get_obj_ok _ _ _ Ho1). simpl.
  assert (Hc0 : 0 ≤ c) by lia.
  mstep (new_array_ok m1 c Hc0). simpl.
  set (d := fresh (dom (arrays m))).
  assert (Hd : arrays m !! d = None) by apply fresh_array.
  assert (Hne : data o ≠ d) by congruence.
  set (b := replicate (Z.to_nat c) (None : cell)).
  set (m2 := mkMem (<[d := b]> (arrays m)) (objects m1)).
  assert (Ha2 : arrays m2 !! data o = Some a) by (simpl; by rewrite lookup_insert_ne).
  assert (Hb2 : arrays m2 !! d = Some b) by apply lookup_insert_eq.
  replace (Z.to_nat (used o)) with (length l) by lia.
  assert (Hlb : (length l ≤ length b)%nat)
    by (unfold b; rewrite length_replicate; lia).
  rewrite (bind_ok (copy_loop (data o) d 0 (length l)) _ _ _ _
             (copy_loop_spec _ _ _ _ _ 0%nat _ _ Ha2 Hb2 Hne Hc eq_refl Hlb)).
  simpl. rewrite insert_insert_eq, drop_0.
  unfold b at 1. rewrite drop_replicate.
  set (b' := (Some <$> l) ++ replicate (Z.to_nat c - length l) None).
  set (m3 := mkMem (<[d := b']> (arrays m)) (objects m1)).
  assert (Ha3 : arrays m3 !! data o = Some a) by (simpl; by rewrite lookup_insert_ne).
  mstep (delete_array_ok _ _ _ Ha3). simpl.
  set (m4 := mkMem (delete (data o) (<[d := b']> (arrays m))) (objects m1)).
  etrans; [exact (set_data_ok m4 p _ d Ho1)|]. simpl.
  unfold resized. fold d b'. by rewrite insert_insert_eq.
Qed.

Lemma resized_ok m p o a l c :
  mem_ok m → rep m p o a l → used o ≤ c → 1 ≤ c ≤ INT_MAX →
  let o' := mkIntSet (fresh (dom (arrays m))) c (used o) in
  let a' := (Some <$> l) ++ replicate (Z.to_nat c - length l) None in
  mem_ok (resized m p o l c) ∧ rep (resized m p o l c) p o' a' l
  ∧ (∀ q, q ≠ p → unchanged m (resized m p o l c) q).
Proof.
  intros Hok Hr Hle Hrange o' a'.
  pose proof Hr as [Ho Ha Hcap Hu Hc].
  assert (Hd : arrays m !! fresh (dom (arrays m)) = None) by apply fresh_array.
  destruct (ok_objs _ Hok _ _ Ho) as (a0 & l0 & Hr0 & Hnd & _).
  destruct (rep_inj _ _ _ _ _ _ _ _ Hr Hr0) as (_ & -> & ->).
  apply mem_ok_update; try done.
  - simpl. rewrite lookup_delete_ne by congruence. apply lookup_insert_eq.
  - unfold a'. rewrite length_app, length_fmap, length_replicate. simpl. lia.
  - apply cells_app.
  - intros q oq Hq Hoq. simpl.
    destruct (ok_objs _ Hok _ _ Hoq) as (aq & lq & [_ Haq _ _ _] & _).
    assert (data oq ≠ data o).
    { intros He. apply Hq. by apply (ok_sep _ Hok q p oq o). }
    assert (data oq ≠ fresh (dom (arrays m))) by congruence.
    split; [|done].
    rewrite lookup_delete_ne by done. by rewrite lookup_insert_ne.
Qed.

(** ** add *)

Lemma grow_request_ok cap m :
  0 ≤ cap → grown cap ≤ INT_MAX → grow_request cap m = Ok (grown cap) m.
Proof.
  intros H0 H. unfold grow_request, grown in *.
  assert (0 ≤ (3 * cap) `quot` 2) by (apply Z.quot_pos; lia).
  mstep (to_int_ok ((3 * cap) `quot` 2) m ltac:(unfold is_int, INT_MIN; lia)).
  apply to_int_ok. unfold is_int, INT_MIN. lia.
Qed.

Lemma grow_request_overflow cap m :
  0 ≤ cap → INT_MAX < grown cap → grow_request cap m = Fault IntOverflow.
Proof.
  intros H0 H. unfold grow_request, grown in *.
  destruct (decide (is_int ((3 * cap) `quot` 2))) as [Hi|Hi].
  - mstep (to_int_ok _ m Hi).
    apply to_int_overflow. unfold is_int. lia.
  - by rewrite (bind_fault _ _ _ _ (to_int_overflow _ m Hi)).
Qed.

Lemma grown_gt cap : 0 ≤ cap → cap < grown cap.
Proof.
  intros H. unfold grown.
  assert (cap ≤ (3 * cap) `quot` 2); [|lia].
  apply Z.quot_le_lower_bound; lia.
Qed.

Lemma grown_floor cap : 0 ≤ cap → grown cap = 3 * cap / 2 + 1.
Proof. intros H. unfold grown. rewrite Z.quot_div_nonneg; lia. Qed.

Lemma resize_capacity_grown D cap u :
  0 ≤ cap → u ≤ cap → resize_capacity D u (grown cap) = grown cap.
Proof.
  intros H0 Hu. pose proof (grown_gt cap H0). unfold resize_capacity.
  destruct (decide (grown cap ≤ 0)); [lia|].
  destruct (decide (grown cap < u)); [lia|done].
Qed.

Lemma add_present D m p o a l x :
  rep m p o a l → x ∈ l → add D p x m = Ok false m.
Proof.
  intros Hr Hx. unfold add.
  mstep (contains_spec _ _ _ _ _ x Hr).
  by rewrite (bool_decide_eq_true_2 _ Hx).
Qed.

Lemma add_store m p o a l x :
  rep m p o a l → used o < capacity o → capacity o ≤ INT_MAX →
  (o ← get_obj p;
   write (data o) (used o) x;;
   u ← to_int (used o + 1);
   set_used p u;;
   mret true) m
  = Ok true (appended m p o a x).
Proof.
  intros [Ho Ha Hcap Hu Hc] Hlt Hmax.
  mstep (get_obj_ok _ _ _ Ho).
  assert (Hk : (Z.to_nat (used o) < length a)%nat) by lia.
  assert (Hw := write_ok m (data o) a _ x Ha Hk).
  rewrite Z2Nat.id in Hw by lia.
  mstep Hw.
  assert (Hi : is_int (used o + 1)) by (unfold is_int, INT_MIN; lia).
  mstep (to_int_ok _ _ Hi).
  set (m1 := mkMem _ _).
  assert (Ho1 : objects m1 !! p = Some o) by done.
  by mstep (set_used_ok m1 p o (used o + 1) Ho1).
Qed.

Lemma add_room D m p o a l x :
  rep m p o a l → x ∉ l → used o < capacity o → capacity o ≤ INT_MAX →
  add D p x m = Ok true (appended m p o a x).
Proof.
  intros Hr Hx Hlt Hmax. unfold add.
  mstep (contains_spec _ _ _ _ _ x Hr).
  rewrite (bool_decide_eq_false_2 _ Hx). simpl.
  mstep (get_obj_ok _ _ _ (rep_obj _ _ _ _ _ Hr)).
  destruct (decide (used o >= capacity o)); [lia|].
  rewrite (bind_ok (mret ()) _ m () m eq_refl).
  by apply add_store with l.
Qed.

Lemma appended_ok m p o a l x :
  mem_ok m → rep m p o a l → x ∉ l → used o < capacity o →
  let o' := mkIntSet (data o) (capacity o) (used o + 1) in
  let a' := <[Z.to_nat (used o) := Some x]> a in
  mem_ok (appended m p o a x) ∧ rep (appended m p o a x) p o' a' (l ++ [x])
  ∧ (∀ q, q ≠ p → unchanged m (appended m p o a x) q).
Proof.
  intros Hok Hr Hx Hlt o' a'.
  pose proof Hr as [Ho Ha Hcap Hu Hc].
  destruct (ok_objs _ Hok _ _ Ho) as (a0 & l0 & Hr0 & Hnd & Hrange).
  destruct (rep_inj _ _ _ _ _ _ _ _ Hr Hr0) as (_ & -> & ->).
  assert (Hn : Z.to_nat (used o) = length l) by lia.
  apply mem_ok_update; try done.
  - simpl. apply lookup_insert_eq.
  - unfold a'. rewrite length_insert. done.
  - rewrite length_app. simpl. lia.
  - unfold a'. rewrite Hn, length_app. simpl.
    replace (length l + 1)%nat with (S (length l)) by lia.
    rewrite (take_S_r _ _ (Some x)) by (apply list_lookup_insert_eq; lia).
    rewrite take_insert_ge by lia. by rewrite Hc, fmap_app.
  - apply NoDup_app. split; [done|]. split; [|apply NoDup_singleton].
    intros y Hy Hy'. apply list_elem_of_singleton in Hy' as ->. done.
  - intros q oq Hq Hoq. simpl.
    assert (data oq ≠ data o).
    { intros He. apply Hq. by apply (ok_sep _ Hok q p oq o). }
    split; [|done]. by rewrite lookup_insert_ne.
Qed.

Lemma resized_rep m p o a l c :
  rep m p o a l → used o ≤ c →
  rep (resized m p o l c) p (mkIntSet (fresh (dom (arrays m))) c (used o))
      ((Some <$> l) ++ replicate (Z.to_nat c - length l) None) l.
Proof.
  intros [Ho Ha Hcap Hu Hc] Hle.
  assert (Hd : arrays m !! fresh (dom (arrays m)) = None) by apply fresh_array.
  split; simpl.
  - apply lookup_insert_eq.
  - rewrite lookup_delete_ne by congruence. apply lookup_insert_eq.
  - rewrite length_app, length_fmap, length_replicate. lia.
  - done.
  - apply cells_app.
Qed.

Lemma add_grow D m p o a l x :
  rep m p o a l → x ∉ l → used o = capacity o →
  grown (capacity o) ≤ INT_MAX →
  let c := grown (capacity o) in
  add D p x m
  = Ok true (appended (resized m p o l c) p
               (mkIntSet (fresh (dom (arrays m))) c (used o))
               ((Some <$> l) ++ replicate (Z.to_nat c - length l) None) x).
Proof.
  intros Hr Hx Hfull Hmax c. unfold add.
  pose proof (rep_used_le _ _ _ _ _ Hr) as Hu.
  assert (Hc0 : 0 ≤ capacity o) by lia.
  mstep (contains_spec _ _ _ _ _ x Hr).
  rewrite (bool_decide_eq_false_2 _ Hx). simpl.
  mstep (get_obj_ok _ _ _ (rep_obj _ _ _ _ _ Hr)).
  destruct (decide (used o >= capacity o)); [|lia].
  pose proof (grown_gt _ Hc0) as Hgt.
  assert (Hres : resize D p (grown (capacity o)) m = Ok () (resized m p o l c)).
  { rewrite (resize_spec D m p o a l _ Hr);
      rewrite resize_capacity_grown by lia; [done|fold c; lia]. }
  assert (Hstep : (n ← grow_request (capacity o); resize D p n) m
                  = Ok () (resized m p o l c)).
  { by mstep (grow_request_ok _ m Hc0 Hmax). }
  mstep Hstep.
  apply add_store with l.
  - apply (resized_rep m p o a l c); [done|lia].
  - simpl. fold c. lia.
  - done.
Qed.

Lemma add_overflow D m p o a l x :
  rep m p o a l → x ∉ l → used o = capacity o →
  INT_MAX < grown (capacity o) →
  add D p x m = Fault IntOverflow.
Proof.
  intros Hr Hx Hfull Hmax. unfold add.
  pose proof (rep_used_le _ _ _ _ _ Hr) as Hu.
  assert (Hc0 : 0 ≤ capacity o) by lia.
  mstep (contains_spec _ _ _ _ _ x Hr).
  rewrite (bool_decide_eq_false_2 _ Hx). simpl.
  mstep (get_obj_ok _ _ _ (rep_obj _ _ _ _ _ Hr)).
  destruct (decide (used o >= capacity o)); [|lia].
  assert (Hstep : (n ← grow_request (capacity o); resize D p n) m
                  = Fault IntOverflow).
  { by rewrite (bind_fault _ _ _ _ (grow_request_overflow _ m Hc0 Hmax)). }
  by rewrite (bind_fault _ _ _ _ Hstep).
Qed.

Lemma add_absent D m p o a l x :
  mem_ok m → rep m p o a l → x ∉ l →
  used o < capacity o ∨ grown (capacity o) ≤ INT_MAX →
  ∃ m' o' a',
    add D p x m = Ok true m' ∧ mem_ok m' ∧ rep m' p o' a' (l ++ [x])
    ∧ (∀ q, q ≠ p → unchanged m m' q)
    ∧ capacity o' = capacity_after_add o ∧ used o' = used o + 1.
Proof.
  intros Hok Hr Hx Hcase. unfold capacity_after_add.
  pose proof (rep_used_le _ _ _ _ _ Hr) as Hu.
  destruct (ok_objs _ Hok _ _ (rep_obj _ _ _ _ _ Hr)) as (a0 & l0 & Hr0 & Hnd & Hrange).
  destruct (rep_inj _ _ _ _ _ _ _ _ Hr Hr0) as (_ & -> & ->).
  destruct (decide (used o < capacity o)) as [Hlt|Hge].
  - destruct (appended_ok m p o a l x Hok Hr Hx Hlt) as (Hok' & Hr' & Hfr).
    eexists _, _, _.
    split; [apply (add_room D m p o a l x); [done|done|done|lia]|].
    split; [done|]. split; [done|]. split; [done|]. by split.
  - destruct Hcase as [?|Hmax]; [lia|].
    assert (Hfull : used o = capacity o) by lia.
    set (c := grown (capacity o)).
    assert (Hgt : capacity o < c) by (apply grown_gt; lia).
    destruct (resized_ok m p o a l c Hok Hr) as (Hok1 & Hr1 & Hfr1);
      [lia|unfold c in *; lia|].
    destruct (appended_ok _ _ _ _ _ x Hok1 Hr1 Hx) as (Hok2 & Hr2 & Hfr2);
      [simpl; lia|].
    eexists _, _, _.
    split; [by apply (add_grow D m p o a l x)|].
    split; [done|]. split; [done|]. split; [|by split].
    intros q Hq. eapply unchanged_trans; [by apply Hfr1|by apply Hfr2].
Qed.

Lemma grown_le cap : 0 ≤ cap → cap ≤ MAX_GROWABLE → grown cap ≤ INT_MAX.
Proof.
  intros H0 H. rewrite grown_floor by done. unfold MAX_GROWABLE, INT_MAX in *.
  assert (3 * cap / 2 ≤ 3 * 1431655764 / 2) by (apply Z.div_le_mono; lia).
  change (3 * 1431655764 / 2) with 2147483646 in *. lia.
Qed.

Lemma grown_gt_max cap : MAX_GROWABLE < cap → INT_MAX < grown cap.
Proof.
  intros H. rewrite grown_floor by (unfold MAX_GROWABLE in *; lia).
  unfold MAX_GROWABLE, INT_MAX in *.
  assert (3 * 1431655765 / 2 ≤ 3 * cap / 2) by (apply Z.div_le_mono; lia).
  change (3 * 1431655765 / 2) with 2147483647 in *. lia.
Qed.

(** The three ways an [add] can go. *)
Lemma add_cases D m p o a l x :
  mem_ok m → rep m p o a l →
  (x ∈ l ∧ add D p x m = Ok false m)
  ∨ (((x ∉ l) ∧ ∃ m' o' a',
        add D p x m = Ok true m' ∧ mem_ok m' ∧ rep m' p o' a' (l ++ [x])
        ∧ (∀ q, q ≠ p → unchanged m m' q)
        ∧ capacity o' = capacity_after_add o ∧ used o' = used o + 1)
     ∨ ((x ∉ l) ∧ used o = capacity o ∧ MAX_GROWABLE < capacity o
        ∧ add D p x m = Fault IntOverflow)).
Proof.
  intros Hok Hr. pose proof (rep_used_le _ _ _ _ _ Hr) as Hu.
  destruct (decide (x ∈ l)) as [Hx|Hx].
  { left. split; [done|]. by apply add_present with o a l. }
  right.
  destruct (decide (used o < capacity o ∨ capacity o ≤ MAX_GROWABLE))
    as [Hc|Hc].
  - left. split; [done|]. apply (add_absent D m p o a l x); try done.
    destruct Hc as [?|?]; [by left|right]. apply grown_le; lia.
  - right. assert (used o = capacity o ∧ MAX_GROWABLE < capacity o) as [? ?]
      by lia.
    do 3 (split; [done|]). apply add_overflow with o a l; try done.
    by apply grown_gt_max.
Qed.

(** ** remove *)

(** Closing the gap at the cell [c]: the values behind it move one cell
    down; the cell that held the last of them keeps its content. *)
Lemma shift_loop_spec d (l2 : list Z) (t : list cell) :
  ∀ (pre : list cell) (c : cell) m,
    arrays m !! d = Some (pre ++ c :: (Some <$> l2) ++ t) →
    ∃ c', shift_loop d (Z.of_nat (length pre)) (length l2) m
          = Ok () (mkMem (<[d := pre ++ (Some <$> l2) ++ c' :: t]> (arrays m))
                         (objects m)).
Proof.
  induction l2 as [|v l2 IH]; intros pre c m Ha.
  - exists c. simpl. rewrite insert_id by done. by rewrite mem_eta.
  - simpl.
    assert (Hv : (pre ++ c :: (Some <$> v :: l2) ++ t) !! S (length pre)
                 = Some (Some v)).
    { rewrite lookup_app_r by lia.
      by replace (S (length pre) - length pre)%nat with 1%nat by lia. }
    replace (Z.of_nat (length pre) + 1) with (Z.of_nat (S (length pre))) by lia.
    mstep (read_ok _ _ _ _ _ Ha Hv).
    assert (Hk : (length pre < length (pre ++ c :: (Some <$> v :: l2) ++ t))%nat)
      by (rewrite length_app; simpl; lia).
    mstep (write_ok _ _ _ _ v Ha Hk).
    replace (<[length pre := Some v]> (pre ++ c :: (Some <$> v :: l2) ++ t))
      with ((pre ++ [Some v]) ++ Some v :: (Some <$> l2) ++ t).
    2:{ rewrite <- (Nat.add_0_r (length pre)) at 1. rewrite insert_app_r.
        simpl. by rewrite <- app_assoc. }
    set (m1 := mkMem _ _).
    destruct (IH (pre ++ [Some v]) (Some v) m1) as [c' Hc'].
    { apply lookup_insert_eq. }
    exists c'.
    replace (S (length pre)) with (length (pre ++ [Some v]))
      by (rewrite length_app; simpl; lia).
    rewrite Hc'. subst m1. simpl. rewrite insert_insert_eq.
    by rewrite <- app_assoc.
Qed.

Lemma cells_split (a : list cell) (l : list Z) :
  take (length l) a = Some <$> l → a = (Some <$> l) ++ drop (length l) a.
Proof. intros Hc. by rewrite <- Hc, take_drop. Qed.

Lemma remove_loop_found m p o a l l1 x l2 :
  rep m p o a l → l = l1 ++ x :: l2 → x ∉ l1 → capacity o ≤ INT_MAX →
  ∀ n k, (k ≤ length l1)%nat → (k + n = length l)%nat →
    ∃ c', remove_loop p x (Z.of_nat k) n m
          = Ok true
              (mkMem (<[data o := (Some <$> l1 ++ l2) ++ c' :: drop (length l) a]>
                        (arrays m))
                     (<[p := mkIntSet (data o) (capacity o) (used o - 1)]>
                        (objects m))).
Proof.
  intros Hr -> Hx Hmax. pose proof Hr as [Ho Ha Hcap Hu Hc].
  pose proof (cells_length _ _ Hc) as Hlen.
  assert (Hl : length (l1 ++ x :: l2) = (length l1 + S (length l2))%nat)
    by (by rewrite length_app).
  induction n as [|n IH]; intros k Hk Hkn; [lia|].
  simpl. mstep (get_obj_ok _ _ _ Ho).
  destruct (decide (k = length l1)) as [->|Hne].
  - assert (Hv : (l1 ++ x :: l2) !! length l1 = Some x)
      by (by apply list_lookup_middle).
    mstep (read_ok _ _ _ _ _ Ha (cells_lookup _ _ _ _ Hc Hv)).
    destruct (decide (x = x)); [|done].
    assert (Ha' : arrays m !! data o
                  = Some ((Some <$> l1) ++ Some x :: (Some <$> l2)
                          ++ drop (length (l1 ++ x :: l2)) a)).
    { rewrite Ha. f_equal. rewrite (cells_split _ _ Hc) at 1.
      rewrite fmap_app, fmap_cons. by rewrite <- app_assoc. }
    destruct (shift_loop_spec _ _ _ _ _ _ Ha') as [c' Hs].
    rewrite length_fmap in Hs.
    replace (Z.to_nat (used o - 1 - Z.of_nat (length l1))) with (length l2)
      by lia.
    mstep Hs.
    assert (Hi : is_int (used o - 1)) by (unfold is_int, INT_MIN; lia).
    mstep (to_int_ok _ _ Hi).
    set (m1 := mkMem _ _).
    assert (Ho1 : objects m1 !! p = Some o) by done.
    mstep (set_used_ok m1 p o (used o - 1) Ho1).
    exists c'. subst m1. simpl. unfold mret, M_ret. do 3 f_equal.
    by rewrite fmap_app, <- app_assoc.
  - assert (Hlt : (k < length l1)%nat) by lia.
    destruct (lookup_lt_is_Some_2 l1 k Hlt) as [v Hv].
    assert (Hv' : (l1 ++ x :: l2) !! k = Some v) by (by apply lookup_app_l_Some).
    mstep (read_ok _ _ _ _ _ Ha (cells_lookup _ _ _ _ Hc Hv')).
    destruct (decide (v = x)) as [->|Hvx].
    { exfalso. apply Hx. by eapply list_elem_of_lookup_2. }
    replace (Z.of_nat k + 1) with (Z.of_nat (S k)) by lia.
    apply IH; lia.
Qed.

Lemma remove_absent m p o a l x :
  rep m p o a l → x ∉ l → remove p x m = Ok false m.
Proof.
  intros Hr Hx. unfold remove.
  mstep (contains_spec _ _ _ _ _ x Hr).
  by rewrite (bool_decide_eq_false_2 _ Hx).
Qed.

Lemma filter_ne_absent (l : list Z) x : x ∉ l → filter (λ y, y ≠ x) l = l.
Proof.
  induction l as [|y l IH]; intros Hx; [done|].
  apply not_elem_of_cons in Hx as [Hne Hx].
  rewrite filter_cons_True by congruence. by rewrite IH.
Qed.

Lemma filter_ne_middle (l1 l2 : list Z) x :
  NoDup (l1 ++ x :: l2) → filter (λ y, y ≠ x) (l1 ++ x :: l2) = l1 ++ l2.
Proof.
  intros Hnd. apply NoDup_app in Hnd as (_ & Hdis & Hnd2).
  apply NoDup_cons in Hnd2 as [Hx2 _].
  rewrite filter_app, filter_cons_False by (intros H; by apply H).
  rewrite !filter_ne_absent; [done|done|].
  intros Hx1. apply (Hdis x Hx1). apply list_elem_of_here.
Qed.

Lemma remove_present m p o a l x :
  mem_ok m → rep m p o a l → x ∈ l →
  ∃ m' o' a',
    remove p x m = Ok true m' ∧ mem_ok m'
    ∧ rep m' p o' a' (filter (λ y, y ≠ x) l)
    ∧ (∀ q, q ≠ p → unchanged m m' q)
    ∧ capacity o' = capacity o ∧ used o' = used o - 1.
Proof.
  intros Hok Hr Hx. pose proof Hr as [Ho Ha Hcap Hu Hc].
  destruct (ok_objs _ Hok _ _ Ho) as (a0 & l0 & Hr0 & Hnd & Hrange).
  destruct (rep_inj _ _ _ _ _ _ _ _ Hr Hr0) as (_ & -> & ->).
  destruct (list_elem_of_split_l _ _ Hx) as (l1 & l2 & Hl & Hx1).
  destruct (remove_loop_found m p o a l l1 x l2 Hr Hl Hx1 ltac:(lia)
              (length l) 0%nat ltac:(lia) eq_refl) as [c' Hloop].
  set (o' := mkIntSet (data o) (capacity o) (used o - 1)).
  set (a' := (Some <$> l1 ++ l2) ++ c' :: drop (length l) a) in *.
  set (m' := mkMem _ _) in Hloop.
  assert (Hrem : remove p x m = Ok true m').
  { unfold remove.
    mstep (contains_spec _ _ _ _ _ x Hr).
    rewrite (bool_decide_eq_true_2 _ Hx).
    mstep (get_obj_ok _ _ _ Ho).
    replace (Z.to_nat (used o)) with (length l) by lia. exact Hloop. }
  assert (Hlen : length l = (length l1 + S (length l2))%nat)
    by (by rewrite Hl, length_app).
  pose proof (cells_length _ _ Hc) as Hla.
  assert (Hfil : filter (λ y, y ≠ x) l = l1 ++ l2).
  { rewrite Hl. apply filter_ne_middle. by rewrite <- Hl. }
  rewrite Hfil.
  destruct (mem_ok_update m m' p o' a' (l1 ++ l2)) as (Hok' & Hr' & Hfr);
    try done.
  - simpl. apply lookup_insert_eq.
  - unfold a'. rewrite length_app, length_fmap, length_app. simpl.
    rewrite length_drop. lia.
  - rewrite length_app. simpl. lia.
  - unfold a'. apply cells_app.
  - rewrite Hl in Hnd. apply NoDup_app in Hnd as (Hn1 & Hdis & Hn2).
    apply NoDup_cons in Hn2 as [_ Hn2]. apply NoDup_app.
    split; [done|]. split; [|done].
    intros y Hy Hy2. apply (Hdis y Hy). by apply list_elem_of_further.
  - intros q oq Hq Hoq. simpl.
    assert (data oq ≠ data o).
    { intros He. apply Hq. by apply (ok_sep _ Hok q p oq o). }
    split; [|done]. by rewrite lookup_insert_ne.
  - by exists m', o', a'.
Qed.

(** ** Construction, copy, assignment, reset *)

Lemma owned_not_fresh m q oq :
  mem_ok m → objects m !! q = Some oq → data oq ≠ fresh (dom (arrays m)).
Proof.
  intros Hok Hoq.
  destruct (ok_objs _ Hok _ _ Hoq) as (aq & lq & [_ Haq _ _ _] & _).
  pose proof (fresh_array m). congruence.
Qed.

Lemma fresh_unchanged m m' p :
  objects m !! p = None → (∀ q, q ≠ p → unchanged m m' q) → ∀ q, unchanged m m' q.
Proof.
  intros Hp Hfr q. destruct (decide (q = p)) as [->|Hq]; [|by apply Hfr].
  intros o Ho. congruence.
Qed.

Lemma IntSet_new_spec D c m :
  mem_ok m → 1 ≤ initial D c ≤ INT_MAX →
  ∃ p m' o' a',
    IntSet_new D c m = Ok p m' ∧ objects m !! p = None ∧ mem_ok m'
    ∧ rep m' p o' a' [] ∧ capacity o' = initial D c
    ∧ (∀ q, unchanged m m' q).
Proof.
  intros Hok Hrange. unfold IntSet_new. fold (initial D c).
  mstep (new_array_ok m (initial D c) ltac:(lia)).
  set (d := fresh (dom (arrays m))).
  set (p := fresh (dom (objects m))).
  set (o' := mkIntSet d (initial D c) 0).
  set (a' := replicate (Z.to_nat (initial D c)) (None : cell)).
  set (m' := mkMem (<[d := a']> (arrays m)) (<[p := o']> (objects m))).
  assert (Hp : objects m !! p = None) by apply fresh_object.
  destruct (mem_ok_update m m' p o' a' []) as (Hok' & Hr' & Hfr); try done.
  - simpl. apply lookup_insert_eq.
  - unfold a'. rewrite length_replicate. simpl. lia.
  - apply NoDup_nil_2.
  - intros q oq Hq Hoq. simpl.
    pose proof (owned_not_fresh _ _ _ Hok Hoq). fold d in H.
    split; [|done]. by rewrite lookup_insert_ne.
  - exists p, m', o', a'. do 5 (split; [done|]).
    by apply (fresh_unchanged m m' p).
Qed.

Lemma IntSet_copy_spec src m s a l :
  mem_ok m → rep m src s a l →
  ∃ p m' o' a',
    IntSet_copy src m = Ok p m' ∧ objects m !! p = None ∧ mem_ok m'
    ∧ rep m' p o' a' l ∧ capacity o' = capacity s
    ∧ (∀ q, unchanged m m' q).
Proof.
  intros Hok Hr. pose proof Hr as [Ho Ha Hcap Hu Hc].
  destruct (ok_objs _ Hok _ _ Ho) as (a0 & l0 & Hr0 & Hnd & Hrange).
  destruct (rep_inj _ _ _ _ _ _ _ _ Hr Hr0) as (_ & -> & ->).
  pose proof (cells_length _ _ Hc) as Hlen.
  unfold IntSet_copy.
  mstep (get_obj_ok _ _ _ Ho).
  mstep (new_array_ok m (capacity s) ltac:(lia)).
  set (d := fresh (dom (arrays m))).
  set (b := replicate (Z.to_nat (capacity s)) (None : cell)).
  set (m1 := mkMem (<[d := b]> (arrays m)) (objects m)).
  assert (Hne : data s ≠ d) by (by eapply owned_not_fresh).
  assert (Ha1 : arrays m1 !! data s = Some a) by (simpl; by rewrite lookup_insert_ne).
  assert (Hb1 : arrays m1 !! d = Some b) by apply lookup_insert_eq.
  assert (Hlb : (length l ≤ length b)%nat)
    by (unfold b; rewrite length_replicate; lia).
  replace (Z.to_nat (used s)) with (length l) by lia.
  rewrite (bind_ok (copy_loop (data s) d 0 (length l)) _ _ _ _
             (copy_loop_spec _ _ _ _ _ 0%nat _ _ Ha1 Hb1 Hne Hc eq_refl Hlb)).
  simpl. rewrite insert_insert_eq, drop_0.
  unfold b at 1. rewrite drop_replicate.
  set (a' := (Some <$> l) ++ replicate (Z.to_nat (capacity s) - length l) None).
  set (p := fresh (dom (objects m))).
  set (o' := mkIntSet d (capacity s) (used s)).
  unfold new_obj. simpl. fold p o'.
  set (m' := mkMem (<[d := a']> (arrays m)) (<[p := o']> (objects m))).
  assert (Hp : objects m !! p = None) by apply fresh_object.
  destruct (mem_ok_update m m' p o' a' l) as (Hok' & Hr' & Hfr); try done.
  - simpl. apply lookup_insert_eq.
  - unfold a'. rewrite length_app, length_fmap, length_replicate. simpl. lia.
  - apply cells_app.
  - intros q oq Hq Hoq. simpl.
    pose proof (owned_not_fresh _ _ _ Hok Hoq). fold d in H.
    split; [|done]. by rewrite lookup_insert_ne.
  - exists p, m', o', a'. do 5 (split; [done|]).
    by apply (fresh_unchanged m m' p).
Qed.

Lemma assign_self this m : assign this this m = Ok () m.
Proof. unfold assign. by destruct (decide (this = this)). Qed.

Lemma assign_spec this rhs m o a l r ar lr :
  mem_ok m → rep m this o a l → rep m rhs r ar lr → this ≠ rhs →
  ∃ m' o' a',
    assign this rhs m = Ok () m' ∧ mem_ok m' ∧ rep m' this o' a' lr
    ∧ capacity o' = capacity r
    ∧ (∀ q, q ≠ this → unchanged m m' q).
Proof.
  intros Hok Ht Hr Hne. pose proof Hr as [Hor Har Hcapr Hur Hcr].
  pose proof Ht as [Ho Ha _ _ _].
  destruct (ok_objs _ Hok _ _ Hor) as (a0 & l0 & Hr0 & Hnd & Hrange).
  destruct (rep_inj _ _ _ _ _ _ _ _ Hr Hr0) as (_ & -> & ->).
  pose proof (cells_length _ _ Hcr) as Hlen.
  unfold assign. destruct (decide (this = rhs)); [done|].
  mstep (get_obj_ok _ _ _ Hor).
  mstep (new_array_ok m (capacity r) ltac:(lia)).
  set (d := fresh (dom (arrays m))).
  set (b := replicate (Z.to_nat (capacity r)) (None : cell)).
  set (m1 := mkMem (<[d := b]> (arrays m)) (objects m)).
  assert (Hner : data r ≠ d) by (by eapply owned_not_fresh).
  assert (Hneo : data o ≠ d) by (by eapply owned_not_fresh).
  assert (Ha1 : arrays m1 !! data r = Some ar) by (simpl; by rewrite lookup_insert_ne).
  assert (Hb1 : arrays m1 !! d = Some b) by apply lookup_insert_eq.
  assert (Hlb : (length lr ≤ length b)%nat)
    by (unfold b; rewrite length_replicate; lia).
  replace (Z.to_nat (used r)) with (length lr) by lia.
  rewrite (bind_ok (copy_loop (data r) d 0 (length lr)) _ _ _ _
             (copy_loop_spec _ _ _ _ _ 0%nat _ _ Ha1 Hb1 Hner Hcr eq_refl Hlb)).
  simpl. rewrite insert_insert_eq, drop_0.
  unfold b at 1. rewrite drop_replicate.
  set (a' := (Some <$> lr) ++ replicate (Z.to_nat (capacity r) - length lr) None).
  set (m2 := mkMem (<[d := a']> (arrays m)) (objects m)).
  assert (Ho2 : objects m2 !! this = Some o) by done.
  mstep (get_obj_ok _ _ _ Ho2).
  assert (Ha2 : arrays m2 !! data o = Some a) by (simpl; by rewrite lookup_insert_ne).
  mstep (delete_array_ok _ _ _ Ha2). simpl.
  set (m3 := mkMem (delete (data o) (<[d := a']> (arrays m))) (objects m)).
  assert (Ho3 : objects m3 !! this = Some o) by done.
  mstep (set_data_ok m3 this o d Ho3). simpl.
  set (m4 := mkMem _ (<[this := mkIntSet d (capacity o) (used o)]> (objects m))).
  assert (Hr4 : objects m4 !! rhs = Some r) by (simpl; by rewrite lookup_insert_ne).
  mstep (get_obj_ok _ _ _ Hr4).
  assert (Ho4 : objects m4 !! this = Some (mkIntSet d (capacity o) (used o)))
    by apply lookup_insert_eq.
  mstep (set_capacity_ok m4 this _ (capacity r) Ho4). simpl.
  rewrite insert_insert_eq.
  set (m5 := mkMem _ (<[this := mkIntSet d (capacity r) (used o)]> (objects m))).
  assert (Ho5 : objects m5 !! this = Some (mkIntSet d (capacity r) (used o)))
    by apply lookup_insert_eq.
  rewrite (set_used_ok m5 this _ (used r) Ho5). simpl.
  rewrite insert_insert_eq.
  set (o' := mkIntSet d (capacity r) (used r)).
  set (m' := mkMem _ (<[this := o']> (objects m))).
  destruct (mem_ok_update m m' this o' a' lr) as (Hok' & Hr' & Hfr); try done.
  - simpl. rewrite lookup_delete_ne by done. apply lookup_insert_eq.
  - unfold a'. rewrite length_app, length_fmap, length_replicate. simpl. lia.
  - apply cells_app.
  - intros q oq Hq Hoq. simpl.
    pose proof (owned_not_fresh _ _ _ Hok Hoq). fold d in H.
    assert (data oq ≠ data o).
    { intros He. apply Hq. by apply (ok_sep _ Hok q this oq o). }
    split; [|done]. rewrite lookup_delete_ne by done.
    by rewrite lookup_insert_ne.
  - by exists m', o', a'.
Qed.

Lemma reset_spec m p o a l :
  mem_ok m → rep m p o a l →
  ∃ m' o',
    reset p m = Ok () m' ∧ mem_ok m' ∧ rep m' p o' a []
    ∧ capacity o' = capacity o
    ∧ (∀ q, q ≠ p → unchanged m m' q).
Proof.
  intros Hok Hr. pose proof Hr as [Ho Ha Hcap Hu Hc].
  destruct (ok_objs _ Hok _ _ Ho) as (a0 & l0 & Hr0 & Hnd & Hrange).
  destruct (rep_inj _ _ _ _ _ _ _ _ Hr Hr0) as (_ & -> & ->).
  unfold reset. rewrite (set_used_ok m p o 0 Ho).
  set (o' := mkIntSet (data o) (capacity o) 0).
  set (m' := mkMem _ _).
  destruct (mem_ok_update m m' p o' a []) as (Hok' & Hr' & Hfr); try done.
  - apply NoDup_nil_2.
  - intros q oq Hq Hoq. simpl. split; [done|].
    intros He. apply Hq. by apply (ok_sep _ Hok q p oq o).
  - by exists m', o'.
Qed.

(** ** Union, intersection, difference *)

Lemma remove_spec m p o a l x :
  mem_ok m → rep m p o a l →
  ∃ m' o' a',
    remove p x m = Ok (bool_decide (x ∈ l)) m' ∧ mem_ok m'
    ∧ rep m' p o' a' (filter (λ y, y ≠ x) l)
    ∧ (∀ q, q ≠ p → unchanged m m' q)
    ∧ capacity o' = capacity o.
Proof.
  intros Hok Hr. destruct (decide (x ∈ l)) as [Hx|Hx].
  - destruct (remove_present m p o a l x Hok Hr Hx)
      as (m' & o' & a' & Hrem & Hok' & Hr' & Hfr & Hcap & _).
    exists m', o', a'. by rewrite (bool_decide_eq_true_2 _ Hx).
  - exists m, o, a. rewrite (bool_decide_eq_false_2 _ Hx).
    rewrite (filter_ne_absent _ _ Hx).
    split; [by apply remove_absent with o a l|].
    do 2 (split; [done|]). split; [|done]. intros q _. apply unchanged_refl.
Qed.

(** The loop of [unionWith] either completes or stops at an [add] whose
    growth request overflows. *)
Lemma unionWith_loop_cases D u other o2 a2 l2 :
  u ≠ other →
  ∀ n k m ou au lu,
    mem_ok m → rep m u ou au lu → rep m other o2 a2 l2 →
    (k + n = length l2)%nat →
    (∃ m' ou' au',
       unionWith_loop D u other (Z.of_nat k) n m = Ok () m' ∧ mem_ok m'
       ∧ rep m' u ou' au' (union_list lu (drop k l2))
       ∧ (∀ q, q ≠ u → unchanged m m' q))
    ∨ (unionWith_loop D u other (Z.of_nat k) n m = Fault IntOverflow
       ∧ MAX_GROWABLE + 1 < Z.of_nat (length lu + n)).
Proof.
  intros Hne. induction n as [|n IH]; intros k m ou au lu Hok Hu Ho Hk.
  - left. exists m, ou, au. rewrite drop_ge by lia. simpl.
    do 3 (split; [done|]). intros q _. apply unchanged_refl.
  - pose proof Ho as [Ho2 Ha2 _ _ Hc2].
    destruct (lookup_lt_is_Some_2 l2 k) as [v Hv]; [lia|].
    pose proof (read_ok _ _ _ _ _ Ha2 (cells_lookup _ _ _ _ Hc2 Hv)) as Hread.
    simpl. mstep (get_obj_ok _ _ _ Ho2).
    mstep Hread.
    mstep (contains_spec _ _ _ _ _ v Hu).
    rewrite (drop_S _ _ _ Hv). unfold union_list. simpl.
    fold (union_list (if decide (v ∈ lu) then lu else lu ++ [v]) (drop (S k) l2)).
    replace (Z.of_nat k + 1) with (Z.of_nat (S k)) by lia.
    destruct (add_cases D m u ou au lu v Hok Hu)
      as [[Hin _]|[(Hnin & m1 & o1 & a1 & Hadd & Hok1 & Hu1 & Hfr1 & _)
                  |(Hnin & Hfull & Hmax & Hadd)]].
    + rewrite (bool_decide_eq_true_2 _ Hin). simpl.
      rewrite (bind_ok (mret ()) _ m () m eq_refl).
      destruct (decide (v ∈ lu)); [|done].
      destruct (IH (S k) m ou au lu Hok Hu Ho ltac:(lia))
        as [Hdone|[Hf Hb]]; [by left|right].
      split; [done|lia].
    + rewrite (bool_decide_eq_false_2 _ Hnin). simpl.
      destruct (decide (v ∈ lu)); [done|].
      assert (Hstep : (w ← read (data o2) (Z.of_nat k);
                       _ ← add D u w; mret ()) m = Ok () m1).
      { mstep Hread. by mstep Hadd. }
      mstep Hstep.
      assert (Ho1 : rep m1 other o2 a2 l2)
        by (apply (unchanged_rep m m1); [by apply Hfr1|done]).
      destruct (IH (S k) m1 o1 a1 (lu ++ [v]) Hok1 Hu1 Ho1 ltac:(lia))
        as [(m' & ou' & au' & Hloop & Hok' & Hu' & Hfr')|[Hf Hb]].
      * left. exists m', ou', au'. do 3 (split; [done|]).
        intros q Hq. eapply unchanged_trans; [by apply Hfr1|by apply Hfr'].
      * right. split; [done|]. rewrite length_app in Hb. simpl in Hb. lia.
    + rewrite (bool_decide_eq_false_2 _ Hnin). simpl. right.
      assert (Hstep : (w ← read (data o2) (Z.of_nat k);
                       _ ← add D u w; mret ()) m = Fault IntOverflow).
      { mstep Hread. by apply bind_fault. }
      split; [by apply bind_fault|].
      pose proof (rep_used _ _ _ _ _ Hu). lia.
Qed.

Lemma unionWith_cases D A B m oA aA lA oB aB lB :
  mem_ok m → rep m A oA aA lA → rep m B oB aB lB →
  (∃ r m' o' a',
     unionWith D A B m = Ok r m' ∧ objects m !! r = None ∧ mem_ok m'
     ∧ rep m' r o' a' (union_list lA lB)
     ∧ (∀ q, unchanged m m' q))
  ∨ (unionWith D A B m = Fault IntOverflow
     ∧ MAX_GROWABLE + 1 < Z.of_nat (length lA + length lB)).
Proof.
  intros Hok HA HB.
  destruct (IntSet_copy_spec A m oA aA lA Hok HA)
    as (r & m1 & o1 & a1 & Hcopy & Hr & Hok1 & Hr1 & _ & Hfr1).
  assert (HB1 : rep m1 B oB aB lB) by (by apply (unchanged_rep m m1)).
  assert (Hne : r ≠ B).
  { intros ->. destruct HB as [HoB _ _ _ _]. congruence. }
  assert (Hsize : size B m1 = Ok (Z.of_nat (length lB)) m1)
    by (by apply size_spec with oB aB).
  unfold unionWith. mstep Hcopy. mstep Hsize. rewrite Nat2Z.id.
  destruct (unionWith_loop_cases D r B oB aB lB Hne (length lB) 0%nat
              m1 o1 a1 lA Hok1 Hr1 HB1 eq_refl)
    as [(m' & o' & a' & Hloop & Hok' & Hr' & Hfr')|[Hf Hb]].
  - left. rewrite (bind_ok (unionWith_loop D r B 0 (length lB)) _ _ _ _ Hloop).
    exists r, m', o', a'. do 4 (split; [done|]).
    intros q. destruct (decide (q = r)) as [->|Hq].
    + intros o Ho. congruence.
    + eapply unchanged_trans; [apply Hfr1|by apply Hfr'].
  - right. split; [|done].
    exact (bind_fault (unionWith_loop D r B 0 (length lB)) _ _ _ Hf).
Qed.

Lemma unionWith_spec D A B m oA aA lA oB aB lB :
  mem_ok m → rep m A oA aA lA → rep m B oB aB lB →
  Z.of_nat (length lA + length lB) ≤ MAX_GROWABLE + 1 →
  ∃ r m' o' a',
    unionWith D A B m = Ok r m' ∧ objects m !! r = None ∧ mem_ok m'
    ∧ rep m' r o' a' (union_list lA lB)
    ∧ (∀ q, unchanged m m' q).
Proof.
  intros Hok HA HB Hmax.
  destruct (unionWith_cases D A B m _ _ _ _ _ _ Hok HA HB) as [H|[_ Hb]];
    [done|lia].
Qed.

(** Whenever [unionWith] returns, it returns what the lemma above says. *)
Lemma unionWith_returned D A B m oA aA lA oB aB lB r m' :
  mem_ok m → rep m A oA aA lA → rep m B oB aB lB →
  unionWith D A B m = Ok r m' →
  objects m !! r = None ∧ mem_ok m'
  ∧ (∃ o' a', rep m' r o' a' (union_list lA lB))
  ∧ (∀ q, unchanged m m' q).
Proof.
  intros Hok HA HB Hun.
  destruct (unionWith_cases D A B m _ _ _ _ _ _ Hok HA HB)
    as [(r1 & m1 & o1 & a1 & H & Hr & Hok1 & Hr1 & Hfr)|[H _]];
    rewrite H in Hun; [|done].
  injection Hun as <- <-. do 2 (split; [done|]). split; [by exists o1, a1|done].
Qed.

Lemma intersect_loop_spec this i other o1 a1 l1 o2 a2 l2 :
  i ≠ this → i ≠ other →
  ∀ n k m oi ai li,
    mem_ok m → rep m i oi ai li → rep m this o1 a1 l1 → rep m other o2 a2 l2 →
    (k + n = length l1)%nat →
    ∃ m' oi' ai',
      intersect_loop this i other (Z.of_nat k) n m = Ok () m' ∧ mem_ok m'
      ∧ rep m' i oi' ai' (intersect_list l2 li (drop k l1))
      ∧ (∀ q, q ≠ i → unchanged m m' q).
Proof.
  intros Hnt Hno. induction n as [|n IH]; intros k m oi ai li Hok Hi Ht Ho Hk.
  - exists m, oi, ai. rewrite drop_ge by lia. simpl.
    do 3 (split; [done|]). intros q _. apply unchanged_refl.
  - pose proof Ht as [Ho1 Ha1 _ _ Hc1].
    destruct (lookup_lt_is_Some_2 l1 k) as [v Hv]; [lia|].
    pose proof (read_ok _ _ _ _ _ Ha1 (cells_lookup _ _ _ _ Hc1 Hv)) as Hread.
    simpl. mstep (get_obj_ok _ _ _ Ho1).
    mstep Hread.
    mstep (contains_spec _ _ _ _ _ v Ho).
    rewrite (drop_S _ _ _ Hv). unfold intersect_list. simpl.
    fold (intersect_list l2 (if decide (v ∈ l2) then li
                             else filter (λ y, y ≠ v) li) (drop (S k) l1)).
    replace (Z.of_nat k + 1) with (Z.of_nat (S k)) by lia.
    destruct (decide (v ∈ l2)) as [Hin|Hnin].
    + rewrite (bool_decide_eq_true_2 _ Hin). simpl.
      rewrite (bind_ok (mret ()) _ m () m eq_refl).
      apply (IH (S k) m oi ai li); try done; lia.
    + rewrite (bool_decide_eq_false_2 _ Hnin). simpl.
      destruct (remove_spec m i oi ai li v Hok Hi)
        as (m1 & oi1 & ai1 & Hrem & Hok1 & Hi1 & Hfr1 & _).
      assert (Hstep : (w ← read (data o1) (Z.of_nat k);
                       _ ← remove i w; mret ()) m = Ok () m1).
      { mstep Hread.
        by mstep Hrem. }
      mstep Hstep.
      destruct (IH (S k) m1 oi1 ai1 (filter (λ y, y ≠ v) li))
        as (m' & oi' & ai' & Hloop & Hok' & Hi' & Hfr'); try done.
      * apply (unchanged_rep m m1); [by apply Hfr1|done].
      * apply (unchanged_rep m m1); [by apply Hfr1|done].
      * lia.
      * exists m', oi', ai'. do 3 (split; [done|]).
        intros q Hq. eapply unchanged_trans; [by apply Hfr1|by apply Hfr'].
Qed.

Lemma intersect_spec A B m oA aA lA oB aB lB :
  mem_ok m → rep m A oA aA lA → rep m B oB aB lB →
  ∃ r m' o' a',
    intersect A B m = Ok r m' ∧ objects m !! r = None ∧ mem_ok m'
    ∧ rep m' r o' a' (intersect_list lB lA lA)
    ∧ (∀ q, unchanged m m' q).
Proof.
  intros Hok HA HB.
  destruct (IntSet_copy_spec A m oA aA lA Hok HA)
    as (r & m1 & o1 & a1 & Hcopy & Hr & Hok1 & Hr1 & _ & Hfr1).
  assert (HA1 : rep m1 A oA aA lA) by (by apply (unchanged_rep m m1)).
  assert (HB1 : rep m1 B oB aB lB) by (by apply (unchanged_rep m m1)).
  assert (HnA : r ≠ A).
  { intros ->. destruct HA as [HoA _ _ _ _]. congruence. }
  assert (HnB : r ≠ B).
  { intros ->. destruct HB as [HoB _ _ _ _]. congruence. }
  destruct (intersect_loop_spec A r B oA aA lA oB aB lB HnA HnB
              (length lA) 0%nat m1 o1 a1 lA)
    as (m' & o' & a' & Hloop & Hok' & Hr' & Hfr'); try done.
  unfold intersect.
  mstep Hcopy.
  mstep (size_spec _ _ _ _ _ HA1).
  rewrite Nat2Z.id.
  rewrite (bind_ok (intersect_loop A r B 0 (length lA)) _ _ _ _ Hloop).
  exists r, m', o', a'. do 4 (split; [done|]).
  intros q. destruct (decide (q = r)) as [->|Hq].
  - intros o Ho. congruence.
  - eapply unchanged_trans; [apply Hfr1|by apply Hfr'].
Qed.

Lemma subtract_loop_spec s other o2 a2 l2 :
  s ≠ other →
  ∀ n k m os as_ ls,
    mem_ok m → rep m s os as_ ls → rep m other o2 a2 l2 →
    (k + n = length l2)%nat →
    ∃ m' os' as',
      subtract_loop s other (Z.of_nat k) n m = Ok () m' ∧ mem_ok m'
      ∧ rep m' s os' as' (subtract_list ls (drop k l2))
      ∧ (∀ q, q ≠ s → unchanged m m' q).
Proof.
  intros Hne. induction n as [|n IH]; intros k m os as_ ls Hok Hs Ho Hk.
  - exists m, os, as_. rewrite drop_ge by lia. simpl.
    do 3 (split; [done|]). intros q _. apply unchanged_refl.
  - pose proof Ho as [Ho2 Ha2 _ _ Hc2].
    destruct (lookup_lt_is_Some_2 l2 k) as [v Hv]; [lia|].
    pose proof (read_ok _ _ _ _ _ Ha2 (cells_lookup _ _ _ _ Hc2 Hv)) as Hread.
    simpl. mstep (get_obj_ok _ _ _ Ho2).
    mstep Hread.
    mstep (contains_spec _ _ _ _ _ v Hs).
    rewrite (drop_S _ _ _ Hv). unfold subtract_list. simpl.
    fold (subtract_list (filter (λ y, y ≠ v) ls) (drop (S k) l2)).
    replace (Z.of_nat k + 1) with (Z.of_nat (S k)) by lia.
    destruct (decide (v ∈ ls)) as [Hin|Hnin].
    + rewrite (bool_decide_eq_true_2 _ Hin).
      destruct (remove_spec m s os as_ ls v Hok Hs)
        as (m1 & os1 & as1 & Hrem & Hok1 & Hs1 & Hfr1 & _).
      assert (Hstep : (w ← read (data o2) (Z.of_nat k);
                       _ ← remove s w; mret ()) m = Ok () m1).
      { mstep Hread.
        by mstep Hrem. }
      mstep Hstep.
      destruct (IH (S k) m1 os1 as1 (filter (λ y, y ≠ v) ls))
        as (m' & os' & as' & Hloop & Hok' & Hs' & Hfr'); try done.
      * apply (unchanged_rep m m1); [by apply Hfr1|done].
      * lia.
      * exists m', os', as'. do 3 (split; [done|]).
        intros q Hq. eapply unchanged_trans; [by apply Hfr1|by apply Hfr'].
    + rewrite (bool_decide_eq_false_2 _ Hnin).
      rewrite (bind_ok (mret ()) _ m () m eq_refl).
      rewrite (filter_ne_absent _ _ Hnin).
      apply (IH (S k) m os as_ ls); try done; lia.
Qed.

Lemma subtract_spec A B m oA aA lA oB aB lB :
  mem_ok m → rep m A oA aA lA → rep m B oB aB lB →
  ∃ r m' o' a',
    subtract A B m = Ok r m' ∧ objects m !! r = None ∧ mem_ok m'
    ∧ rep m' r o' a' (subtract_list lA lB)
    ∧ (∀ q, unchanged m m' q).
Proof.
  intros Hok HA HB.
  destruct (IntSet_copy_spec A m oA aA lA Hok HA)
    as (r & m1 & o1 & a1 & Hcopy & Hr & Hok1 & Hr1 & _ & Hfr1).
  assert (HB1 : rep m1 B oB aB lB) by (by apply (unchanged_rep m m1)).
  assert (HnB : r ≠ B).
  { intros ->. destruct HB as [HoB _ _ _ _]. congruence. }
  destruct (subtract_loop_spec r B oB aB lB HnB (length lB) 0%nat m1 o1 a1 lA)
    as (m' & o' & a' & Hloop & Hok' & Hr' & Hfr'); try done.
  unfold subtract.
  mstep Hcopy.
  mstep (size_spec _ _ _ _ _ HB1).
  rewrite Nat2Z.id.
  rewrite (bind_ok (subtract_loop r B 0 (length lB)) _ _ _ _ Hloop).
  exists r, m', o', a'. do 4 (split; [done|]).
  intros q. destruct (decide (q = r)) as [->|Hq].
  - intros o Ho. congruence.
  - eapply unchanged_trans; [apply Hfr1|by apply Hfr'].
Qed.

(** ** Objects of a well-formed memory *)

Lemma ok_rep m p o :
  mem_ok m → objects m !! p = Some o →
  ∃ a, rep m p o a (elements m p) ∧ NoDup (elements m p)
       ∧ 1 ≤ capacity o ≤ INT_MAX.
Proof.
  intros Hok Ho. destruct (ok_objs _ Hok _ _ Ho) as (a & l & Hr & Hnd & Hrange).
  exists a. by rewrite (rep_elements _ _ _ _ _ Hr).
Qed.

Lemma same_members_length (l k : list Z) :
  NoDup l → NoDup k → Forall (λ x, x ∈ k) l → Forall (λ x, x ∈ l) k →
  length l = length k.
Proof.
  intros Hl Hk Hlk Hkl. apply Permutation_length, NoDup_Permutation; try done.
  rewrite Forall_forall in Hlk, Hkl. intros x. split; auto.
Qed.

(** ** Concrete memories satisfy the invariant *)

Lemma empty_mem_ok : mem_ok empty_mem.
Proof.
  split; [intros p o H|intros p q o o' H]; unfold empty_mem in H;
    cbn [objects] in H; by rewrite lookup_empty in H.
Qed.

Lemma sample_rep :
  rep sample_mem 1 (mkIntSet 1 2 2) [Some 5; Some 3] [5; 3].
Proof. by split. Qed.

Lemma sample_mem_ok : mem_ok sample_mem.
Proof.
  split.
  - intros p o Ho. unfold sample_mem in Ho. cbn [objects] in Ho.
    apply lookup_singleton_Some in Ho as [<- <-].
    exists [Some 5; Some 3], [5; 3]. split; [apply sample_rep|].
    split; [|unfold INT_MAX; simpl; lia].
    apply NoDup_cons. split; [|apply NoDup_singleton].
    intros H. apply list_elem_of_singleton in H. lia.
  - intros p q o o' Ho Ho' _. unfold sample_mem in Ho, Ho'.
    cbn [objects] in Ho, Ho'.
    apply lookup_singleton_Some in Ho as [<- _].
    by apply lookup_singleton_Some in Ho' as [<- _].
Qed.

Lemma mem_check_ok m : mem_check m → mem_ok m.
Proof.
  intros [Hobjs Hsep]. split.
  - intros p o Ho. pose proof (Hobjs p o Ho) as Hc. unfold obj_check in Hc.
    destruct (arrays m !! data o) as [a|] eqn:Ha; [|done].
    cbv zeta in Hc. destruct Hc as (Hcap & Hu & Hc & Hnd & Hrange).
    exists a, (cells_values a (Z.to_nat (used o))). split; [by split|done].
  - intros p q o o' Ho Ho'. exact (Hsep p o Ho q o' Ho').
Qed.

Lemma sample_mem2_ok : mem_ok sample_mem2.
Proof. apply mem_check_ok. apply (bool_decide_unpack _). vm_compute. exact I. Qed.

(** ** What add and remove return *)

Lemma add_elements D m p x b m' :
  mem_ok m → is_Some (objects m !! p) → add D p x m = Ok b m' →
  mem_ok m'
  ∧ elements m' p = (if b then elements m p ++ [x] else elements m p)
  ∧ (∀ q, q ≠ p → unchanged m m' q).
Proof.
  intros Hok [o Ho] Hadd. destruct (ok_rep m p o Hok Ho) as (a & Hr & _).
  destruct (add_cases D m p o a _ x Hok Hr)
    as [[Hx He]|[(Hx & m1 & o1 & a1 & He & Hok1 & Hr1 & Hfr & _)
                |(_ & _ & _ & He)]];
    rewrite He in Hadd; [| |done].
  - injection Hadd as <- <-. do 2 (split; [done|]).
    intros q _. apply unchanged_refl.
  - injection Hadd as <- <-. split; [done|]. split; [|done].
    by apply rep_elements in Hr1.
Qed.

(** Whenever [add] of a value not in the set returns, it has stored it. *)
Lemma add_returned D m p o a l x r m' :
  mem_ok m → rep m p o a l → x ∉ l → add D p x m = Ok r m' →
  r = true ∧ mem_ok m'
  ∧ ∃ o' a', rep m' p o' a' (l ++ [x]) ∧ capacity o' = capacity_after_add o.
Proof.
  intros Hok Hr Hx Hadd.
  destruct (add_cases D m p o a l x Hok Hr)
    as [[Hin _]|[(_ & m1 & o1 & a1 & He & Hok1 & Hr1 & _ & Hc1 & _)
                |(_ & _ & _ & He)]]; [done| |by rewrite He in Hadd].
  rewrite He in Hadd. injection Hadd as <- <-.
  do 2 (split; [done|]). by exists o1, a1.
Qed.

Lemma remove_elements m p x :
  mem_ok m → is_Some (objects m !! p) →
  ∃ m', remove p x m = Ok (bool_decide (x ∈ elements m p)) m' ∧ mem_ok m'
        ∧ elements m' p = filter (λ y, y ≠ x) (elements m p)
        ∧ (∀ q, q ≠ p → unchanged m m' q).
Proof.
  intros Hok [o Ho]. destruct (ok_rep m p o Hok Ho) as (a & Hr & _).
  destruct (remove_spec m p o a _ x Hok Hr)
    as (m' & o' & a' & Hrem & Hok' & Hr' & Hfr & _).
  exists m'. do 2 (split; [done|]). split; [|done].
  by apply rep_elements in Hr'.
Qed.

(** Taking [x] out of a set and putting it back: the second call finds
    room in the array, so it cannot fault. *)
Lemma remove_then_add D m p x :
  mem_ok m → is_Some (objects m !! p) → x ∈ elements m p →
  ∃ m1 m2, remove p x m = Ok true m1 ∧ add D p x m1 = Ok true m2
           ∧ mem_ok m2
           ∧ elements m2 p = filter (λ y, y ≠ x) (elements m p) ++ [x].
Proof.
  intros Hok [o Ho] Hx. destruct (ok_rep m p o Hok Ho) as (a & Hr & _ & Hrg).
  pose proof (rep_used_le _ _ _ _ _ Hr) as Hu.
  destruct (remove_present m p o a _ x Hok Hr Hx)
    as (m1 & o1 & a1 & Hrem & Hok1 & Hr1 & _ & Hc1 & Hu1).
  assert (Hnx : x ∉ filter (λ y, y ≠ x) (elements m p)).
  { intros H. apply list_elem_of_filter in H as [H _]. by apply H. }
  destruct (add_absent D m1 p o1 a1 _ x Hok1 Hr1 Hnx)
    as (m2 & o2 & a2 & Hadd & Hok2 & Hr2 & _); [left; lia|].
  exists m1, m2. do 3 (split; [done|]). by apply rep_elements in Hr2.
Qed.

Lemma readd_scenario_spec D m p a b :
  mem_ok m → is_Some (objects m !! p) → elements m p = [] → a ≠ b →
  ∃ m', readd_scenario D p a b m = Ok (pretty b +:+ "  " +:+ pretty a) m'
        ∧ mem_ok m' ∧ elements m' p = [b; a].
Proof.
  intros Hok0 [o0 Ho0] Hempty Hab.
  destruct (ok_rep m p o0 Hok0 Ho0) as (a0 & Hr0 & _ & Hc0).
  rewrite Hempty in Hr0.
  pose proof (rep_used _ _ _ _ _ Hr0) as Hu0. simpl in Hu0.
  destruct (add_absent D m p o0 a0 [] a Hok0 Hr0)
    as (m1 & o1 & a1 & Hadd1 & Hok1 & Hr1 & _ & Hc1 & Hu1);
    [apply not_elem_of_nil|left; lia|].
  unfold capacity_after_add in Hc1.
  destruct (decide (used o0 < capacity o0)); [|lia].
  destruct (add_absent D m1 p o1 a1 [a] b Hok1 Hr1)
    as (m2 & o2 & a2 & Hadd2 & Hok2 & Hr2 & _ & _ & Hu2).
  { intros H. apply list_elem_of_singleton in H. congruence. }
  { destruct (decide (used o1 < capacity o1)); [by left|right].
    assert (capacity o1 = 1) as -> by lia. by vm_compute. }
  pose proof (rep_used_le _ _ _ _ _ Hr2) as Hle2.
  destruct (remove_present m2 p o2 a2 _ a Hok2 Hr2)
    as (m3 & o3 & a3 & Hrem & Hok3 & Hr3 & _ & Hc3 & Hu3);
    [apply list_elem_of_here|].
  simpl in Hr3. rewrite filter_cons_False in Hr3 by (intros H; by apply H).
  rewrite filter_cons_True, filter_nil in Hr3 by congruence.
  destruct (add_absent D m3 p o3 a3 [b] a Hok3 Hr3)
    as (m4 & o4 & a4 & Hadd4 & Hok4 & Hr4 & _).
  { intros H. apply list_elem_of_singleton in H. congruence. }
  { left. lia. }
  exists m4. split; [|split; [done|by apply rep_elements in Hr4]].
  unfold readd_scenario.
  mstep Hadd1. mstep Hadd2. mstep Hrem. mstep Hadd4.
  exact (DumpData_spec _ _ _ _ _ "" Hr4).
Qed.

Lemma readd_fresh_spec D c a b m :
  mem_ok m → 1 ≤ initial D c ≤ INT_MAX → a ≠ b →
  ∃ s m', readd_fresh D c a b m = Ok (s, pretty b +:+ "  " +:+ pretty a) m'
          ∧ elements m' s = [b; a].
Proof.
  intros Hok Hc Hab.
  destruct (IntSet_new_spec D c m Hok Hc)
    as (s & m0 & o0 & a0 & Hnew & _ & Hok0 & Hr0 & _).
  destruct (readd_scenario_spec D m0 s a b Hok0) as (m' & Hrun & _ & He);
    [exists o0; apply Hr0|by apply rep_elements in Hr0|done|].
  exists s, m'. split; [|done]. unfold readd_fresh. mstep Hnew. by mstep Hrun.
Qed.

(** ** A set that has reached the limit of [int] growth *)

Lemma big_count_Z : Z.of_nat big_count = 1431655765.
Proof. unfold big_count. by rewrite Z2Nat.id. Qed.

#[global] Opaque big_count.

Lemma big_values_length : length big_values = big_count.
Proof. unfold big_values. by rewrite length_fmap, length_seq. Qed.

Lemma big_values_nonneg x : x ∈ big_values → 0 ≤ x.
Proof.
  unfold big_values. intros H. apply list_elem_of_fmap in H as (k & -> & _). lia.
Qed.

Lemma big_values_NoDup : NoDup big_values.
Proof.
  unfold big_values. apply (NoDup_fmap_2 _). apply NoDup_seq.
Qed.

Lemma big_rep :
  rep big_mem 1 (mkIntSet 1 1431655765 1431655765) (Some <$> big_values)
      big_values.
Proof.
  split.
  - apply lookup_insert_eq.
  - apply lookup_insert_eq.
  - cbn [capacity]. by rewrite length_fmap, big_values_length, big_count_Z.
  - cbn [used]. by rewrite big_values_length, big_count_Z.
  - rewrite <- (length_fmap Some big_values). apply firstn_all.
Qed.

Lemma small_rep : rep big_mem 2 (mkIntSet 2 1 1) [Some (-1)] [-1].
Proof.
  split.
  - unfold big_mem. cbn [objects]. by rewrite lookup_insert_ne.
  - unfold big_mem. cbn [arrays data]. by rewrite lookup_insert_ne.
  - done.
  - done.
  - done.
Qed.

Lemma big_mem_ok : mem_ok big_mem.
Proof.
  split.
  - intros p o Ho. unfold big_mem in Ho. cbn [objects] in Ho.
    apply lookup_insert_Some in Ho as [[<- <-]|[Hne Ho]].
    + exists (Some <$> big_values), big_values.
      split; [apply big_rep|]. split; [apply big_values_NoDup|].
      cbn [capacity]. unfold INT_MAX. lia.
    + apply lookup_singleton_Some in Ho as [<- <-].
      exists [Some (-1)], [-1]. split; [apply small_rep|].
      split; [apply NoDup_singleton|]. cbn [capacity]. unfold INT_MAX. lia.
  - intros p q o o' Ho Ho' Hd. unfold big_mem in Ho, Ho'.
    cbn [objects] in Ho, Ho'.
    apply lookup_insert_Some in Ho as [[<- <-]|[Hne Ho]];
      apply lookup_insert_Some in Ho' as [[<- <-]|[Hne' Ho']]; try done.
    + apply lookup_singleton_Some in Ho' as [<- <-]. done.
    + apply lookup_singleton_Some in Ho as [<- <-]. done.
    + apply lookup_singleton_Some in Ho as [<- _].
      by apply lookup_singleton_Some in Ho' as [<- _].
Qed.

Lemma big_add_faults D : add D 1 (-1) big_mem = Fault IntOverflow.
Proof.
  apply add_overflow with (mkIntSet 1 1431655765 1431655765)
                          (Some <$> big_values) big_values.
  - apply big_rep.
  - intros H. apply big_values_nonneg in H. lia.
  - done.
  - cbn [capacity]. by vm_compute.
Qed.

Lemma big_elements : elements big_mem 1 = big_values.
Proof. apply rep_elements with (1 := big_rep). Qed.

Lemma big_values_fresh : -1 ∉ big_values.
Proof. intros H. apply big_values_nonneg in H. lia. Qed.

(** A union that has to grow a full copy beyond the limit. *)
Lemma unionWith_overflow D A B m oA aA lA oB aB v lB :
  mem_ok m → rep m A oA aA lA → rep m B oB aB (v :: lB) → v ∉ lA →
  used oA = capacity oA → MAX_GROWABLE < capacity oA →
  unionWith D A B m = Fault IntOverflow.
Proof.
  intros Hok HA HB Hv Hfull Hmax.
  destruct (IntSet_copy_spec A m oA aA lA Hok HA)
    as (r & m1 & o1 & a1 & Hcopy & Hr & Hok1 & Hr1 & Hc1 & Hfr1).
  assert (HB1 : rep m1 B oB aB (v :: lB)) by (by apply (unchanged_rep m m1)).
  pose proof HB1 as [HoB HaB _ _ HcB].
  assert (Hv0 : (v :: lB) !! 0%nat = Some v) by done.
  pose proof (read_ok _ _ _ _ _ HaB (cells_lookup _ _ _ _ HcB Hv0)) as Hread.
  assert (Hadd : add D r v m1 = Fault IntOverflow).
  { apply add_overflow with o1 a1 lA; try done.
    - pose proof (rep_used _ _ _ _ _ Hr1). pose proof (rep_used _ _ _ _ _ HA).
      lia.
    - apply grown_gt_max. lia. }
  unfold unionWith.
  mstep Hcopy.
  mstep (size_spec _ _ _ _ _ HB1).
  rewrite Nat2Z.id. apply bind_fault. cbn [length unionWith_loop].
  mstep (get_obj_ok _ _ _ HoB).
  rewrite (bind_ok (read (data oB) 0) _ _ _ _ Hread).
  mstep (contains_spec _ _ _ _ _ v Hr1).
  rewrite (bool_decide_eq_false_2 _ Hv). cbn [negb].
  apply bind_fault.
  rewrite (bind_ok (read (data oB) 0) _ _ _ _ Hread).
  by apply bind_fault.
Qed.

Lemma big_union_faults D : unionWith D 1 2 big_mem = Fault IntOverflow.
Proof.
  apply (unionWith_overflow D 1 2 big_mem _ _ _ _ _ (-1) []
           big_mem_ok big_rep small_rep big_values_fresh).
  - done.
  - by vm_compute.
Qed.

Lemma union_list_elem (lu l : list Z) x :
  x ∈ union_list lu l ↔ x ∈ lu ∨ x ∈ l.
Proof.
  unfold union_list. revert lu. induction l as [|v l IH]; intros lu; simpl.
  - rewrite elem_of_nil. tauto.
  - rewrite IH, elem_of_cons. destruct (decide (v ∈ lu)) as [Hv|Hv].
    + split; [tauto|]. intros [?|[->|?]]; tauto.
    + rewrite elem_of_app, list_elem_of_singleton. tauto.
Qed.

Lemma new_and_framed_intro m A B r m' o' a' l' :
  is_Some (objects m !! A) → is_Some (objects m !! B) →
  objects m !! r = None → mem_ok m' → rep m' r o' a' l' →
  (∀ q, unchanged m m' q) →
  new_and_framed m A B r m'.
Proof.
  intros HA HB Hr Hok' Hr' Hfr. split; [done|]. split.
  - exists o'. split; [apply Hr'|]. intros q oq Hoq Hd.
    destruct (Hfr q oq Hoq) as [Hoq' _].
    assert (q = r) as -> by (eapply (ok_sep _ Hok'); [done|apply Hr'|done]).
    congruence.
  - intros q Hq.
    assert (is_Some (objects m !! q)) as [oq Hoq] by (by destruct Hq as [->| ->]).
    destruct (Hfr q oq Hoq) as [Hoq' Haq]. split; [congruence|].
    split; [|apply unchanged_elements; [apply Hfr|by eexists]].
    intros oq2 Hoq2. by destruct (Hfr q oq2 Hoq2).
Qed.

(** ** Programs over several sets *)

Lemma var_ok env v p m : env !! v = Some p → var env v m = Ok p m.
Proof. intros H. unfold var. by rewrite H. Qed.

Lemma var_unbound env v m :
  env !! v = None → var env v m = Fault InvalidPointer ∧ (length env ≤ v)%nat.
Proof.
  intros H. unfold var. rewrite H. split; [done|]. by apply lookup_ge_None.
Qed.

Lemma env_ok_lookup m env k v p :
  env_ok m env k → env !! v = Some p →
  is_Some (objects m !! p) ∧ Z.of_nat (length (elements m p)) ≤ k.
Proof. intros H Hv. exact (Forall_lookup_1 _ _ _ _ H Hv). Qed.

Lemma env_ok_weaken m env k k' : env_ok m env k → k ≤ k' → env_ok m env k'.
Proof.
  intros H Hk. eapply Forall_impl; [exact H|]. intros p [? ?]. split; [done|lia].
Qed.

Lemma env_ok_mutated m m' env k k' p o' a' l' :
  env_ok m env k → k ≤ k' → rep m' p o' a' l' →
  Z.of_nat (length l') ≤ k' → (∀ q, q ≠ p → unchanged m m' q) →
  env_ok m' env k'.
Proof.
  intros H Hk Hr Hl Hfr. eapply Forall_impl; [exact H|].
  intros q [[oq Hoq] Hq]. destruct (decide (q = p)) as [->|Hne].
  - rewrite (rep_elements _ _ _ _ _ Hr). split; [|done].
    exists o'. apply Hr.
  - destruct (Hfr q Hne oq Hoq) as [Hoq' _]. split; [by eexists|].
    rewrite (unchanged_elements m m' q); [lia|by apply Hfr|by eexists].
Qed.

Lemma env_ok_declared m m' env k r o' a' l' :
  env_ok m env k → (∀ q, unchanged m m' q) → rep m' r o' a' l' →
  Z.of_nat (length l') ≤ k →
  env_ok m' (env ++ [r]) k.
Proof.
  intros H Hfr Hr Hl. apply Forall_app. split.
  - eapply Forall_impl; [exact H|]. intros q [[oq Hoq] Hq].
    destruct (Hfr q oq Hoq) as [Hoq' _]. split; [by eexists|].
    rewrite (unchanged_elements m m' q); [lia|by apply Hfr|by eexists].
  - apply Forall_singleton. rewrite (rep_elements _ _ _ _ _ Hr).
    split; [|done]. exists o'. apply Hr.
Qed.

(** The ways one statement can go. *)
Lemma step_cases D env o m k :
  mem_ok m → env_ok m env k →
  (∃ env' m', step D env o m = Ok env' m' ∧ mem_ok m'
              ∧ env_ok m' env' (k + adds o)
              ∧ length env' = (length env + binds o)%nat)
  ∨ (step D env o m = Fault IntOverflow ∧ MAX_GROWABLE < k ∧ adds o = 1)
  ∨ (step D env o m = Fault InvalidPointer ∧ ¬ scoped (length env) o).
Proof.
  intros Hok Henv.
  destruct o as [v x|v x|v|v|v w]; simpl;
    (destruct (env !! v) as [p|] eqn:Hv;
     [|destruct (var_unbound env v m Hv) as [Hf Hn]; right; right;
       split; [by apply bind_fault|lia]]);
    rewrite (bind_ok _ _ _ _ _ (var_ok _ _ _ m Hv));
    destruct (env_ok_lookup _ _ _ _ _ Henv Hv) as [[o Ho] Hk];
    destruct (ok_rep m p o Hok Ho) as (a & Hr & _).
  - destruct (add_cases D m p o a _ x Hok Hr)
      as [[_ He]|[(_ & m' & o' & a' & He & Hok' & Hr' & Hfr & _)
                 |(_ & Hfull & Hmax & He)]].
    + left. exists env, m. mstep He.
      split; [done|]. split; [done|]. split; [|lia].
      apply env_ok_weaken with k; [done|lia].
    + left. exists env, m'. mstep He.
      split; [done|]. split; [done|]. split; [|lia].
      eapply env_ok_mutated; [exact Henv| |exact Hr'| |exact Hfr]; [lia|].
      rewrite length_app. simpl. lia.
    + right. left. split; [by apply bind_fault|]. split; [|done].
      pose proof (rep_used _ _ _ _ _ Hr). lia.
  - destruct (remove_spec m p o a _ x Hok Hr)
      as (m' & o' & a' & He & Hok' & Hr' & Hfr & _).
    left. exists env, m'. mstep He.
    split; [done|]. split; [done|]. split; [|lia].
    eapply env_ok_mutated; [exact Henv| |exact Hr'| |exact Hfr]; [lia|].
    pose proof (length_filter (λ y, y ≠ x) (elements m p)). lia.
  - destruct (reset_spec m p o a _ Hok Hr)
      as (m' & o' & He & Hok' & Hr' & _ & Hfr).
    left. exists env, m'. mstep He.
    split; [done|]. split; [done|]. split; [|lia].
    eapply env_ok_mutated; [exact Henv| |exact Hr'| |exact Hfr]; [lia|].
    simpl. lia.
  - destruct (IntSet_copy_spec p m o a _ Hok Hr)
      as (r & m' & o' & a' & He & _ & Hok' & Hr' & _ & Hfr).
    left. exists (env ++ [r]), m'. mstep He.
    split; [done|]. split; [done|]. split; [|by rewrite length_app].
    eapply env_ok_declared; [|exact Hfr|exact Hr'|lia].
    apply env_ok_weaken with k; [done|lia].
  - destruct (env !! w) as [q|] eqn:Hw.
    2:{ destruct (var_unbound env w m Hw) as [Hf Hn]. right. right.
        split; [by apply bind_fault|lia]. }
    mstep (var_ok _ _ _ m Hw).
    destruct (env_ok_lookup _ _ _ _ _ Henv Hw) as [[oq Hoq] Hkq].
    destruct (ok_rep m q oq Hok Hoq) as (aq & Hrq & _).
    left. destruct (decide (p = q)) as [->|Hne].
    + exists env, m. mstep (assign_self q m).
      split; [done|]. split; [done|]. split; [|lia].
      apply env_ok_weaken with k; [done|lia].
    + destruct (assign_spec p q m o a _ oq aq _ Hok Hr Hrq Hne)
        as (m' & o' & a' & He & Hok' & Hr' & _ & Hfr).
      exists env, m'. mstep He.
      split; [done|]. split; [done|]. split; [|lia].
      eapply env_ok_mutated; [exact Henv| |exact Hr'| |exact Hfr]; lia.
Qed.

Lemma run_partial D ops :
  ∀ env m k env' m',
    mem_ok m → env_ok m env k → run D env ops m = Ok env' m' →
    mem_ok m' ∧ ∃ k', env_ok m' env' k'.
Proof.
  induction ops as [|o ops IH]; intros env m k env' m' Hok Henv Hrun.
  - injection Hrun as <- <-. split; [done|by exists k].
  - simpl in Hrun.
    destruct (step_cases D env o m k Hok Henv)
      as [(env1 & m1 & Hs & Hok1 & Henv1 & _)|[(Hs & _)|[Hs _]]].
    + rewrite (bind_ok _ _ _ _ _ Hs) in Hrun. by eapply IH.
    + by rewrite (bind_fault _ _ _ _ Hs) in Hrun.
    + by rewrite (bind_fault _ _ _ _ Hs) in Hrun.
Qed.

Lemma run_total D ops :
  ∀ env m k,
    mem_ok m → env_ok m env k → well_scoped (length env) ops →
    k + count_adds ops ≤ MAX_GROWABLE + 1 →
    ∃ env' m', run D env ops m = Ok env' m'.
Proof.
  induction ops as [|o ops IH]; intros env m k Hok Henv Hws Hmax.
  - by exists env, m.
  - destruct Hws as [Hsc Hws]. simpl in Hmax.
    assert (0 ≤ count_adds ops).
    { clear. induction ops as [|o' ops' IH']; simpl; [lia|].
      destruct o'; simpl; lia. }
    assert (0 ≤ adds o) by (destruct o; simpl; lia).
    destruct (step_cases D env o m k Hok Henv)
      as [(env1 & m1 & Hs & Hok1 & Henv1 & Hlen)|[(_ & Hk & Ha)|[_ Hn]]];
      [|lia|done].
    rewrite <- Hlen in Hws.
    destruct (IH env1 m1 (k + adds o) Hok1 Henv1 Hws ltac:(lia))
      as (env' & m' & Hrun).
    exists env', m'. simpl. by mstep Hs.
Qed.

Lemma env_ok_set_inv m env k :
  mem_ok m → env_ok m env k → Forall (set_inv m) env.
Proof.
  intros Hok Henv. eapply Forall_impl; [exact Henv|].
  intros p [[o Ho] _]. destruct (ok_rep m p o Hok Ho) as (a & Hr & Hnd & _).
  exists o. split; [done|]. split; [by eapply rep_used_le|].
  split; [apply Hr|done].
Qed.

(** ** A program that adds until the growth request overflows *)

Lemma run_app D ops1 :
  ∀ ops2 env m env1 m1,
    run D env ops1 m = Ok env1 m1 →
    run D env (ops1 ++ ops2) m = run D env1 ops2 m1.
Proof.
  induction ops1 as [|o ops1 IH]; intros ops2 env m env1 m1 Hrun.
  - by injection Hrun as <- <-.
  - cbn [run app] in *. unfold mbind, M_bind in *.
    destruct (step D env o m) as [env' m'|]; [|done]. by apply IH.
Qed.

Lemma run_count_up D s :
  ∀ k j m o a,
    mem_ok m → rep m s o a (Z.of_nat <$> seq 0 j) →
    Z.of_nat (j + k) ≤ capacity o →
    ∃ m' o' a',
      run D [s] ((λ i, Add 0 (Z.of_nat i)) <$> seq j k) m = Ok [s] m'
      ∧ mem_ok m' ∧ rep m' s o' a' (Z.of_nat <$> seq 0 (j + k))
      ∧ capacity o' = capacity o.
Proof.
  induction k as [|k IH]; intros j m o a Hok Hr Hcap.
  - exists m, o, a. by rewrite Nat.add_0_r.
  - pose proof (rep_used _ _ _ _ _ Hr) as Hu.
    rewrite length_fmap, length_seq in Hu.
    destruct (add_absent D m s o a _ (Z.of_nat j) Hok Hr)
      as (m1 & o1 & a1 & Hadd & Hok1 & Hr1 & _ & Hc1 & _).
    { intros H. apply list_elem_of_fmap in H as (i & Hi & Hin).
      apply elem_of_seq in Hin. lia. }
    { left. lia. }
    unfold capacity_after_add in Hc1.
    destruct (decide (used o < capacity o)); [|lia].
    replace ((Z.of_nat <$> seq 0 j) ++ [Z.of_nat j])
      with (Z.of_nat <$> seq 0 (S j)) in Hr1
      by (by rewrite seq_S, fmap_app).
    destruct (IH (S j) m1 o1 a1 Hok1 Hr1 ltac:(lia))
      as (m' & o' & a' & Hrun & Hok' & Hr' & Hc').
    exists m', o', a'.
    replace (j + S k)%nat with (S j + k)%nat by lia.
    split; [|split; [done|split; [done|congruence]]].
    assert (Hvar : var [s] 0 m = Ok s m) by done.
    assert (Hstep : step D [s] (Add 0 (Z.of_nat j)) m = Ok [s] m1).
    { cbn [step]. mstep Hvar. by mstep Hadd. }
    cbn [seq fmap list_fmap run]. by mstep Hstep.
Qed.

Lemma adds_scoped k x :
  ∀ j, well_scoped 1 (((λ i, Add 0 (Z.of_nat i)) <$> seq j k) ++ [Add 0 x]).
Proof.
  induction k as [|k IH]; intros j.
  - simpl. repeat split; lia.
  - cbn [seq fmap list_fmap app well_scoped]. split; [simpl; lia|]. apply IH.
Qed.

Lemma count_up_scoped k x : well_scoped 1 (count_up k ++ [Add 0 x]).
Proof. apply adds_scoped. Qed.

Lemma long_program_faults D :
  program D 1431655765 long_ops empty_mem = Fault IntOverflow.
Proof.
  assert (Hc : 1 ≤ initial D 1431655765 ≤ INT_MAX) by (by vm_compute).
  destruct (IntSet_new_spec D 1431655765 empty_mem empty_mem_ok Hc)
    as (s & m0 & o0 & a0 & Hnew & _ & Hok0 & Hr0 & Hc0 & _).
  assert (Hcap0 : capacity o0 = 1431655765) by (by rewrite Hc0).
  destruct (run_count_up D s big_count 0 m0 o0 a0 Hok0 Hr0)
    as (m1 & o1 & a1 & Hrun & Hok1 & Hr1 & Hc1).
  { rewrite Nat.add_0_l, big_count_Z. lia. }
  rewrite Nat.add_0_l in Hr1. fold big_values in Hr1.
  pose proof (rep_used _ _ _ _ _ Hr1) as Hu1.
  rewrite big_values_length, big_count_Z in Hu1.
  assert (Hadd : add D s (-1) m1 = Fault IntOverflow).
  { apply add_overflow with o1 a1 big_values;
      [done|apply big_values_fresh|lia|].
    rewrite Hc1, Hcap0. by vm_compute. }
  unfold program, long_ops, count_up. mstep Hnew.
  rewrite (run_app D _ _ _ _ _ _ Hrun).
  assert (Hvar : var [s] 0 m1 = Ok s m1) by done.
  assert (Hstep : step D [s] (Add 0 (-1)) m1 = Fault IntOverflow).
  { cbn [step]. mstep Hvar. by apply bind_fault. }
  cbn [run]. by apply bind_fault.
Qed.

(** ** The capacity chosen by resize *)

Lemma resize_capacity_positive D u n :
  0 < n → resize_capacity D u n = Z.max u n.
Proof.
  intros H. unfold resize_capacity.
  destruct (decide (n ≤ 0)); [lia|]. destruct (decide (n < u)); lia.
Qed.

Lemma resize_capacity_nonpositive D u n :
  n ≤ 0 → resize_capacity D u n = D.
Proof. intros H. unfold resize_capacity. by destruct (decide (n ≤ 0)). Qed.

Lemma eleven_mem_ok : mem_ok eleven_mem.
Proof. apply mem_check_ok. apply (bool_decide_unpack _). vm_compute. exact I. Qed.

Lemma resize_positive_request D m p o a l n :
  rep m p o a l → 0 < n →
  resize D p n m = Ok () (resized m p o l (Z.max (used o) n)).
Proof.
  intros Hr Hn. pose proof (resize_spec D m p o a l n Hr) as H.
  rewrite resize_capacity_positive in H by done. apply H. lia.
Qed.

Lemma resize_empty_nonpositive D m p o a n :
  rep m p o a [] → n ≤ 0 → 0 ≤ D →
  resize D p n m = Ok () (resized m p o [] D).
Proof.
  intros Hr Hn HD. pose proof (resize_spec D m p o a [] n Hr) as H.
  rewrite resize_capacity_nonpositive in H by done. apply H.
  pose proof (rep_used _ _ _ _ _ Hr) as Hu. simpl in Hu. lia.
Qed.

(** ** Runs on concrete values *)

(** A program of the kind the invariant is stated for. *)
Example program_runs :
  ∃ m', program 10 1 [Add 0 5; Add 0 3; Copy 0; Remove 0 5; Assign 1 0; Reset 0]
          empty_mem = Ok [1%positive; 2%positive] m'
        ∧ elements m' 1 = [] ∧ elements m' 2 = [3].
Proof. eexists. vm_compute. by repeat split. Qed.

(** [IntSet s; s.add(5); s.add(3); s.add(9); s.remove(3); s.add(3);] *)
Example rejoin_at_the_end :
  ∃ s m',
    (s ← IntSet_new 10 0;
     add 10 s 5;; add 10 s 3;; add 10 s 9;; remove s 3;; add 10 s 3;;
     mret s) empty_mem = Ok s m'
    ∧ size s m' = Ok 3 m'
    ∧ DumpData s "" m' = Ok "5  9  3" m'.
Proof. eexists _, _. vm_compute. by repeat split. Qed.

(** [IntSet s(1);] and four adds: the array grows from 1 to 2, 4 cells. *)
Example growth_keeps_members :
  ∃ s m',
    (s ← IntSet_new 10 1;
     add 10 s 8;; add 10 s (-2);; add 10 s 0;; add 10 s 6;;
     mret s) empty_mem = Ok s m'
    ∧ size s m' = Ok 4 m'
    ∧ capacity <$> objects m' !! s = Some 4
    ∧ DumpData s "" m' = Ok "8  -2  0  6" m'.
Proof. eexists _, _. vm_compute. by repeat split. Qed.

(** * The claims *)

(** C1: with [DEFAULT_CAPACITY = 10], [resize(0)] on a set of 11 members
    settles on the capacity 10, not on the count 11, and the copy of the
    members into the new array of 10 cells writes outside it; on a set of 2
    members it settles on 10, not on 2.  With [DEFAULT_CAPACITY = 1] the
    set of 2 members gets the capacity 1 and the copy writes outside the
    array.  A request that is not positive is answered with
    [DEFAULT_CAPACITY] whatever the count is. *)
Theorem resize_nonpositive_request_ignores_count :
  mem_ok eleven_mem
  ∧ elements eleven_mem 1 = [0; 1; 2; 3; 4; 5; 6; 7; 8; 9; 10]
  ∧ resize_capacity 10 11 0 = 10
  ∧ resize 10 1 0 eleven_mem = Fault OutOfBounds
  ∧ mem_ok sample_mem
  ∧ elements sample_mem 1 = [5; 3]
  ∧ (∃ m', resize 10 1 0 sample_mem = Ok () m'
           ∧ capacity <$> objects m' !! 1%positive = Some 10
           ∧ elements m' 1 = [5; 3])
  ∧ resize_capacity 1 2 (-3) = 1
  ∧ resize 1 1 (-3) sample_mem = Fault OutOfBounds.
Proof.
  split; [apply eleven_mem_ok|].
  split; [by vm_compute|]. split; [by vm_compute|]. split; [by vm_compute|].
  split; [apply sample_mem_ok|]. split; [by vm_compute|].
  split; [|split; by vm_compute].
  eexists. split; [by vm_compute|]. split; by vm_compute.
Qed.

(** C2 (as amended): a program that constructs a set and then performs a
    sequence of add, remove, reset, copy construction and assignment on
    declared sets, with at most 1431655765 calls of add, runs to its end,
    and in the state it reaches every set has [0 <= used <= capacity] and
    pairwise distinct values in the cells below [used].  Whatever the
    number of calls, a state that is reached satisfies the same. *)
Theorem invariant_preserved D c ops :
  1 ≤ initial D c ≤ INT_MAX →
  (well_scoped 1 ops → count_adds ops ≤ MAX_GROWABLE + 1 →
   ∃ env m', program D c ops empty_mem = Ok env m'
             ∧ mem_ok m' ∧ Forall (set_inv m') env)
  ∧ (∀ env m', program D c ops empty_mem = Ok env m' →
               mem_ok m' ∧ Forall (set_inv m') env).
Proof.
  intros Hc.
  destruct (IntSet_new_spec D c empty_mem empty_mem_ok Hc)
    as (s & m0 & o0 & a0 & Hnew & _ & Hok0 & Hr0 & _).
  assert (Henv : env_ok m0 [s] 0).
  { apply Forall_singleton. rewrite (rep_elements _ _ _ _ _ Hr0).
    split; [|done]. exists o0. apply Hr0. }
  assert (Hpart : ∀ env m', run D [s] ops m0 = Ok env m' →
                            mem_ok m' ∧ Forall (set_inv m') env).
  { intros env m' Hrun.
    destruct (run_partial D ops [s] m0 0 env m' Hok0 Henv Hrun)
      as [Hok' [k' Henv']].
    split; [done|]. by apply env_ok_set_inv with k'. }
  unfold program. mstep Hnew. split; [|done].
  intros Hws Hmax.
  destruct (run_total D ops [s] m0 0 Hok0 Henv Hws ltac:(lia))
    as (env & m' & Hrun).
  exists env, m'. split; [done|]. by apply Hpart.
Qed.

Lemma invariant_preserved_witness :
  ∃ env m',
    program 10 1 [Add 0 5; Add 0 3; Copy 0; Remove 0 5; Assign 1 0; Reset 0]
      empty_mem = Ok env m'
    ∧ mem_ok m' ∧ Forall (set_inv m') env.
Proof.
  destruct (invariant_preserved 10 1
              [Add 0 5; Add 0 3; Copy 0; Remove 0 5; Assign 1 0; Reset 0])
    as [Hrun _]; [by vm_compute|].
  apply Hrun; [simpl; repeat split; lia|by vm_compute].
Defined.

(** C2, the claim as stated, for the program that constructs a set of
    capacity 1431655765, adds the values 0 to 1431655764 and then -1: the
    last [add] finds the array full and its growth request overflows [int];
    the program reaches no state. *)
Lemma long_program_reaches_no_state :
  1 ≤ initial 10 1431655765 ≤ INT_MAX
  ∧ well_scoped 1 long_ops
  ∧ program 10 1431655765 long_ops empty_mem = Fault IntOverflow
  ∧ ¬ (∃ env m', program 10 1431655765 long_ops empty_mem = Ok env m'
                 ∧ Forall (set_inv m') env).
Proof.
  split; [by vm_compute|]. split; [apply count_up_scoped|].
  split; [apply long_program_faults|].
  intros (env & m' & H & _). by rewrite long_program_faults in H.
Qed.

(** C3: for two sets that satisfy the invariant, [A == B] returns true
    exactly when [A.isSubsetOf(B)] and [B.isSubsetOf(A)] both return true,
    and that is exactly when the two sets have the same members, whatever
    their order and their capacities.  None of the three calls changes the
    memory. *)
Theorem equal_iff_mutual_subset m A B :
  mem_ok m → is_Some (objects m !! A) → is_Some (objects m !! B) →
  ∃ e s1 s2,
    equal A B m = Ok e m
    ∧ isSubsetOf A B m = Ok s1 m ∧ isSubsetOf B A m = Ok s2 m
    ∧ (e = true ↔ s1 = true ∧ s2 = true)
    ∧ (e = true ↔ ∀ x, x ∈ elements m A ↔ x ∈ elements m B).
Proof.
  intros Hok [oA HoA] [oB HoB].
  destruct (ok_rep m A oA Hok HoA) as (aA & HA & HndA & _).
  destruct (ok_rep m B oB Hok HoB) as (aB & HB & HndB & _).
  set (lA := elements m A) in *. set (lB := elements m B) in *.
  exists (bool_decide (length lA = length lB)
          && bool_decide (Forall (λ x, x ∈ lB) lA)
          && bool_decide (Forall (λ x, x ∈ lA) lB)),
         (bool_decide (Forall (λ x, x ∈ lB) lA)),
         (bool_decide (Forall (λ x, x ∈ lA) lB)).
  split; [by apply equal_spec with oA aA oB aB|].
  split; [by apply isSubsetOf_spec with oA aA oB aB|].
  split; [by apply isSubsetOf_spec with oB aB oA aA|].
  rewrite !andb_true_iff, !bool_decide_eq_true.
  assert (Hset : Forall (λ x, x ∈ lB) lA ∧ Forall (λ x, x ∈ lA) lB
                 ↔ ∀ x, x ∈ lA ↔ x ∈ lB).
  { rewrite !Forall_forall. split.
    - intros [H1 H2] x. split; auto.
    - intros H. split; intros x Hx; by apply H. }
  assert (Hlen : Forall (λ x, x ∈ lB) lA ∧ Forall (λ x, x ∈ lA) lB
                 → length lA = length lB).
  { intros [H1 H2]. by apply same_members_length. }
  split.
  - split; [by intros [[_ H1] H2]|]. intros H. split; [split|]; tauto.
  - rewrite <- Hset. split; [by intros [[_ H1] H2]|].
    intros H. split; [split|]; tauto.
Qed.

Lemma equal_iff_mutual_subset_witness :
  ∃ e s1 s2,
    equal 1 2 sample_mem2 = Ok e sample_mem2
    ∧ isSubsetOf 1 2 sample_mem2 = Ok s1 sample_mem2
    ∧ isSubsetOf 2 1 sample_mem2 = Ok s2 sample_mem2
    ∧ (e = true ↔ s1 = true ∧ s2 = true)
    ∧ (e = true ↔ ∀ x, x ∈ elements sample_mem2 1 ↔ x ∈ elements sample_mem2 2).
Proof.
  apply (equal_iff_mutual_subset sample_mem2 1 2 sample_mem2_ok);
    by eexists.
Defined.

(** C4: on an empty set, [add(a)], [add(b)], [remove(a)], [add(a)] with [a]
    and [b] distinct leave the dump [b  a]: the value taken out and put back
    is now last.  This holds for any empty set of a memory and for a set
    just constructed with any capacity.  In any set, taking a member out
    and putting it back moves it behind the members that stayed, whose
    order is kept; [remove] keeps the order of the members that stay, and
    [add] puts the new member at the end. *)
Theorem readd_moves_to_end D m a b :
  mem_ok m → a ≠ b →
  (∀ p, is_Some (objects m !! p) → elements m p = [] →
     ∃ m', readd_scenario D p a b m = Ok (pretty b +:+ "  " +:+ pretty a) m'
           ∧ elements m' p = [b; a])
  ∧ (∀ c, 1 ≤ initial D c ≤ INT_MAX →
       ∃ s m', readd_fresh D c a b m
               = Ok (s, pretty b +:+ "  " +:+ pretty a) m'
               ∧ elements m' s = [b; a])
  ∧ (∀ p x, is_Some (objects m !! p) → x ∈ elements m p →
       ∃ m1 m2, remove p x m = Ok true m1 ∧ add D p x m1 = Ok true m2
                ∧ elements m2 p = filter (λ y, y ≠ x) (elements m p) ++ [x])
  ∧ (∀ p x, is_Some (objects m !! p) →
       ∃ r m', remove p x m = Ok r m'
               ∧ elements m' p = filter (λ y, y ≠ x) (elements m p))
  ∧ (∀ p x r m', is_Some (objects m !! p) → add D p x m = Ok r m' →
       elements m' p = if r then elements m p ++ [x] else elements m p).
Proof.
  intros Hok Hab. split; [|split; [|split; [|split]]].
  - intros p Hp He.
    destruct (readd_scenario_spec D m p a b Hok Hp He Hab) as (m' & H & _ & He').
    by exists m'.
  - intros c Hc. by apply readd_fresh_spec.
  - intros p x Hp Hx.
    destruct (remove_then_add D m p x Hok Hp Hx) as (m1 & m2 & H1 & H2 & _ & He).
    by exists m1, m2.
  - intros p x Hp.
    destruct (remove_elements m p x Hok Hp) as (m' & H & _ & He & _).
    by eexists _, m'.
  - intros p x r m' Hp Hadd.
    by destruct (add_elements D m p x r m' Hok Hp Hadd) as (_ & He & _).
Qed.

Lemma readd_moves_to_end_witness :
  (∃ s m', readd_fresh 10 0 7 (-4) sample_mem = Ok (s, "-4  7") m'
           ∧ elements m' s = [-4; 7])
  ∧ (∃ m1 m2, remove 1 5 sample_mem = Ok true m1 ∧ add 10 1 5 m1 = Ok true m2
              ∧ elements m2 1 = [3; 5])
  ∧ (∃ r m', remove 1 5 sample_mem = Ok r m' ∧ elements m' 1 = [3]).
Proof.
  destruct (readd_moves_to_end 10 sample_mem 7 (-4) sample_mem_ok)
    as (_ & Hfresh & Hreadd & Hrem & _); [lia|].
  split; [apply (Hfresh 0); by vm_compute|].
  split; [apply (Hreadd 1%positive 5); [by eexists|]|
          apply (Hrem 1%positive 5); by eexists].
  vm_compute. apply list_elem_of_here.
Defined.

(** C5 (as amended): when the count of a set equals its capacity and that
    capacity is at most 1431655764, adding a value that is not in the set
    first asks [resize] for [floor(1.5 * capacity) + 1] cells, which is more
    than the capacity; [resize] gives the set exactly that capacity, and it
    is the capacity after the [add].  Above 1431655764 the request is not
    an [int]; for any capacity, an [add] that returns has left that
    capacity. *)
Theorem add_full_grows D m p o x :
  mem_ok m → objects m !! p = Some o → used o = capacity o →
  x ∉ elements m p →
  let request := 3 * capacity o / 2 + 1 in
  capacity o < request
  ∧ (capacity o ≤ MAX_GROWABLE →
     grow_request (capacity o) m = Ok request m
     ∧ (∃ mr, resize D p request m = Ok () mr
              ∧ capacity <$> objects mr !! p = Some request
              ∧ elements mr p = elements m p)
     ∧ (∃ m', add D p x m = Ok true m'
              ∧ capacity <$> objects m' !! p = Some request))
  ∧ (∀ r m', add D p x m = Ok r m' →
             r = true ∧ capacity <$> objects m' !! p = Some request).
Proof.
  intros Hok Ho Hfull Hx request.
  destruct (ok_rep m p o Hok Ho) as (a & Hr & _ & Hrange).
  assert (Hc0 : 0 ≤ capacity o) by lia.
  pose proof (grown_gt _ Hc0) as Hgt.
  assert (Hreq : request = grown (capacity o))
    by (unfold request; by rewrite grown_floor).
  assert (Hafter : capacity_after_add o = grown (capacity o)).
  { unfold capacity_after_add. destruct (decide (used o < capacity o)); [lia|done]. }
  rewrite Hreq. split; [done|]. split.
  - intros Hmax. pose proof (grown_le _ Hc0 Hmax) as Hg.
    split; [by apply grow_request_ok|]. split.
    + exists (resized m p o (elements m p) (grown (capacity o))).
      pose proof (resize_capacity_grown D (capacity o) (used o) Hc0 ltac:(lia))
        as Hrc.
      split; [rewrite (resize_spec D m p o a _ _ Hr); rewrite Hrc; [done|lia]|].
      pose proof (resized_rep m p o a _ (grown (capacity o)) Hr ltac:(lia)) as Hr'.
      split; [by rewrite (rep_obj _ _ _ _ _ Hr')|by apply rep_elements in Hr'].
    + destruct (add_absent D m p o a _ x Hok Hr Hx (or_intror Hg))
        as (m' & o' & a' & Hadd & _ & Hr' & _ & Hcap & _).
      exists m'. split; [done|]. rewrite (rep_obj _ _ _ _ _ Hr'). simpl.
      by rewrite Hcap, Hafter.
  - intros r m' Hadd.
    destruct (add_returned D m p o a _ x r m' Hok Hr Hx Hadd)
      as (-> & _ & o' & a' & Hr' & Hcap).
    split; [done|]. rewrite (rep_obj _ _ _ _ _ Hr'). simpl.
    by rewrite Hcap, Hafter.
Qed.

Lemma add_full_grows_witness :
  2 < 4
  ∧ grow_request 2 sample_mem = Ok 4 sample_mem
  ∧ (∃ mr, resize 10 1 4 sample_mem = Ok () mr
           ∧ capacity <$> objects mr !! 1%positive = Some 4
           ∧ elements mr 1 = elements sample_mem 1)
  ∧ (∃ m', add 10 1 9 sample_mem = Ok true m'
           ∧ capacity <$> objects m' !! 1%positive = Some 4).
Proof.
  destruct (add_full_grows 10 sample_mem 1 (mkIntSet 1 2 2) 9 sample_mem_ok)
    as (Hlt & Htotal & _); [done|done| |].
  { vm_compute. intros H. apply elem_of_cons in H as [H|H]; [lia|].
    apply list_elem_of_singleton in H. lia. }
  split; [done|]. apply Htotal. by vm_compute.
Defined.

(** C5, the claim as stated, at a full set of 1431655765 members: the
    request [floor(1.5 * 1431655765) + 1 = 2147483648] is not an [int];
    [add] ends in an overflow and no capacity results. *)
Lemma add_full_at_1431655765_overflows :
  mem_ok big_mem
  ∧ (∃ o, objects big_mem !! 1%positive = Some o ∧ used o = capacity o
          ∧ capacity o = 1431655765)
  ∧ (-1 ∉ elements big_mem 1)
  ∧ add 10 1 (-1) big_mem = Fault IntOverflow
  ∧ ¬ (∃ m', add 10 1 (-1) big_mem = Ok true m'
             ∧ capacity <$> objects m' !! 1%positive
               = Some (3 * 1431655765 / 2 + 1)).
Proof.
  split; [apply big_mem_ok|]. split.
  { eexists. split; [apply big_rep|done]. }
  split; [rewrite big_elements; apply big_values_fresh|].
  split; [apply big_add_faults|].
  intros (m' & H & _). by rewrite big_add_faults in H.
Qed.

(** C6 (as amended): for two sets whose counts sum to at most 1431655765,
    [A.unionWith(B)] and [B.unionWith(A)] both return, and [==] on the two
    results returns true.  For sets of any size, when the two calls return,
    [==] on their results returns true.  [A] and [B] may be the same
    object. *)
Theorem unionWith_commutes D m A B :
  mem_ok m → is_Some (objects m !! A) → is_Some (objects m !! B) →
  (Z.of_nat (length (elements m A) + length (elements m B)) ≤ MAX_GROWABLE + 1 →
   ∃ r1 m1 r2 m2,
     unionWith D A B m = Ok r1 m1 ∧ unionWith D B A m1 = Ok r2 m2
     ∧ equal r1 r2 m2 = Ok true m2)
  ∧ (∀ r1 m1 r2 m2,
       unionWith D A B m = Ok r1 m1 → unionWith D B A m1 = Ok r2 m2 →
       equal r1 r2 m2 = Ok true m2).
Proof.
  intros Hok [oA HoA] [oB HoB].
  destruct (ok_rep m A oA Hok HoA) as (aA & HA & _).
  destruct (ok_rep m B oB Hok HoB) as (aB & HB & _).
  set (lA := elements m A) in *. set (lB := elements m B) in *.
  assert (Hret : ∀ r1 m1 r2 m2,
            unionWith D A B m = Ok r1 m1 → unionWith D B A m1 = Ok r2 m2 →
            equal r1 r2 m2 = Ok true m2).
  { intros r1 m1 r2 m2 Hu1 Hu2.
    destruct (unionWith_returned D A B m _ _ _ _ _ _ r1 m1 Hok HA HB Hu1)
      as (_ & Hok1 & (o1 & a1 & Hr1) & Hfr1).
    assert (HA1 : rep m1 A oA aA lA) by (by apply (unchanged_rep m m1)).
    assert (HB1 : rep m1 B oB aB lB) by (by apply (unchanged_rep m m1)).
    destruct (unionWith_returned D B A m1 _ _ _ _ _ _ r2 m2 Hok1 HB1 HA1 Hu2)
      as (_ & Hok2 & (o2 & a2 & Hr2) & Hfr2).
    assert (Hr12 : rep m2 r1 o1 a1 (union_list lA lB))
      by (by apply (unchanged_rep m1 m2)).
    rewrite (equal_spec _ _ _ _ _ _ _ _ _ Hr12 Hr2). f_equal.
    assert (H12 : Forall (λ x, x ∈ union_list lB lA) (union_list lA lB)).
    { apply Forall_forall. intros x. rewrite !union_list_elem. tauto. }
    assert (H21 : Forall (λ x, x ∈ union_list lA lB) (union_list lB lA)).
    { apply Forall_forall. intros x. rewrite !union_list_elem. tauto. }
    destruct (ok_objs _ Hok2 _ _ (rep_obj _ _ _ _ _ Hr12))
      as (? & ? & H1 & Hn1 & _).
    destruct (rep_inj _ _ _ _ _ _ _ _ Hr12 H1) as (_ & -> & ->).
    destruct (ok_objs _ Hok2 _ _ (rep_obj _ _ _ _ _ Hr2))
      as (? & ? & H2 & Hn2 & _).
    destruct (rep_inj _ _ _ _ _ _ _ _ Hr2 H2) as (_ & -> & ->).
    rewrite !andb_true_iff, !bool_decide_eq_true.
    split; [split|]; try done. by apply same_members_length. }
  split; [|done]. intros Hmax.
  destruct (unionWith_spec D A B m _ _ _ _ _ _ Hok HA HB Hmax)
    as (r1 & m1 & o1 & a1 & Hu1 & _ & Hok1 & Hr1 & Hfr1).
  assert (HA1 : rep m1 A oA aA lA) by (by apply (unchanged_rep m m1)).
  assert (HB1 : rep m1 B oB aB lB) by (by apply (unchanged_rep m m1)).
  destruct (unionWith_spec D B A m1 _ _ _ _ _ _ Hok1 HB1 HA1 ltac:(lia))
    as (r2 & m2 & o2 & a2 & Hu2 & _).
  exists r1, m1, r2, m2. do 2 (split; [done|]). by apply Hret with m1.
Qed.

Lemma unionWith_commutes_witness :
  ∃ r1 m1 r2 m2,
    unionWith 10 1 2 sample_mem2 = Ok r1 m1
    ∧ unionWith 10 2 1 m1 = Ok r2 m2
    ∧ equal r1 r2 m2 = Ok true m2.
Proof.
  destruct (unionWith_commutes 10 sample_mem2 1 2 sample_mem2_ok)
    as [Htotal _]; [by eexists|by eexists|].
  apply Htotal. by vm_compute.
Defined.

(** C6, the claim as stated, for [A] a full set of 1431655765 members and
    [B] the set holding -1: [A.unionWith(B)] copies [A] and has to grow the
    copy; the request overflows [int], so the comparison is never made. *)
Lemma unionWith_at_int_limit_faults :
  mem_ok big_mem
  ∧ is_Some (objects big_mem !! 1%positive)
  ∧ is_Some (objects big_mem !! 2%positive)
  ∧ (r1 ← unionWith 10 1 2; r2 ← unionWith 10 2 1; equal r1 r2) big_mem
    = Fault IntOverflow
  ∧ ¬ (∃ r1 m1 r2 m2,
         unionWith 10 1 2 big_mem = Ok r1 m1 ∧ unionWith 10 2 1 m1 = Ok r2 m2
         ∧ equal r1 r2 m2 = Ok true m2).
Proof.
  split; [apply big_mem_ok|].
  split; [eexists; apply big_rep|]. split; [eexists; apply small_rep|].
  split; [apply bind_fault, big_union_faults|].
  intros (r1 & m1 & r2 & m2 & H & _). by rewrite big_union_faults in H.
Qed.

(** C7 (as amended): [intersect] and [subtract], and [unionWith] when the
    counts of the two sets sum to at most 1431655765, return a set that is a
    new object with an array of its own, and leave the invoking set and the
    argument as they were: same fields (so same count), same array, same
    members in the same order.  For sets of any size, a [unionWith] that
    returns has done so. *)
Theorem set_algebra_frame D m A B :
  mem_ok m → is_Some (objects m !! A) → is_Some (objects m !! B) →
  (∃ r m', intersect A B m = Ok r m' ∧ new_and_framed m A B r m')
  ∧ (∃ r m', subtract A B m = Ok r m' ∧ new_and_framed m A B r m')
  ∧ (Z.of_nat (length (elements m A) + length (elements m B)) ≤ MAX_GROWABLE + 1 →
     ∃ r m', unionWith D A B m = Ok r m' ∧ new_and_framed m A B r m')
  ∧ (∀ r m', unionWith D A B m = Ok r m' → new_and_framed m A B r m').
Proof.
  intros Hok HsA HsB. pose proof HsA as [oA HoA]. pose proof HsB as [oB HoB].
  destruct (ok_rep m A oA Hok HoA) as (aA & HA & _).
  destruct (ok_rep m B oB Hok HoB) as (aB & HB & _).
  split; [|split; [|split]].
  - destruct (intersect_spec A B m _ _ _ _ _ _ Hok HA HB)
      as (r & m' & o' & a' & Hop & Hr & Hok' & Hr' & Hfr).
    exists r, m'. split; [done|]. by eapply new_and_framed_intro.
  - destruct (subtract_spec A B m _ _ _ _ _ _ Hok HA HB)
      as (r & m' & o' & a' & Hop & Hr & Hok' & Hr' & Hfr).
    exists r, m'. split; [done|]. by eapply new_and_framed_intro.
  - intros Hmax.
    destruct (unionWith_spec D A B m _ _ _ _ _ _ Hok HA HB Hmax)
      as (r & m' & o' & a' & Hop & Hr & Hok' & Hr' & Hfr).
    exists r, m'. split; [done|]. by eapply new_and_framed_intro.
  - intros r m' Hop.
    destruct (unionWith_returned D A B m _ _ _ _ _ _ r m' Hok HA HB Hop)
      as (Hr & Hok' & (o' & a' & Hr') & Hfr).
    by eapply new_and_framed_intro.
Qed.

Lemma set_algebra_frame_witness :
  (∃ r m', intersect 1 2 sample_mem2 = Ok r m'
           ∧ new_and_framed sample_mem2 1 2 r m')
  ∧ (∃ r m', subtract 1 2 sample_mem2 = Ok r m'
             ∧ new_and_framed sample_mem2 1 2 r m')
  ∧ (∃ r m', unionWith 10 1 2 sample_mem2 = Ok r m'
             ∧ new_and_framed sample_mem2 1 2 r m').
Proof.
  destruct (set_algebra_frame 10 sample_mem2 1 2 sample_mem2_ok)
    as (Hi & Hs & Hu & _); [by eexists|by eexists|].
  split; [done|]. split; [done|]. apply Hu. by vm_compute.
Defined.

(** C7, the claim as stated, for [A] a full set of 1431655765 members and
    [B] the set holding -1: [A.unionWith(B)] returns no instance. *)
Lemma unionWith_returns_nothing_at_int_limit :
  mem_ok big_mem
  ∧ is_Some (objects big_mem !! 1%positive)
  ∧ is_Some (objects big_mem !! 2%positive)
  ∧ ¬ (∃ r m', unionWith 10 1 2 big_mem = Ok r m'
               ∧ new_and_framed big_mem 1 2 r m').
Proof.
  split; [apply big_mem_ok|].
  split; [eexists; apply big_rep|]. split; [eexists; apply small_rep|].
  intros (r & m' & H & _). by rewrite big_union_faults in H.
Qed.

(** C8: [add(x)] of a value already in the set returns false and leaves
    everything as it was (the memory after the call is the memory before
    it, so count, members and their order are the same); [remove(x)] of a
    value not in the set does likewise.  Both calls complete: neither ends
    in a fault. *)
Theorem add_present_remove_absent_noop D m p x :
  mem_ok m → is_Some (objects m !! p) →
  (x ∈ elements m p → add D p x m = Ok false m)
  ∧ (x ∉ elements m p → remove p x m = Ok false m).
Proof.
  intros Hok [o Ho]. destruct (ok_rep m p o Hok Ho) as (a & Hr & _).
  split; intros Hx.
  - by apply add_present with o a (elements m p).
  - by apply remove_absent with o a (elements m p).
Qed.

Lemma add_present_remove_absent_noop_witness :
  add 10 1 5 sample_mem = Ok false sample_mem
  ∧ remove 1 7 sample_mem = Ok false sample_mem.
Proof.
  destruct (add_present_remove_absent_noop 10 sample_mem 1 5 sample_mem_ok)
    as [Hadd _]; [by eexists|].
  destruct (add_present_remove_absent_noop 10 sample_mem 1 7 sample_mem_ok)
    as [_ Hrem]; [by eexists|].
  split.
  - apply Hadd. vm_compute. apply list_elem_of_here.
  - apply Hrem. vm_compute. intros H.
    apply elem_of_cons in H as [H|H]; [lia|].
    apply list_elem_of_singleton in H. lia.
Defined.

(** C9 (as amended): in a state that satisfies the invariant (so that
    [used <= capacity] and [capacity >= 1]) and whose capacity, when the
    array is full, is at most 1431655764, an [add] of a value not in the set
    completes without a fault; the capacity after it is greater than the
    count before it, and the cell at that count, inside the array, holds the
    new value.  For any capacity, an [add] that returns has done so. *)
Theorem add_in_bounds D m p o x :
  mem_ok m → objects m !! p = Some o → x ∉ elements m p →
  (used o < capacity o ∨ capacity o ≤ MAX_GROWABLE →
   ∃ m', add D p x m = Ok true m' ∧ stored_in_bounds m' p (used o) x)
  ∧ (∀ r m', add D p x m = Ok r m' →
             r = true ∧ stored_in_bounds m' p (used o) x).
Proof.
  intros Hok Ho Hx.
  destruct (ok_rep m p o Hok Ho) as (a & Hr & _ & Hrange).
  pose proof (rep_used_le _ _ _ _ _ Hr) as Hu.
  pose proof (rep_used _ _ _ _ _ Hr) as Hlen.
  assert (Hstored : ∀ m' o' a',
            rep m' p o' a' (elements m p ++ [x]) →
            stored_in_bounds m' p (used o) x).
  { intros m' o' a' Hr'. pose proof (rep_used_le _ _ _ _ _ Hr') as Hle'.
    pose proof (rep_used _ _ _ _ _ Hr') as Hlen'.
    rewrite length_app in Hlen'. simpl in Hlen'.
    exists o', a'. split; [apply Hr'|]. split; [apply Hr'|].
    split; [apply Hr'|]. split; [lia|].
    apply cells_lookup with (elements m p ++ [x]); [apply Hr'|].
    replace (Z.to_nat (used o)) with (length (elements m p)) by lia.
    by apply list_lookup_middle. }
  split.
  - intros Hcase.
    assert (Hcond : used o < capacity o ∨ grown (capacity o) ≤ INT_MAX).
    { destruct Hcase; [by left|right]. apply grown_le; lia. }
    destruct (add_absent D m p o a _ x Hok Hr Hx Hcond)
      as (m' & o' & a' & Hadd & _ & Hr' & _).
    exists m'. split; [done|]. by apply (Hstored m' o' a').
  - intros r m' Hadd.
    destruct (add_returned D m p o a _ x r m' Hok Hr Hx Hadd)
      as (-> & _ & o' & a' & Hr' & _).
    split; [done|]. by apply (Hstored m' o' a').
Qed.

Lemma add_in_bounds_witness :
  ∃ m', add 10 1 9 sample_mem = Ok true m' ∧ stored_in_bounds m' 1 2 9.
Proof.
  destruct (add_in_bounds 10 sample_mem 1 (mkIntSet 1 2 2) 9 sample_mem_ok)
    as [Htotal _]; [done| |].
  { vm_compute. intros H. apply elem_of_cons in H as [H|H]; [lia|].
    apply list_elem_of_singleton in H. lia. }
  apply Htotal. right. by vm_compute.
Defined.

(** C9, the claim as stated, at a state with [used = capacity = 1431655765]
    (so [used <= capacity] and [capacity >= 1]): [add] of a new value does
    not complete; the growth request overflows [int], so there is no
    capacity greater than the count for the write to rely on. *)
Lemma add_at_int_limit_faults :
  mem_ok big_mem
  ∧ (∃ o, objects big_mem !! 1%positive = Some o
          ∧ used o ≤ capacity o ∧ 1 ≤ capacity o)
  ∧ (-1 ∉ elements big_mem 1)
  ∧ ¬ (∃ r m', add 10 1 (-1) big_mem = Ok r m').
Proof.
  split; [apply big_mem_ok|]. split.
  { eexists. split; [apply big_rep|]. cbn [used capacity]. lia. }
  split; [rewrite big_elements; apply big_values_fresh|].
  intros (r & m' & H). by rewrite big_add_faults in H.
Qed.

(** C10: [contains(x)] returns true exactly when [x] is in the set; when it
    is, the scan of positions [0, used) that follows in [remove] finds [x]
    and returns true, so the [return false] behind the scan is not reached;
    [remove(x)] returns true exactly when [x] was in the set. *)
Theorem remove_scan_finds m p o x :
  mem_ok m → objects m !! p = Some o →
  contains p x m = Ok (bool_decide (x ∈ elements m p)) m
  ∧ (x ∈ elements m p →
     ∃ m', remove_loop p x 0 (Z.to_nat (used o)) m = Ok true m')
  ∧ ∃ m', remove p x m = Ok (bool_decide (x ∈ elements m p)) m'.
Proof.
  intros Hok Ho. destruct (ok_rep m p o Hok Ho) as (a & Hr & _).
  pose proof (contains_spec _ _ _ _ _ x Hr) as Hc.
  destruct (remove_spec m p o a _ x Hok Hr) as (m' & o' & a' & Hrem & _).
  split; [done|]. split; [|by exists m'].
  intros Hx. exists m'. unfold remove in Hrem.
  rewrite (bind_ok _ _ _ _ _ Hc) in Hrem.
  rewrite (bool_decide_eq_true_2 _ Hx) in Hrem.
  by rewrite (bind_ok _ _ _ _ _ (get_obj_ok _ _ _ Ho)) in Hrem.
Qed.

Lemma remove_scan_finds_witness :
  contains 1 3 sample_mem = Ok true sample_mem
  ∧ (∃ m', remove_loop 1 3 0 (Z.to_nat 2) sample_mem = Ok true m')
  ∧ ∃ m', remove 1 3 sample_mem = Ok true m'.
Proof.
  destruct (remove_scan_finds sample_mem 1 (mkIntSet 1 2 2) 3 sample_mem_ok eq_refl)
    as (Hc & Hscan & Hrem).
  assert (Hx : 3 ∈ elements sample_mem 1).
  { vm_compute. apply list_elem_of_further, list_elem_of_here. }
  rewrite (bool_decide_eq_true_2 _ Hx) in Hc, Hrem.
  split; [done|]. split; [by apply Hscan|done].
Defined.

(** * Further properties of the operations *)

(** ** Lists *)

Lemma filter_ext_in {A} (P Q : A → Prop) `{∀ x, Decision (P x)}
    `{∀ x, Decision (Q x)} (l : list A) :
  (∀ x, x ∈ l → P x ↔ Q x) → filter P l = filter Q l.
Proof.
  induction l as [|y l IH]; intros Hpq; [done|].
  assert (Hy : P y ↔ Q y) by (apply Hpq, list_elem_of_here).
  assert (Hl : filter P l = filter Q l).
  { apply IH. intros x Hx. by apply Hpq, list_elem_of_further. }
  destruct (decide (P y)) as [Hp|Hp].
  - rewrite !filter_cons_True by tauto. by rewrite Hl.
  - rewrite !filter_cons_False by tauto. done.
Qed.

Lemma filter_id_in {A} (P : A → Prop) `{∀ x, Decision (P x)} (l : list A) :
  (∀ x, x ∈ l → P x) → filter P l = l.
Proof.
  induction l as [|y l IH]; intros Hp; [done|].
  rewrite filter_cons_True by apply Hp, list_elem_of_here.
  rewrite IH; [done|]. intros x Hx. by apply Hp, list_elem_of_further.
Qed.

Lemma filter_none_in {A} (P : A → Prop) `{∀ x, Decision (P x)} (l : list A) :
  (∀ x, x ∈ l → ¬ P x) → filter P l = [].
Proof.
  induction l as [|y l IH]; intros Hp; [done|].
  rewrite filter_cons_False by apply Hp, list_elem_of_here.
  apply IH. intros x Hx. by apply Hp, list_elem_of_further.
Qed.

Lemma intersect_list_filter (l2 l : list Z) :
  ∀ li, intersect_list l2 li l = filter (λ y, y ∈ l → y ∈ l2) li.
Proof.
  unfold intersect_list. induction l as [|v l IH]; intros li; simpl.
  - symmetry. apply filter_id_in. intros x _ Hx. by apply not_elem_of_nil in Hx.
  - rewrite IH. destruct (decide (v ∈ l2)) as [Hv|Hv].
    + apply list_filter_iff. intros x. rewrite elem_of_cons.
      split; [|tauto]. intros Hx [->|Hxl]; [done|tauto].
    + rewrite list_filter_filter. apply list_filter_iff. intros x.
      rewrite elem_of_cons. split.
      * intros [Hx Hne] [->|Hxl]; [done|tauto].
      * intros Hx. split; [tauto|]. intros ->. tauto.
Qed.

Lemma intersect_list_self (l2 l : list Z) :
  intersect_list l2 l l = filter (λ y, y ∈ l2) l.
Proof.
  rewrite intersect_list_filter. apply filter_ext_in. tauto.
Qed.

Lemma subtract_list_filter (l : list Z) :
  ∀ ls, subtract_list ls l = filter (λ y, y ∉ l) ls.
Proof.
  unfold subtract_list. induction l as [|v l IH]; intros ls; simpl.
  - symmetry. apply filter_id_in. intros x _. apply not_elem_of_nil.
  - rewrite IH, list_filter_filter. apply list_filter_iff. intros x.
    rewrite not_elem_of_cons. tauto.
Qed.

Lemma union_list_filter (l : list Z) :
  NoDup l → ∀ lu, union_list lu l = lu ++ filter (λ y, y ∉ lu) l.
Proof.
  unfold union_list. induction l as [|v l IH]; intros Hnd lu; simpl.
  - by rewrite app_nil_r.
  - apply NoDup_cons in Hnd as [Hv Hnd]. rewrite IH by done.
    destruct (decide (v ∈ lu)) as [Hin|Hin].
    + by rewrite filter_cons_False by tauto.
    + rewrite filter_cons_True by done. rewrite <- app_assoc. simpl.
      do 2 f_equal. apply filter_ext_in. intros x Hx.
      rewrite not_elem_of_app, list_elem_of_singleton.
      split; [tauto|]. intros Hxu. split; [done|]. by intros ->.
Qed.

Lemma filter_partition_length {A} (P : A → Prop) `{∀ x, Decision (P x)}
    (l : list A) :
  (length (filter P l) + length (filter (λ x, ¬ P x) l) = length l)%nat.
Proof.
  induction l as [|y l IH]; [done|].
  destruct (decide (P y)) as [Hp|Hp].
  - rewrite filter_cons_True, (filter_cons_False (λ x, ¬ P x)) by tauto.
    simpl. lia.
  - rewrite filter_cons_False, (filter_cons_True (λ x, ¬ P x)) by tauto.
    simpl. lia.
Qed.

(** ** Text *)

Lemma string_app_assoc (s1 s2 s3 : string) :
  (s1 +:+ s2) +:+ s3 = s1 +:+ (s2 +:+ s3).
Proof.
  induction s1 as [|c s1 IH]; [done|].
  change (String c ((s1 +:+ s2) +:+ s3) = String c (s1 +:+ (s2 +:+ s3))).
  by rewrite IH.
Qed.

Lemma string_app_nil_r (s : string) : s +:+ "" = s.
Proof.
  induction s as [|c s IH]; [done|].
  change (String c (s +:+ "") = String c s). by rewrite IH.
Qed.

Lemma dump_tail (l : list Z) : ∀ acc,
  foldl (λ s w, s +:+ "  " +:+ pretty w) acc l
  = acc +:+ foldr (λ w t, "  " +:+ pretty w +:+ t) "" l.
Proof.
  induction l as [|v l IH]; intros acc; cbn [foldl foldr].
  - by rewrite string_app_nil_r.
  - rewrite IH. by rewrite !string_app_assoc.
Qed.

Lemma concat_tail (x : string) (l : list string) :
  String.concat "  " (x :: l) = x +:+ foldr (λ w t, "  " +:+ w +:+ t) "" l.
Proof.
  revert x. induction l as [|y l IH]; intros x.
  - simpl. by rewrite string_app_nil_r.
  - change (String.concat "  " (x :: y :: l))
      with (x +:+ "  " +:+ String.concat "  " (y :: l)).
    by rewrite IH.
Qed.

Lemma dump_text_concat out (l : list Z) :
  dump_text out l = out +:+ String.concat "  " (pretty <$> l).
Proof.
  destruct l as [|v l]; simpl dump_text.
  - simpl. by rewrite string_app_nil_r.
  - rewrite dump_tail, fmap_cons, concat_tail, string_app_assoc. do 2 f_equal.
    induction l as [|w l IH]; [done|]. rewrite fmap_cons. cbn [foldr].
    by rewrite IH.
Qed.

(** ** Empty sets *)

Lemma empty_observers m p o a :
  rep m p o a [] →
  size p m = Ok 0 m ∧ isEmpty p m = Ok true m
  ∧ (∀ x, contains p x m = Ok false m)
  ∧ (∀ out, DumpData p out m = Ok out m).
Proof.
  intros Hr. split; [exact (size_spec _ _ _ _ _ Hr)|].
  split; [exact (isEmpty_spec _ _ _ _ _ Hr)|]. split.
  - intros x. rewrite (contains_spec _ _ _ _ _ x Hr).
    by rewrite bool_decide_eq_false_2 by apply not_elem_of_nil.
  - intros out. exact (DumpData_spec _ _ _ _ _ out Hr).
Qed.

Lemma rep_capacity m p o a l :
  rep m p o a l → capacity <$> objects m !! p = Some (capacity o).
Proof. intros Hr. by rewrite (rep_obj _ _ _ _ _ Hr). Qed.

(** X1: [IntSet s(c)], when the capacity it settles on ([c] if [c > 0],
    [DEFAULT_CAPACITY] otherwise) is a positive [int], makes a new object
    with that capacity and no member: [size] returns 0, [isEmpty] true,
    [contains] false for every value, and [DumpData] writes nothing.  The
    sets that existed are as they were. *)
Theorem IntSet_new_is_empty D c m :
  mem_ok m → 1 ≤ initial D c ≤ INT_MAX →
  ∃ p m',
    IntSet_new D c m = Ok p m'
    ∧ objects m !! p = None ∧ mem_ok m'
    ∧ capacity <$> objects m' !! p = Some (if decide (c ≤ 0) then D else c)
    ∧ elements m' p = []
    ∧ size p m' = Ok 0 m' ∧ isEmpty p m' = Ok true m'
    ∧ (∀ x, contains p x m' = Ok false m')
    ∧ (∀ out, DumpData p out m' = Ok out m')
    ∧ (∀ q, unchanged m m' q).
Proof.
  intros Hok Hc.
  destruct (IntSet_new_spec D c m Hok Hc)
    as (p & m' & o' & a' & Hnew & Hp & Hok' & Hr' & Hcap & Hfr).
  destruct (empty_observers _ _ _ _ Hr') as (Hs & He & Hcn & Hd).
  exists p, m'. do 3 (split; [done|]).
  split; [by rewrite (rep_capacity _ _ _ _ _ Hr'), Hcap|].
  split; [by apply rep_elements with o' a'|]. by do 4 (split; [done|]).
Qed.

Lemma IntSet_new_is_empty_witness :
  ∃ p m',
    IntSet_new 10 0 sample_mem = Ok p m'
    ∧ objects sample_mem !! p = None ∧ mem_ok m'
    ∧ capacity <$> objects m' !! p = Some 10
    ∧ elements m' p = []
    ∧ size p m' = Ok 0 m' ∧ isEmpty p m' = Ok true m'
    ∧ (∀ x, contains p x m' = Ok false m')
    ∧ (∀ out, DumpData p out m' = Ok out m')
    ∧ (∀ q, unchanged sample_mem m' q).
Proof.
  apply (IntSet_new_is_empty 10 0 sample_mem sample_mem_ok). by vm_compute.
Defined.

(** ** Copies *)

Lemma remove_frame m p x :
  mem_ok m → is_Some (objects m !! p) →
  ∃ b m', remove p x m = Ok b m' ∧ mem_ok m' ∧ ∀ q, q ≠ p → unchanged m m' q.
Proof.
  intros Hok Hp.
  destruct (remove_elements m p x Hok Hp) as (m' & Hrem & Hok' & _ & Hfr).
  by eexists _, m'.
Qed.

(** X2: the copy constructor makes a new object with the members of the
    source in the same order and the same capacity, in an array of its own;
    [==] on the copy and the source returns true.  A later [add] or
    [remove] on either of the two leaves the members of the other as they
    were. *)
Theorem IntSet_copy_is_deep m src :
  mem_ok m → is_Some (objects m !! src) →
  ∃ p m',
    IntSet_copy src m = Ok p m'
    ∧ objects m !! p = None ∧ mem_ok m'
    ∧ elements m' p = elements m src
    ∧ capacity <$> objects m' !! p = capacity <$> objects m !! src
    ∧ data <$> objects m' !! p ≠ data <$> objects m' !! src
    ∧ equal p src m' = Ok true m'
    ∧ (∀ q, unchanged m m' q)
    ∧ (∀ D x b m'', add D p x m' = Ok b m'' →
                     elements m'' src = elements m src)
    ∧ (∀ D x b m'', add D src x m' = Ok b m'' →
                     elements m'' p = elements m src)
    ∧ (∀ x, ∃ b m'', remove p x m' = Ok b m''
                     ∧ elements m'' src = elements m src)
    ∧ (∀ x, ∃ b m'', remove src x m' = Ok b m''
                     ∧ elements m'' p = elements m src).
Proof.
  intros Hok Hs. pose proof Hs as [s Hos].
  destruct (ok_rep m src s Hok Hos) as (a & Hr & Hnd & _).
  set (l := elements m src) in *.
  destruct (IntSet_copy_spec src m s a l Hok Hr)
    as (p & m' & o' & a' & Hcp & Hp & Hok' & Hr' & Hcap & Hfr).
  assert (Hne : p ≠ src) by (intros ->; congruence).
  assert (Hrs : rep m' src s a l) by (by apply (unchanged_rep m m')).
  assert (Hsp : is_Some (objects m' !! p)) by (eexists; apply Hr').
  assert (Hss : is_Some (objects m' !! src)) by (eexists; apply Hrs).
  assert (Hep : elements m' p = l) by (by apply rep_elements with o' a').
  assert (Hes : elements m' src = l) by (by apply rep_elements with s a).
  exists p, m'. do 3 (split; [done|]). split; [done|].
  split; [by rewrite (rep_capacity _ _ _ _ _ Hr'), Hos, Hcap|].
  split.
  { rewrite (rep_obj _ _ _ _ _ Hr'), (rep_obj _ _ _ _ _ Hrs). simpl.
    intros [= Hd]. apply Hne.
    by apply (ok_sep _ Hok' p src o' s); [apply Hr'|apply Hrs|]. }
  split.
  { rewrite (equal_spec _ _ _ _ _ _ _ _ _ Hr' Hrs). f_equal.
    rewrite !andb_true_iff, !bool_decide_eq_true.
    split; [split; [done|]|]; by apply Forall_forall. }
  split; [done|].
  split.
  { intros D x b m'' Hadd.
    destruct (add_elements D m' p x b m'' Hok' Hsp Hadd) as (_ & _ & Hfr').
    rewrite (unchanged_elements m' m'' src); [done|by apply Hfr'|done]. }
  split.
  { intros D x b m'' Hadd.
    destruct (add_elements D m' src x b m'' Hok' Hss Hadd) as (_ & _ & Hfr').
    rewrite (unchanged_elements m' m'' p); [done|by apply Hfr'|done]. }
  split.
  - intros x. destruct (remove_frame m' p x Hok' Hsp) as (b & m'' & Hrem & _ & Hfr').
    exists b, m''. split; [done|].
    rewrite (unchanged_elements m' m'' src); [done|by apply Hfr'|done].
  - intros x. destruct (remove_frame m' src x Hok' Hss) as (b & m'' & Hrem & _ & Hfr').
    exists b, m''. split; [done|].
    rewrite (unchanged_elements m' m'' p); [done|by apply Hfr'|done].
Qed.

Lemma IntSet_copy_is_deep_witness :
  ∃ p m',
    IntSet_copy 1 sample_mem = Ok p m'
    ∧ objects sample_mem !! p = None ∧ mem_ok m'
    ∧ elements m' p = elements sample_mem 1
    ∧ capacity <$> objects m' !! p = capacity <$> objects sample_mem !! 1%positive
    ∧ data <$> objects m' !! p ≠ data <$> objects m' !! 1%positive
    ∧ equal p 1 m' = Ok true m'
    ∧ (∀ q, unchanged sample_mem m' q)
    ∧ (∀ D x b m'', add D p x m' = Ok b m'' →
                     elements m'' 1 = elements sample_mem 1)
    ∧ (∀ D x b m'', add D 1 x m' = Ok b m'' →
                     elements m'' p = elements sample_mem 1)
    ∧ (∀ x, ∃ b m'', remove p x m' = Ok b m''
                     ∧ elements m'' 1 = elements sample_mem 1)
    ∧ (∀ x, ∃ b m'', remove 1 x m' = Ok b m''
                     ∧ elements m'' p = elements sample_mem 1).
Proof.
  apply (IntSet_copy_is_deep sample_mem 1 sample_mem_ok). by eexists.
Defined.

(** ** What a call on one object touches *)

Lemma footprint_in_place m m' p o o' :
  objects m !! p = Some o → objects m' = <[p := o']> (objects m) →
  data o' = data o → is_Some (arrays m' !! data o) →
  (∀ d, d ≠ data o → arrays m' !! d = arrays m !! d) →
  footprint m m' p.
Proof.
  intros Ho Hob Hd Ha Hfr. exists o'. rewrite Hd.
  split; [done|]. split; [done|]. split; [|split].
  - intros Hne. by destruct (Hne o Ho).
  - intros o0 Ho0 Hne. congruence.
  - intros d Hd' _. by apply Hfr.
Qed.

Lemma footprint_refl m p o :
  objects m !! p = Some o → is_Some (arrays m !! data o) → footprint m m p.
Proof.
  intros Ho Ha. apply footprint_in_place with o o; try done.
  by rewrite insert_id.
Qed.

Lemma footprint_moved m p o a' c u :
  objects m !! p = Some o → is_Some (arrays m !! data o) →
  footprint m
    (mkMem (delete (data o) (<[fresh (dom (arrays m)) := a']> (arrays m)))
           (<[p := mkIntSet (fresh (dom (arrays m))) c u]> (objects m))) p.
Proof.
  intros Ho Ha. set (d := fresh (dom (arrays m))).
  assert (Hd : arrays m !! d = None) by apply fresh_array.
  assert (Hne : data o ≠ d) by (intros He; rewrite He, Hd in Ha; by destruct Ha).
  exists (mkIntSet d c u). simpl. split; [done|]. split; [|split; [|split]].
  - rewrite lookup_delete_ne by done. rewrite lookup_insert_eq. by eexists.
  - done.
  - intros o0 Ho0 _. assert (o0 = o) as -> by congruence.
    apply lookup_delete_eq.
  - intros d' Hd' Hno. rewrite lookup_delete_ne by (intros He; by apply (Hno o)).
    by rewrite lookup_insert_ne.
Qed.

Lemma footprint_new m a' c u :
  footprint m
    (mkMem (<[fresh (dom (arrays m)) := a']> (arrays m))
           (<[fresh (dom (objects m)) := mkIntSet (fresh (dom (arrays m))) c u]>
              (objects m)))
    (fresh (dom (objects m))).
Proof.
  exists (mkIntSet (fresh (dom (arrays m))) c u). simpl.
  split; [done|]. split; [|split; [|split]].
  - rewrite lookup_insert_eq. by eexists.
  - intros _. apply fresh_array.
  - intros o Ho. by rewrite fresh_object in Ho.
  - intros d Hd _. by rewrite lookup_insert_ne.
Qed.

Lemma footprint_trans m1 m2 m3 p :
  footprint m1 m2 p → footprint m2 m3 p → footprint m1 m3 p.
Proof.
  intros (o2 & Hob2 & Hs2 & Hf2 & Hr2 & Hfr2) (o3 & Hob3 & Hs3 & Hf3 & Hr3 & Hfr3).
  assert (Ho2 : objects m2 !! p = Some o2) by (rewrite Hob2; apply lookup_insert_eq).
  exists o3. split; [by rewrite Hob3, Hob2, insert_insert_eq|].
  split; [done|]. split; [|split].
  - intros Hne. destruct (decide (data o2 = data o3)) as [He|He].
    + rewrite <- He. apply Hf2. intros o Ho. rewrite He. by apply Hne.
    + rewrite <- Hfr2.
      * apply Hf3. intros o Ho. by assert (o = o2) as -> by congruence.
      * congruence.
      * intros o Ho He'. by apply (Hne o).
  - intros o Ho Hne. destruct (decide (data o = data o2)) as [He|He].
    + rewrite He. apply (Hr3 o2 Ho2). congruence.
    + rewrite Hfr3; [by apply (Hr2 o)|done|].
      intros o0 Ho0. by assert (o0 = o2) as -> by congruence.
  - intros d Hd Hno. destruct (decide (d = data o2)) as [->|He].
    + rewrite (Hr3 o2 Ho2) by done. symmetry. apply Hf2.
      intros o Ho He. by apply (Hno o).
    + rewrite Hfr3; [by apply Hfr2|done|].
      intros o0 Ho0. by assert (o0 = o2) as -> by congruence.
Qed.

Lemma footprint_no_leak m m' p :
  no_leak m → footprint m m' p → no_leak m'.
Proof.
  intros Hnl (o' & Hob & Hs & Hf & Hr & Hfr) d Hd.
  destruct (decide (d = data o')) as [->|Hne].
  { exists p, o'. split; [|done]. rewrite Hob. apply lookup_insert_eq. }
  destruct (objects m !! p) as [o|] eqn:Ho.
  - destruct (decide (d = data o)) as [->|Hno].
    { rewrite (Hr o) in Hd by done. by destruct Hd. }
    rewrite Hfr in Hd; [|done|by intros o0 [= <-]].
    destruct (Hnl d Hd) as (q & oq & Hoq & Hdq). exists q, oq. split; [|done].
    rewrite Hob, lookup_insert_ne; [done|]. intros ->. congruence.
  - rewrite Hfr in Hd; [|done|done].
    destruct (Hnl d Hd) as (q & oq & Hoq & Hdq). exists q, oq. split; [|done].
    rewrite Hob, lookup_insert_ne; [done|]. intros ->. congruence.
Qed.

Lemma sample_mem_no_leak : no_leak sample_mem.
Proof.
  intros d [a Ha]. unfold sample_mem in Ha. cbn [arrays] in Ha.
  apply lookup_singleton_Some in Ha as [<- _].
  by exists 1%positive, (mkIntSet 1 2 2).
Qed.

Lemma sample_mem2_no_leak : no_leak sample_mem2.
Proof.
  intros d [a Ha]. unfold sample_mem2 in Ha. cbn [arrays] in Ha.
  apply lookup_insert_Some in Ha as [[<- _]|[_ Ha]].
  - by exists 1%positive, (mkIntSet 1 2 2).
  - apply lookup_singleton_Some in Ha as [<- _].
    by exists 2%positive, (mkIntSet 2 4 2).
Qed.

(** ** The memory each call leaves *)

Lemma rep_array_some m p o a l : rep m p o a l → is_Some (arrays m !! data o).
Proof. intros Hr. exists a. apply Hr. Qed.

Lemma IntSet_new_memory D c m :
  0 ≤ initial D c →
  IntSet_new D c m
  = Ok (fresh (dom (objects m)))
       (mkMem (<[fresh (dom (arrays m))
                 := replicate (Z.to_nat (initial D c)) None]> (arrays m))
              (<[fresh (dom (objects m))
                 := mkIntSet (fresh (dom (arrays m))) (initial D c) 0]>
                 (objects m))).
Proof.
  intros Hc. unfold IntSet_new. fold (initial D c).
  by mstep (new_array_ok m (initial D c) Hc).
Qed.

Lemma IntSet_copy_memory src m s a l :
  mem_ok m → rep m src s a l →
  IntSet_copy src m
  = Ok (fresh (dom (objects m)))
       (mkMem (<[fresh (dom (arrays m))
                 := (Some <$> l)
                    ++ replicate (Z.to_nat (capacity s) - length l) None]>
                 (arrays m))
              (<[fresh (dom (objects m))
                 := mkIntSet (fresh (dom (arrays m))) (capacity s) (used s)]>
                 (objects m))).
Proof.
  intros Hok Hr. pose proof Hr as [Ho Ha Hcap Hu Hc].
  destruct (ok_objs _ Hok _ _ Ho) as (a0 & l0 & Hr0 & Hnd & Hrange).
  destruct (rep_inj _ _ _ _ _ _ _ _ Hr Hr0) as (_ & -> & ->).
  pose proof (cells_length _ _ Hc) as Hlen.
  unfold IntSet_copy.
  mstep (get_obj_ok _ _ _ Ho).
  mstep (new_array_ok m (capacity s) ltac:(lia)).
  set (d := fresh (dom (arrays m))).
  set (b := replicate (Z.to_nat (capacity s)) (None : cell)).
  set (m1 := mkMem (<[d := b]> (arrays m)) (objects m)).
  assert (Hne : data s ≠ d) by (by eapply owned_not_fresh).
  assert (Ha1 : arrays m1 !! data s = Some a) by (simpl; by rewrite lookup_insert_ne).
  assert (Hb1 : arrays m1 !! d = Some b) by apply lookup_insert_eq.
  assert (Hlb : (length l ≤ length b)%nat)
    by (unfold b; rewrite length_replicate; lia).
  replace (Z.to_nat (used s)) with (length l) by lia.
  rewrite (bind_ok (copy_loop (data s) d 0 (length l)) _ _ _ _
             (copy_loop_spec _ _ _ _ _ 0%nat _ _ Ha1 Hb1 Hne Hc eq_refl Hlb)).
  simpl. rewrite insert_insert_eq, drop_0.
  unfold b at 1. by rewrite drop_replicate.
Qed.

Lemma assign_memory this rhs m o a l r ar lr :
  mem_ok m → rep m this o a l → rep m rhs r ar lr → this ≠ rhs →
  assign this rhs m
  = Ok () (mkMem (delete (data o)
                    (<[fresh (dom (arrays m))
                       := (Some <$> lr)
                          ++ replicate (Z.to_nat (capacity r) - length lr) None]>
                       (arrays m)))
                 (<[this := mkIntSet (fresh (dom (arrays m))) (capacity r) (used r)]>
                    (objects m))).
Proof.
  intros Hok Ht Hr Hne. pose proof Hr as [Hor Har Hcapr Hur Hcr].
  pose proof Ht as [Ho Ha _ _ _].
  destruct (ok_objs _ Hok _ _ Hor) as (a0 & l0 & Hr0 & Hnd & Hrange).
  destruct (rep_inj _ _ _ _ _ _ _ _ Hr Hr0) as (_ & -> & ->).
  pose proof (cells_length _ _ Hcr) as Hlen.
  unfold assign. destruct (decide (this = rhs)); [done|].
  mstep (get_obj_ok _ _ _ Hor).
  mstep (new_array_ok m (capacity r) ltac:(lia)).
  set (d := fresh (dom (arrays m))).
  set (b := replicate (Z.to_nat (capacity r)) (None : cell)).
  set (m1 := mkMem (<[d := b]> (arrays m)) (objects m)).
  assert (Hner : data r ≠ d) by (by eapply owned_not_fresh).
  assert (Hneo : data o ≠ d) by (by eapply owned_not_fresh).
  assert (Ha1 : arrays m1 !! data r = Some ar) by (simpl; by rewrite lookup_insert_ne).
  assert (Hb1 : arrays m1 !! d = Some b) by apply lookup_insert_eq.
  assert (Hlb : (length lr ≤ length b)%nat)
    by (unfold b; rewrite length_replicate; lia).
  replace (Z.to_nat (used r)) with (length lr) by lia.
  rewrite (bind_ok (copy_loop (data r) d 0 (length lr)) _ _ _ _
             (copy_loop_spec _ _ _ _ _ 0%nat _ _ Ha1 Hb1 Hner Hcr eq_refl Hlb)).
  simpl. rewrite insert_insert_eq, drop_0.
  unfold b at 1. rewrite drop_replicate.
  set (a' := (Some <$> lr) ++ replicate (Z.to_nat (capacity r) - length lr) None).
  set (m2 := mkMem (<[d := a']> (arrays m)) (objects m)).
  assert (Ho2 : objects m2 !! this = Some o) by done.
  mstep (get_obj_ok _ _ _ Ho2).
  assert (Ha2 : arrays m2 !! data o = Some a) by (simpl; by rewrite lookup_insert_ne).
  mstep (delete_array_ok _ _ _ Ha2). simpl.
  set (m3 := mkMem (delete (data o) (<[d := a']> (arrays m))) (objects m)).
  assert (Ho3 : objects m3 !! this = Some o) by done.
  mstep (set_data_ok m3 this o d Ho3). simpl.
  set (m4 := mkMem _ (<[this := mkIntSet d (capacity o) (used o)]> (objects m))).
  assert (Hr4 : objects m4 !! rhs = Some r) by (simpl; by rewrite lookup_insert_ne).
  mstep (get_obj_ok _ _ _ Hr4).
  assert (Ho4 : objects m4 !! this = Some (mkIntSet d (capacity o) (used o)))
    by apply lookup_insert_eq.
  mstep (set_capacity_ok m4 this _ (capacity r) Ho4). simpl.
  rewrite insert_insert_eq.
  set (m5 := mkMem _ (<[this := mkIntSet d (capacity r) (used o)]> (objects m))).
  assert (Ho5 : objects m5 !! this = Some (mkIntSet d (capacity r) (used o)))
    by apply lookup_insert_eq.
  rewrite (set_used_ok m5 this _ (used r) Ho5). simpl.
  by rewrite insert_insert_eq.
Qed.

Lemma remove_memory m p o a l x :
  mem_ok m → rep m p o a l → x ∈ l →
  ∃ a', remove p x m
        = Ok true (mkMem (<[data o := a']> (arrays m))
                         (<[p := mkIntSet (data o) (capacity o) (used o - 1)]>
                            (objects m)))
        ∧ length a' = length a.
Proof.
  intros Hok Hr Hx. pose proof Hr as [Ho Ha Hcap Hu Hc].
  destruct (ok_objs _ Hok _ _ Ho) as (a0 & l0 & Hr0 & Hnd & Hrange).
  destruct (rep_inj _ _ _ _ _ _ _ _ Hr Hr0) as (_ & -> & ->).
  destruct (list_elem_of_split_l _ _ Hx) as (l1 & l2 & Hl & Hx1).
  destruct (remove_loop_found m p o a l l1 x l2 Hr Hl Hx1 ltac:(lia)
              (length l) 0%nat ltac:(lia) eq_refl) as [c' Hloop].
  eexists. split.
  - unfold remove.
    mstep (contains_spec _ _ _ _ _ x Hr).
    rewrite (bool_decide_eq_true_2 _ Hx).
    mstep (get_obj_ok _ _ _ Ho).
    replace (Z.to_nat (used o)) with (length l) by lia. exact Hloop.
  - pose proof (cells_length _ _ Hc) as Hla.
    rewrite length_app, length_fmap, length_app. simpl.
    rewrite length_drop. rewrite Hl, length_app in Hla |- *. simpl in *. lia.
Qed.

(** ** The footprint of each call *)

Lemma add_footprint D m p x b m' :
  mem_ok m → is_Some (objects m !! p) → add D p x m = Ok b m' →
  footprint m m' p.
Proof.
  intros Hok [o Ho] Hadd.
  destruct (ok_rep m p o Hok Ho) as (a & Hr & _ & Hrange).
  pose proof (rep_array_some _ _ _ _ _ Hr) as Hsa.
  pose proof (rep_used_le _ _ _ _ _ Hr) as Hu.
  set (l := elements m p) in *.
  destruct (decide (x ∈ l)) as [Hx|Hx].
  { rewrite (add_present D m p o a l x Hr Hx) in Hadd. injection Hadd as <- <-.
    by apply footprint_refl with o. }
  destruct (decide (used o < capacity o)) as [Hlt|Hge].
  { rewrite (add_room D m p o a l x Hr Hx Hlt ltac:(lia)) in Hadd.
    injection Hadd as <- <-. eapply footprint_in_place; [exact Ho|done|done| |].
    - simpl. rewrite lookup_insert_eq. by eexists.
    - intros d Hd. simpl. by rewrite lookup_insert_ne. }
  assert (Hfull : used o = capacity o) by lia.
  destruct (decide (grown (capacity o) ≤ INT_MAX)) as [Hg|Hg].
  2:{ rewrite (add_overflow D m p o a l x Hr Hx Hfull ltac:(lia)) in Hadd. done. }
  rewrite (add_grow D m p o a l x Hr Hx Hfull Hg) in Hadd.
  injection Hadd as <- <-.
  eapply footprint_trans.
  - unfold resized. by apply footprint_moved.
  - eapply footprint_in_place; [| | | |].
    + simpl. apply lookup_insert_eq.
    + done.
    + done.
    + simpl. rewrite lookup_insert_eq. by eexists.
    + intros d Hd. simpl. simpl in Hd. by rewrite lookup_insert_ne.
Qed.

Lemma remove_footprint m p x b m' :
  mem_ok m → is_Some (objects m !! p) → remove p x m = Ok b m' →
  footprint m m' p.
Proof.
  intros Hok [o Ho] Hrem.
  destruct (ok_rep m p o Hok Ho) as (a & Hr & _ & Hrange).
  pose proof (rep_array_some _ _ _ _ _ Hr) as Hsa.
  set (l := elements m p) in *.
  destruct (decide (x ∈ l)) as [Hx|Hx].
  - destruct (remove_memory m p o a l x Hok Hr Hx) as (a' & Hrm & _).
    rewrite Hrm in Hrem. injection Hrem as <- <-.
    eapply footprint_in_place; [exact Ho|done|done| |].
    + simpl. rewrite lookup_insert_eq. by eexists.
    + intros d Hd. simpl. by rewrite lookup_insert_ne.
  - rewrite (remove_absent m p o a l x Hr Hx) in Hrem. injection Hrem as <- <-.
    by apply footprint_refl with o.
Qed.

Lemma reset_footprint m p m' :
  mem_ok m → is_Some (objects m !! p) → reset p m = Ok () m' →
  footprint m m' p.
Proof.
  intros Hok [o Ho] Hres.
  destruct (ok_rep m p o Hok Ho) as (a & Hr & _).
  pose proof (rep_array_some _ _ _ _ _ Hr) as Hsa.
  unfold reset in Hres. rewrite (set_used_ok m p o 0 Ho) in Hres.
  injection Hres as <-. by eapply footprint_in_place.
Qed.

Lemma assign_footprint this rhs m m' :
  mem_ok m → is_Some (objects m !! this) → is_Some (objects m !! rhs) →
  assign this rhs m = Ok () m' → footprint m m' this.
Proof.
  intros Hok [o Ho] [r Hor] Has.
  destruct (ok_rep m this o Hok Ho) as (a & Hr & _).
  destruct (ok_rep m rhs r Hok Hor) as (ar & Hrr & _).
  pose proof (rep_array_some _ _ _ _ _ Hr) as Hsa.
  destruct (decide (this = rhs)) as [->|Hne].
  - rewrite assign_self in Has. injection Has as <-. by apply footprint_refl with o.
  - rewrite (assign_memory this rhs m _ _ _ _ _ _ Hok Hr Hrr Hne) in Has.
    injection Has as <-. by apply footprint_moved.
Qed.

Lemma IntSet_copy_footprint src m p m' :
  mem_ok m → is_Some (objects m !! src) → IntSet_copy src m = Ok p m' →
  objects m !! p = None ∧ footprint m m' p.
Proof.
  intros Hok [s Hos] Hcp.
  destruct (ok_rep m src s Hok Hos) as (a & Hr & _).
  rewrite (IntSet_copy_memory src m s a _ Hok Hr) in Hcp.
  injection Hcp as <- <-. split; [apply fresh_object|apply footprint_new].
Qed.

Lemma IntSet_new_footprint D c m p m' :
  IntSet_new D c m = Ok p m' → objects m !! p = None ∧ footprint m m' p.
Proof.
  intros Hnew. destruct (decide (0 ≤ initial D c)) as [Hc|Hc].
  - rewrite (IntSet_new_memory D c m Hc) in Hnew. injection Hnew as <- <-.
    split; [apply fresh_object|apply footprint_new].
  - unfold IntSet_new in Hnew. fold (initial D c) in Hnew.
    unfold mbind, M_bind, new_array in Hnew.
    destruct (decide (initial D c < 0)); [done|lia].
Qed.

Lemma unionWith_loop_footprint D u other o2 a2 l2 :
  u ≠ other →
  ∀ n k m ou au lu m',
    mem_ok m → rep m u ou au lu → rep m other o2 a2 l2 →
    (k + n = length l2)%nat →
    unionWith_loop D u other (Z.of_nat k) n m = Ok () m' → footprint m m' u.
Proof.
  intros Hne. induction n as [|n IH]; intros k m ou au lu m' Hok Hu Ho Hk.
  - intros [= <-]. apply footprint_refl with ou; [apply Hu|by eapply rep_array_some].
  - pose proof Ho as [Ho2 Ha2 _ _ Hc2].
    destruct (lookup_lt_is_Some_2 l2 k) as [v Hv]; [lia|].
    pose proof (read_ok _ _ _ _ _ Ha2 (cells_lookup _ _ _ _ Hc2 Hv)) as Hread.
    simpl. mstep (get_obj_ok _ _ _ Ho2).
    mstep Hread.
    mstep (contains_spec _ _ _ _ _ v Hu).
    replace (Z.of_nat k + 1) with (Z.of_nat (S k)) by lia.
    destruct (add_cases D m u ou au lu v Hok Hu)
      as [[Hin _]|[(Hnin & m1 & o1 & a1 & Hadd & Hok1 & Hu1 & Hfr1 & _)
                  |(Hnin & Hfull & Hmax & Hadd)]].
    + rewrite (bool_decide_eq_true_2 _ Hin). simpl.
      rewrite (bind_ok (mret ()) _ m () m eq_refl).
      apply (IH (S k) m ou au lu m'); try done; lia.
    + rewrite (bool_decide_eq_false_2 _ Hnin). simpl.
      assert (Hstep : (w ← read (data o2) (Z.of_nat k);
                       _ ← add D u w; mret ()) m = Ok () m1).
      { mstep Hread. by mstep Hadd. }
      mstep Hstep. intros Hloop.
      assert (Ho1 : rep m1 other o2 a2 l2)
        by (apply (unchanged_rep m m1); [by apply Hfr1|done]).
      apply footprint_trans with m1.
      * apply (add_footprint D m u v true m1); [done| |done]. eexists; apply Hu.
      * apply (IH (S k) m1 o1 a1 (lu ++ [v]) m'); try done; lia.
    + rewrite (bool_decide_eq_false_2 _ Hnin). simpl.
      assert (Hstep : (w ← read (data o2) (Z.of_nat k);
                       _ ← add D u w; mret ()) m = Fault IntOverflow).
      { mstep Hread. by apply bind_fault. }
      by rewrite (bind_fault _ _ _ _ Hstep).
Qed.

Lemma intersect_loop_footprint this i other o1 a1 l1 o2 a2 l2 :
  i ≠ this → i ≠ other →
  ∀ n k m oi ai li m',
    mem_ok m → rep m i oi ai li → rep m this o1 a1 l1 → rep m other o2 a2 l2 →
    (k + n = length l1)%nat →
    intersect_loop this i other (Z.of_nat k) n m = Ok () m' → footprint m m' i.
Proof.
  intros Hnt Hno. induction n as [|n IH]; intros k m oi ai li m' Hok Hi Ht Ho Hk.
  - intros [= <-]. apply footprint_refl with oi; [apply Hi|by eapply rep_array_some].
  - pose proof Ht as [Ho1 Ha1 _ _ Hc1].
    destruct (lookup_lt_is_Some_2 l1 k) as [v Hv]; [lia|].
    pose proof (read_ok _ _ _ _ _ Ha1 (cells_lookup _ _ _ _ Hc1 Hv)) as Hread.
    simpl. mstep (get_obj_ok _ _ _ Ho1).
    mstep Hread.
    mstep (contains_spec _ _ _ _ _ v Ho).
    replace (Z.of_nat k + 1) with (Z.of_nat (S k)) by lia.
    destruct (decide (v ∈ l2)) as [Hin|Hnin].
    + rewrite (bool_decide_eq_true_2 _ Hin). simpl.
      rewrite (bind_ok (mret ()) _ m () m eq_refl).
      apply (IH (S k) m oi ai li); try done; lia.
    + rewrite (bool_decide_eq_false_2 _ Hnin). simpl.
      destruct (remove_spec m i oi ai li v Hok Hi)
        as (m1 & oi1 & ai1 & Hrem & Hok1 & Hi1 & Hfr1 & _).
      assert (Hstep : (w ← read (data o1) (Z.of_nat k);
                       _ ← remove i w; mret ()) m = Ok () m1).
      { mstep Hread. by mstep Hrem. }
      mstep Hstep. intros Hloop.
      apply footprint_trans with m1.
      * apply (remove_footprint m i v (bool_decide (v ∈ li)) m1 Hok); [|done].
        eexists; apply Hi.
      * apply (IH (S k) m1 oi1 ai1 (filter (λ y, y ≠ v) li) m'); try done.
        -- apply (unchanged_rep m m1); [by apply Hfr1|done].
        -- apply (unchanged_rep m m1); [by apply Hfr1|done].
        -- lia.
Qed.

Lemma subtract_loop_footprint s other o2 a2 l2 :
  s ≠ other →
  ∀ n k m os as_ ls m',
    mem_ok m → rep m s os as_ ls → rep m other o2 a2 l2 →
    (k + n = length l2)%nat →
    subtract_loop s other (Z.of_nat k) n m = Ok () m' → footprint m m' s.
Proof.
  intros Hne. induction n as [|n IH]; intros k m os as_ ls m' Hok Hs Ho Hk.
  - intros [= <-]. apply footprint_refl with os; [apply Hs|by eapply rep_array_some].
  - pose proof Ho as [Ho2 Ha2 _ _ Hc2].
    destruct (lookup_lt_is_Some_2 l2 k) as [v Hv]; [lia|].
    pose proof (read_ok _ _ _ _ _ Ha2 (cells_lookup _ _ _ _ Hc2 Hv)) as Hread.
    simpl. mstep (get_obj_ok _ _ _ Ho2).
    mstep Hread.
    mstep (contains_spec _ _ _ _ _ v Hs).
    replace (Z.of_nat k + 1) with (Z.of_nat (S k)) by lia.
    destruct (decide (v ∈ ls)) as [Hin|Hnin].
    + rewrite (bool_decide_eq_true_2 _ Hin).
      destruct (remove_spec m s os as_ ls v Hok Hs)
        as (m1 & os1 & as1 & Hrem & Hok1 & Hs1 & Hfr1 & _).
      assert (Hstep : (w ← read (data o2) (Z.of_nat k);
                       _ ← remove s w; mret ()) m = Ok () m1).
      { mstep Hread. by mstep Hrem. }
      mstep Hstep. intros Hloop.
      apply footprint_trans with m1.
      * apply (remove_footprint m s v (bool_decide (v ∈ ls)) m1 Hok); [|done].
        eexists; apply Hs.
      * apply (IH (S k) m1 os1 as1 (filter (λ y, y ≠ v) ls) m'); try done.
        -- apply (unchanged_rep m m1); [by apply Hfr1|done].
        -- lia.
    + rewrite (bool_decide_eq_false_2 _ Hnin).
      rewrite (bind_ok (mret ()) _ m () m eq_refl).
      apply (IH (S k) m os as_ ls); try done; lia.
Qed.

Lemma unionWith_footprint D A B m r m' :
  mem_ok m → is_Some (objects m !! A) → is_Some (objects m !! B) →
  unionWith D A B m = Ok r m' → objects m !! r = None ∧ footprint m m' r.
Proof.
  intros Hok [oA HoA] [oB HoB].
  destruct (ok_rep m A oA Hok HoA) as (aA & HA & _).
  destruct (ok_rep m B oB Hok HoB) as (aB & HB & _).
  destruct (IntSet_copy_spec A m oA aA _ Hok HA)
    as (r1 & m1 & o1 & a1 & Hcopy & Hr & Hok1 & Hr1 & _ & Hfr1).
  destruct (IntSet_copy_footprint A m r1 m1 Hok ltac:(by eexists) Hcopy)
    as [_ Hfp1].
  assert (HB1 : rep m1 B oB aB (elements m B)) by (by apply (unchanged_rep m m1)).
  assert (Hne : r1 ≠ B) by (intros ->; congruence).
  unfold unionWith. mstep Hcopy. mstep (size_spec _ _ _ _ _ HB1).
  rewrite Nat2Z.id.
  destruct (unionWith_loop D r1 B 0 (length (elements m B)) m1) as [[] m2|f] eqn:Hloop.
  - rewrite (bind_ok _ _ _ _ _ Hloop). intros [= <- <-]. split; [done|].
    apply footprint_trans with m1; [done|].
    by apply (unionWith_loop_footprint D r1 B oB aB (elements m B) Hne
                (length (elements m B)) 0%nat m1 o1 a1 (elements m A) m2).
  - by rewrite (bind_fault _ _ _ _ Hloop).
Qed.

Lemma intersect_footprint A B m r m' :
  mem_ok m → is_Some (objects m !! A) → is_Some (objects m !! B) →
  intersect A B m = Ok r m' → objects m !! r = None ∧ footprint m m' r.
Proof.
  intros Hok [oA HoA] [oB HoB].
  destruct (ok_rep m A oA Hok HoA) as (aA & HA & _).
  destruct (ok_rep m B oB Hok HoB) as (aB & HB & _).
  destruct (IntSet_copy_spec A m oA aA _ Hok HA)
    as (r1 & m1 & o1 & a1 & Hcopy & Hr & Hok1 & Hr1 & _ & Hfr1).
  destruct (IntSet_copy_footprint A m r1 m1 Hok ltac:(by eexists) Hcopy)
    as [_ Hfp1].
  assert (HA1 : rep m1 A oA aA (elements m A)) by (by apply (unchanged_rep m m1)).
  assert (HB1 : rep m1 B oB aB (elements m B)) by (by apply (unchanged_rep m m1)).
  assert (HnA : r1 ≠ A) by (intros ->; congruence).
  assert (HnB : r1 ≠ B) by (intros ->; congruence).
  unfold intersect. mstep Hcopy. mstep (size_spec _ _ _ _ _ HA1).
  rewrite Nat2Z.id.
  destruct (intersect_loop A r1 B 0 (length (elements m A)) m1)
    as [[] m2|f] eqn:Hloop.
  - rewrite (bind_ok _ _ _ _ _ Hloop). intros [= <- <-]. split; [done|].
    apply footprint_trans with m1; [done|].
    by apply (intersect_loop_footprint A r1 B oA aA (elements m A)
                oB aB (elements m B) HnA HnB
                (length (elements m A)) 0%nat m1 o1 a1 (elements m A) m2).
  - by rewrite (bind_fault _ _ _ _ Hloop).
Qed.

Lemma subtract_footprint A B m r m' :
  mem_ok m → is_Some (objects m !! A) → is_Some (objects m !! B) →
  subtract A B m = Ok r m' → objects m !! r = None ∧ footprint m m' r.
Proof.
  intros Hok [oA HoA] [oB HoB].
  destruct (ok_rep m A oA Hok HoA) as (aA & HA & _).
  destruct (ok_rep m B oB Hok HoB) as (aB & HB & _).
  destruct (IntSet_copy_spec A m oA aA _ Hok HA)
    as (r1 & m1 & o1 & a1 & Hcopy & Hr & Hok1 & Hr1 & _ & Hfr1).
  destruct (IntSet_copy_footprint A m r1 m1 Hok ltac:(by eexists) Hcopy)
    as [_ Hfp1].
  assert (HB1 : rep m1 B oB aB (elements m B)) by (by apply (unchanged_rep m m1)).
  assert (HnB : r1 ≠ B) by (intros ->; congruence).
  unfold subtract. mstep Hcopy. mstep (size_spec _ _ _ _ _ HB1).
  rewrite Nat2Z.id.
  destruct (subtract_loop r1 B 0 (length (elements m B)) m1)
    as [[] m2|f] eqn:Hloop.
  - rewrite (bind_ok _ _ _ _ _ Hloop). intros [= <- <-]. split; [done|].
    apply footprint_trans with m1; [done|].
    by apply (subtract_loop_footprint r1 B oB aB (elements m B) HnB
                (length (elements m B)) 0%nat m1 o1 a1 (elements m A) m2).
  - by rewrite (bind_fault _ _ _ _ Hloop).
Qed.

(** ** The destructor *)

Lemma IntSet_destroy_memory m p o :
  objects m !! p = Some o → is_Some (arrays m !! data o) →
  IntSet_destroy p m
  = Ok () (mkMem (delete (data o) (arrays m)) (delete p (objects m))).
Proof.
  intros Ho [a Ha]. unfold IntSet_destroy.
  mstep (get_obj_ok _ _ _ Ho).
  mstep (delete_array_ok _ _ _ Ha).
  unfold free_obj. simpl. by rewrite Ho.
Qed.

Lemma destroy_new m m' r :
  objects m !! r = None → footprint m m' r → IntSet_destroy r m' = Ok () m.
Proof.
  intros Hr (o' & Hob & Hs & Hf & _ & Hfr).
  assert (Ho' : objects m' !! r = Some o') by (rewrite Hob; apply lookup_insert_eq).
  rewrite (IntSet_destroy_memory m' r o' Ho' Hs). f_equal.
  destruct m as [ar ob]. simpl in *. f_equal.
  - apply map_eq. intros d. destruct (decide (d = data o')) as [->|Hd].
    + rewrite lookup_delete_eq. symmetry. apply Hf. intros o Ho. congruence.
    + rewrite lookup_delete_ne by done. apply Hfr; [done|].
      intros o Ho. congruence.
  - rewrite Hob. by apply delete_insert_id.
Qed.

(** X3: the destructor releases the array of the set; the object is gone
    and every other set is as it was, so the invariant still holds and, if
    no array was lost before, none is lost after.  A second destruction of
    the same object is the use of a pointer to nothing. *)
Theorem IntSet_destroy_releases m p o :
  mem_ok m → objects m !! p = Some o →
  ∃ m',
    IntSet_destroy p m = Ok () m'
    ∧ objects m' !! p = None ∧ arrays m' !! data o = None
    ∧ mem_ok m'
    ∧ (∀ q, q ≠ p → unchanged m m' q)
    ∧ (no_leak m → no_leak m')
    ∧ IntSet_destroy p m' = Fault InvalidPointer.
Proof.
  intros Hok Ho. destruct (ok_rep m p o Hok Ho) as (a & Hr & _).
  rewrite (IntSet_destroy_memory m p o Ho (rep_array_some _ _ _ _ _ Hr)).
  set (m' := mkMem _ _). exists m'. split; [done|].
  assert (Hp : objects m' !! p = None) by apply lookup_delete_eq.
  assert (Hfr : ∀ q, q ≠ p → unchanged m m' q).
  { intros q Hq oq Hoq. simpl. rewrite lookup_delete_ne by done.
    split; [done|]. apply lookup_delete_ne. intros He. apply Hq.
    by apply (ok_sep _ Hok q p oq o). }
  split; [done|]. split; [apply lookup_delete_eq|]. split; [|split; [done|split]].
  - split.
    + intros q oq Hoq. destruct (decide (q = p)) as [->|Hq]; [congruence|].
      simpl in Hoq. rewrite lookup_delete_ne in Hoq by done.
      destruct (ok_objs _ Hok _ _ Hoq) as (aq & lq & Hrq & Hnd & Hrange).
      exists aq, lq. split; [|done]. by apply (unchanged_rep m m'); [apply Hfr|].
    + intros q1 q2 o1 o2 H1 H2. simpl in H1, H2.
      destruct (decide (q1 = p)) as [->|Hq1]; [by rewrite lookup_delete_eq in H1|].
      destruct (decide (q2 = p)) as [->|Hq2]; [by rewrite lookup_delete_eq in H2|].
      rewrite lookup_delete_ne in H1, H2 by done. by apply (ok_sep _ Hok).
  - intros Hnl d Hd. simpl in Hd.
    destruct (decide (d = data o)) as [->|Hne];
      [rewrite lookup_delete_eq in Hd; by destruct Hd|].
    rewrite lookup_delete_ne in Hd by done.
    destruct (Hnl d Hd) as (q & oq & Hoq & Hdq). exists q, oq. split; [|done].
    simpl. rewrite lookup_delete_ne; [done|]. intros ->. congruence.
  - unfold IntSet_destroy. apply bind_fault. unfold get_obj. by rewrite Hp.
Qed.

Lemma IntSet_destroy_releases_witness :
  ∃ m',
    IntSet_destroy 1 sample_mem2 = Ok () m'
    ∧ objects m' !! 1%positive = None ∧ arrays m' !! 1%positive = None
    ∧ mem_ok m'
    ∧ (∀ q, q ≠ 1%positive → unchanged sample_mem2 m' q)
    ∧ no_leak m'
    ∧ IntSet_destroy 1 m' = Fault InvalidPointer.
Proof.
  destruct (IntSet_destroy_releases sample_mem2 1 (mkIntSet 1 2 2)
              sample_mem2_ok eq_refl)
    as (m' & Hd & Ho & Ha & Hok & Hfr & Hnl & Hdd).
  exists m'. do 5 (split; [done|]). split; [|done].
  apply Hnl, sample_mem2_no_leak.
Defined.

(** X4: a set that is constructed, copy-constructed or returned by
    [intersect], [subtract] or [unionWith] and then destroyed leaves the
    memory exactly as it was before: the array of the temporary, and every
    array its growth went through, has been released.  [unionWith] does so
    when the counts of the two sets sum to at most 1431655765, and whenever
    it returns. *)
Theorem temporary_leaves_no_trace D m A B :
  mem_ok m → is_Some (objects m !! A) → is_Some (objects m !! B) →
  (∀ c, 0 ≤ initial D c → (s ← IntSet_new D c; IntSet_destroy s) m = Ok () m)
  ∧ (s ← IntSet_copy A; IntSet_destroy s) m = Ok () m
  ∧ (r ← intersect A B; IntSet_destroy r) m = Ok () m
  ∧ (r ← subtract A B; IntSet_destroy r) m = Ok () m
  ∧ (Z.of_nat (length (elements m A) + length (elements m B)) ≤ MAX_GROWABLE + 1 →
     (r ← unionWith D A B; IntSet_destroy r) m = Ok () m)
  ∧ (∀ r m', unionWith D A B m = Ok r m' → IntSet_destroy r m' = Ok () m).
Proof.
  intros Hok HsA HsB. pose proof HsA as [oA HoA]. pose proof HsB as [oB HoB].
  destruct (ok_rep m A oA Hok HoA) as (aA & HA & _).
  destruct (ok_rep m B oB Hok HoB) as (aB & HB & _).
  assert (Hun : ∀ r m', unionWith D A B m = Ok r m' →
                        IntSet_destroy r m' = Ok () m).
  { intros r m' Hop.
    destruct (unionWith_footprint D A B m r m' Hok HsA HsB Hop) as [Hr Hfp].
    by apply destroy_new. }
  split; [|split; [|split; [|split; [|split; [|done]]]]].
  - intros c Hc. mstep (IntSet_new_memory D c m Hc).
    apply destroy_new; [apply fresh_object|apply footprint_new].
  - destruct (IntSet_copy_spec A m oA aA _ Hok HA) as (r & m' & _ & _ & Hop & _).
    mstep Hop.
    destruct (IntSet_copy_footprint A m r m' Hok HsA Hop) as [Hr Hfp].
    by apply destroy_new.
  - destruct (intersect_spec A B m _ _ _ _ _ _ Hok HA HB)
      as (r & m' & _ & _ & Hop & _).
    mstep Hop.
    destruct (intersect_footprint A B m r m' Hok HsA HsB Hop) as [Hr Hfp].
    by apply destroy_new.
  - destruct (subtract_spec A B m _ _ _ _ _ _ Hok HA HB)
      as (r & m' & _ & _ & Hop & _).
    mstep Hop.
    destruct (subtract_footprint A B m r m' Hok HsA HsB Hop) as [Hr Hfp].
    by apply destroy_new.
  - intros Hmax.
    destruct (unionWith_spec D A B m _ _ _ _ _ _ Hok HA HB Hmax)
      as (r & m' & _ & _ & Hop & _).
    mstep Hop. by apply Hun.
Qed.

Lemma temporary_leaves_no_trace_witness :
  (∀ c, 0 ≤ initial 10 c →
        (s ← IntSet_new 10 c; IntSet_destroy s) sample_mem2 = Ok () sample_mem2)
  ∧ (s ← IntSet_copy 1; IntSet_destroy s) sample_mem2 = Ok () sample_mem2
  ∧ (r ← intersect 1 2; IntSet_destroy r) sample_mem2 = Ok () sample_mem2
  ∧ (r ← subtract 1 2; IntSet_destroy r) sample_mem2 = Ok () sample_mem2
  ∧ (r ← unionWith 10 1 2; IntSet_destroy r) sample_mem2 = Ok () sample_mem2.
Proof.
  destruct (temporary_leaves_no_trace 10 sample_mem2 1 2 sample_mem2_ok)
    as (Hn & Hc & Hi & Hs & Hu & _); [by eexists|by eexists|].
  do 4 (split; [done|]). apply Hu. by vm_compute.
Defined.

(** ** Assignment and reset *)

Lemma equal_same m p o a q o2 a2 l :
  rep m p o a l → rep m q o2 a2 l → equal p q m = Ok true m.
Proof.
  intros Hp Hq. rewrite (equal_spec _ _ _ _ _ _ _ _ _ Hp Hq). f_equal.
  rewrite !andb_true_iff, !bool_decide_eq_true.
  split; [split; [done|]|]; by apply Forall_forall.
Qed.

(** X5: [this = rhs] gives [this] the members of [rhs] in the same order
    and the capacity of [rhs]; [rhs] keeps its members, and [this == rhs]
    returns true afterwards.  Self-assignment changes nothing.  Otherwise
    [this] has an array of its own and the array it had is released.  Every
    other set is as it was, and no array is lost. *)
Theorem assign_replaces m this rhs :
  mem_ok m → is_Some (objects m !! this) → is_Some (objects m !! rhs) →
  ∃ m',
    assign this rhs m = Ok () m' ∧ mem_ok m'
    ∧ elements m' this = elements m rhs
    ∧ elements m' rhs = elements m rhs
    ∧ capacity <$> objects m' !! this = capacity <$> objects m !! rhs
    ∧ equal this rhs m' = Ok true m'
    ∧ (this = rhs → m' = m)
    ∧ (this ≠ rhs →
       data <$> objects m' !! this ≠ data <$> objects m' !! rhs
       ∧ ∀ o, objects m !! this = Some o → arrays m' !! data o = None)
    ∧ (∀ q, q ≠ this → unchanged m m' q)
    ∧ (no_leak m → no_leak m').
Proof.
  intros Hok Hst Hsr. pose proof Hst as [o Ho]. pose proof Hsr as [r Hor].
  destruct (ok_rep m this o Hok Ho) as (a & Hr & _).
  destruct (ok_rep m rhs r Hok Hor) as (ar & Hrr & _).
  destruct (decide (this = rhs)) as [->|Hne].
  { exists m. split; [apply assign_self|]. do 4 (split; [done|]).
    split; [by apply equal_same with r ar r ar (elements m rhs)|]. split; [done|].
    split; [done|]. split; [|done]. intros q _. apply unchanged_refl. }
  destruct (assign_spec this rhs m _ _ _ _ _ _ Hok Hr Hrr Hne)
    as (m' & o' & a' & Has & Hok' & Hr' & Hcap & Hfr).
  pose proof (assign_memory this rhs m _ _ _ _ _ _ Hok Hr Hrr Hne) as Hmem.
  rewrite Has in Hmem. injection Hmem as Hm'.
  assert (Hrr' : rep m' rhs r ar (elements m rhs))
    by (apply (unchanged_rep m m'); [apply Hfr; congruence|done]).
  exists m'. do 2 (split; [done|]).
  split; [by apply rep_elements with o' a'|].
  split; [by apply rep_elements with r ar|].
  split; [by rewrite (rep_capacity _ _ _ _ _ Hr'), Hor, Hcap|].
  split; [by apply equal_same with o' a' r ar (elements m rhs)|].
  split; [done|]. split; [|split; [done|]].
  - intros _. split.
    + rewrite (rep_obj _ _ _ _ _ Hr'), (rep_obj _ _ _ _ _ Hrr'). simpl.
      intros [= Hd]. apply Hne.
      by apply (ok_sep _ Hok' this rhs o' r); [apply Hr'|apply Hrr'|].
    + intros o0 Ho0. assert (o0 = o) as -> by congruence.
      rewrite Hm'. simpl. apply lookup_delete_eq.
  - intros Hnl. apply footprint_no_leak with m this; [done|].
    by apply (assign_footprint this rhs m m').
Qed.

Lemma assign_replaces_witness :
  ∃ m',
    assign 1 2 sample_mem2 = Ok () m' ∧ mem_ok m'
    ∧ elements m' 1 = elements sample_mem2 2
    ∧ elements m' 2 = elements sample_mem2 2
    ∧ capacity <$> objects m' !! 1%positive = Some 4
    ∧ equal 1 2 m' = Ok true m'
    ∧ data <$> objects m' !! 1%positive ≠ data <$> objects m' !! 2%positive
    ∧ arrays m' !! 1%positive = None
    ∧ (∀ q, q ≠ 1%positive → unchanged sample_mem2 m' q)
    ∧ no_leak m'.
Proof.
  destruct (assign_replaces sample_mem2 1 2 sample_mem2_ok)
    as (m' & Has & Hok & He1 & He2 & Hcap & Heq & _ & Hne & Hfr & Hnl);
    [by eexists|by eexists|].
  destruct Hne as [Hd Hrel]; [done|].
  exists m'. do 6 (split; [done|]). split; [done|].
  split; [exact (Hrel (mkIntSet 1 2 2) eq_refl)|]. split; [done|].
  apply Hnl, sample_mem2_no_leak.
Defined.

(** X6: [reset] only sets the count to 0: the object keeps its array and
    its capacity, and no array of the memory changes.  Afterwards the set is
    empty: [size] returns 0, [isEmpty] true, [contains] false for every
    value, and [DumpData] writes nothing. *)
Theorem reset_keeps_storage m p o :
  mem_ok m → objects m !! p = Some o →
  ∃ m',
    reset p m = Ok () m' ∧ mem_ok m'
    ∧ objects m' !! p = Some (mkIntSet (data o) (capacity o) 0)
    ∧ arrays m' = arrays m
    ∧ elements m' p = []
    ∧ size p m' = Ok 0 m' ∧ isEmpty p m' = Ok true m'
    ∧ (∀ x, contains p x m' = Ok false m')
    ∧ (∀ out, DumpData p out m' = Ok out m')
    ∧ (∀ q, q ≠ p → unchanged m m' q).
Proof.
  intros Hok Ho. destruct (ok_rep m p o Hok Ho) as (a & Hr & _).
  destruct (reset_spec m p o a _ Hok Hr) as (m' & o' & Hres & Hok' & Hr' & _ & Hfr).
  pose proof Hres as Hmem. unfold reset in Hmem.
  rewrite (set_used_ok m p o 0 Ho) in Hmem. injection Hmem as Hm'.
  destruct (empty_observers _ _ _ _ Hr') as (Hs & He & Hcn & Hd).
  exists m'. do 2 (split; [done|]).
  split; [rewrite <- Hm'; apply lookup_insert_eq|].
  split; [by rewrite <- Hm'|].
  split; [by apply rep_elements with o' a|]. by do 4 (split; [done|]).
Qed.

Lemma reset_keeps_storage_witness :
  ∃ m',
    reset 1 sample_mem = Ok () m' ∧ mem_ok m'
    ∧ objects m' !! 1%positive = Some (mkIntSet 1 2 0)
    ∧ arrays m' = arrays sample_mem
    ∧ elements m' 1 = []
    ∧ size 1 m' = Ok 0 m' ∧ isEmpty 1 m' = Ok true m'
    ∧ (∀ x, contains 1 x m' = Ok false m')
    ∧ (∀ out, DumpData 1 out m' = Ok out m')
    ∧ (∀ q, q ≠ 1%positive → unchanged sample_mem m' q).
Proof.
  exact (reset_keeps_storage sample_mem 1 (mkIntSet 1 2 2) sample_mem_ok eq_refl).
Defined.

(** ** Programs leave no array behind *)

Lemma footprint_objects m m' p q :
  footprint m m' p → is_Some (objects m' !! q) →
  q = p ∨ is_Some (objects m !! q).
Proof.
  intros (o' & Hob & _) Hq. destruct (decide (q = p)) as [->|Hne]; [by left|].
  right. by rewrite Hob, lookup_insert_ne in Hq.
Qed.

Lemma no_leak_empty : no_leak empty_mem.
Proof. intros d [a Ha]. simpl in Ha. by rewrite lookup_empty in Ha. Qed.

Lemma step_no_leak D env o m k env' m' :
  mem_ok m → env_ok m env k → no_leak m →
  (∀ p, is_Some (objects m !! p) → p ∈ env) →
  step D env o m = Ok env' m' →
  no_leak m' ∧ ∀ p, is_Some (objects m' !! p) → p ∈ env'.
Proof.
  intros Hok Henv Hnl Hall.
  assert (Hmut : ∀ p, p ∈ env → footprint m m' p →
            no_leak m' ∧ ∀ q, is_Some (objects m' !! q) → q ∈ env).
  { intros p Hp Hfp. split; [by apply footprint_no_leak with m p|].
    intros q Hq. destruct (footprint_objects m m' p q Hfp Hq) as [->|Hq'];
      [done|by apply Hall]. }
  destruct o as [v x|v x|v|v|v w]; simpl;
    (destruct (env !! v) as [p|] eqn:Hv;
     [|destruct (var_unbound env v m Hv) as [Hf _];
       by rewrite (bind_fault _ _ _ _ Hf)]);
    rewrite (bind_ok _ _ _ _ _ (var_ok _ _ _ m Hv));
    destruct (env_ok_lookup _ _ _ _ _ Henv Hv) as [Hsp _];
    pose proof (list_elem_of_lookup_2 _ _ _ Hv) as Hpe.
  - destruct (add D p x m) as [b m1|f] eqn:He;
      [rewrite (bind_ok _ _ _ _ _ He)|by rewrite (bind_fault _ _ _ _ He)].
    intros [= <- <-]. apply (Hmut p Hpe). by apply (add_footprint D m p x b).
  - destruct (remove p x m) as [b m1|f] eqn:He;
      [rewrite (bind_ok _ _ _ _ _ He)|by rewrite (bind_fault _ _ _ _ He)].
    intros [= <- <-]. apply (Hmut p Hpe). by apply (remove_footprint m p x b).
  - destruct (reset p m) as [[] m1|f] eqn:He;
      [rewrite (bind_ok _ _ _ _ _ He)|by rewrite (bind_fault _ _ _ _ He)].
    intros [= <- <-]. apply (Hmut p Hpe). by apply reset_footprint.
  - destruct (IntSet_copy p m) as [r m1|f] eqn:He;
      [rewrite (bind_ok _ _ _ _ _ He)|by rewrite (bind_fault _ _ _ _ He)].
    intros [= <- <-].
    destruct (IntSet_copy_footprint p m r m1 Hok Hsp He) as [_ Hfp].
    split; [by apply footprint_no_leak with m r|].
    intros q Hq. apply elem_of_app.
    destruct (footprint_objects m m1 r q Hfp Hq) as [->|Hq'].
    + right. apply list_elem_of_here.
    + left. by apply Hall.
  - destruct (env !! w) as [q|] eqn:Hw.
    2:{ destruct (var_unbound env w m Hw) as [Hf _].
        by rewrite (bind_fault _ _ _ _ Hf). }
    rewrite (bind_ok _ _ _ _ _ (var_ok _ _ _ m Hw)).
    destruct (env_ok_lookup _ _ _ _ _ Henv Hw) as [Hsq _].
    destruct (assign p q m) as [[] m1|f] eqn:He;
      [rewrite (bind_ok _ _ _ _ _ He)|by rewrite (bind_fault _ _ _ _ He)].
    intros [= <- <-]. apply (Hmut p Hpe). by apply (assign_footprint p q).
Qed.

Lemma run_no_leak D ops :
  ∀ env m k env' m',
    mem_ok m → env_ok m env k → no_leak m →
    (∀ p, is_Some (objects m !! p) → p ∈ env) →
    run D env ops m = Ok env' m' →
    no_leak m' ∧ ∀ p, is_Some (objects m' !! p) → p ∈ env'.
Proof.
  induction ops as [|o ops IH]; intros env m k env' m' Hok Henv Hnl Hall Hrun.
  - injection Hrun as <- <-. done.
  - simpl in Hrun.
    destruct (step_cases D env o m k Hok Henv)
      as [(env1 & m1 & Hs & Hok1 & Henv1 & _)|[(Hs & _)|[Hs _]]].
    + rewrite (bind_ok _ _ _ _ _ Hs) in Hrun.
      destruct (step_no_leak D env o m k env1 m1 Hok Henv Hnl Hall Hs)
        as [Hnl1 Hall1].
      by apply (IH env1 m1 (k + adds o) env' m').
    + by rewrite (bind_fault _ _ _ _ Hs) in Hrun.
    + by rewrite (bind_fault _ _ _ _ Hs) in Hrun.
Qed.

(** X7: after a program that constructs a set and then performs [add],
    [remove], [reset], copy construction and assignment on declared sets,
    every array of the memory is the array of a set, and every set is one
    the program has declared: [resize] and [operator=] release the arrays
    they replace.  The program runs to its end when it calls [add] at most
    1431655765 times; the property holds of any state it reaches. *)
Theorem program_leaks_nothing D c ops :
  1 ≤ initial D c ≤ INT_MAX →
  (well_scoped 1 ops → count_adds ops ≤ MAX_GROWABLE + 1 →
   ∃ env m', program D c ops empty_mem = Ok env m' ∧ no_leak m'
             ∧ ∀ p, is_Some (objects m' !! p) → p ∈ env)
  ∧ (∀ env m', program D c ops empty_mem = Ok env m' →
               no_leak m' ∧ ∀ p, is_Some (objects m' !! p) → p ∈ env).
Proof.
  intros Hc.
  destruct (IntSet_new_spec D c empty_mem empty_mem_ok Hc)
    as (s & m0 & o0 & a0 & Hnew & _ & Hok0 & Hr0 & _).
  destruct (IntSet_new_footprint D c empty_mem s m0 Hnew) as [_ Hfp].
  assert (Henv : env_ok m0 [s] 0).
  { apply Forall_singleton. rewrite (rep_elements _ _ _ _ _ Hr0).
    split; [|done]. exists o0. apply Hr0. }
  assert (Hnl0 : no_leak m0) by (apply footprint_no_leak with empty_mem s;
                                 [apply no_leak_empty|done]).
  assert (Hall0 : ∀ p, is_Some (objects m0 !! p) → p ∈ [s]).
  { intros p Hp. destruct (footprint_objects _ _ _ _ Hfp Hp) as [->|[o Ho]].
    - apply list_elem_of_here.
    - simpl in Ho. by rewrite lookup_empty in Ho. }
  assert (Hpart : ∀ env m', run D [s] ops m0 = Ok env m' →
            no_leak m' ∧ ∀ p, is_Some (objects m' !! p) → p ∈ env).
  { intros env m'. by apply (run_no_leak D ops [s] m0 0). }
  unfold program. mstep Hnew. split; [|done].
  intros Hws Hmax.
  destruct (run_total D ops [s] m0 0 Hok0 Henv Hws ltac:(lia))
    as (env & m' & Hrun).
  exists env, m'. split; [done|]. by apply Hpart.
Qed.

Lemma program_leaks_nothing_witness :
  ∃ env m',
    program 10 1 [Add 0 5; Add 0 3; Copy 0; Remove 0 5; Assign 1 0; Reset 0]
      empty_mem = Ok env m'
    ∧ no_leak m' ∧ ∀ p, is_Some (objects m' !! p) → p ∈ env.
Proof.
  destruct (program_leaks_nothing 10 1
              [Add 0 5; Add 0 3; Copy 0; Remove 0 5; Assign 1 0; Reset 0])
    as [Hrun _]; [by vm_compute|].
  apply Hrun; [simpl; repeat split; lia|by vm_compute].
Defined.

(** ** Capacity of intersections and differences *)

Lemma intersect_loop_capacity this i other o1 a1 l1 o2 a2 l2 :
  i ≠ this → i ≠ other →
  ∀ n k m oi ai li m',
    mem_ok m → rep m i oi ai li → rep m this o1 a1 l1 → rep m other o2 a2 l2 →
    (k + n = length l1)%nat →
    intersect_loop this i other (Z.of_nat k) n m = Ok () m' →
    capacity <$> objects m' !! i = Some (capacity oi).
Proof.
  intros Hnt Hno. induction n as [|n IH]; intros k m oi ai li m' Hok Hi Ht Ho Hk.
  - intros [= <-]. by apply rep_capacity with ai li.
  - pose proof Ht as [Ho1 Ha1 _ _ Hc1].
    destruct (lookup_lt_is_Some_2 l1 k) as [v Hv]; [lia|].
    pose proof (read_ok _ _ _ _ _ Ha1 (cells_lookup _ _ _ _ Hc1 Hv)) as Hread.
    simpl. mstep (get_obj_ok _ _ _ Ho1).
    mstep Hread.
    mstep (contains_spec _ _ _ _ _ v Ho).
    replace (Z.of_nat k + 1) with (Z.of_nat (S k)) by lia.
    destruct (decide (v ∈ l2)) as [Hin|Hnin].
    + rewrite (bool_decide_eq_true_2 _ Hin). simpl.
      rewrite (bind_ok (mret ()) _ m () m eq_refl).
      apply (IH (S k) m oi ai li); try done; lia.
    + rewrite (bool_decide_eq_false_2 _ Hnin). simpl.
      destruct (remove_spec m i oi ai li v Hok Hi)
        as (m1 & oi1 & ai1 & Hrem & Hok1 & Hi1 & Hfr1 & Hcap).
      assert (Hstep : (w ← read (data o1) (Z.of_nat k);
                       _ ← remove i w; mret ()) m = Ok () m1).
      { mstep Hread. by mstep Hrem. }
      mstep Hstep. intros Hloop. rewrite <- Hcap.
      apply (IH (S k) m1 oi1 ai1 (filter (λ y, y ≠ v) li) m'); try done.
      * apply (unchanged_rep m m1); [by apply Hfr1|done].
      * apply (unchanged_rep m m1); [by apply Hfr1|done].
      * lia.
Qed.

Lemma subtract_loop_capacity s other o2 a2 l2 :
  s ≠ other →
  ∀ n k m os as_ ls m',
    mem_ok m → rep m s os as_ ls → rep m other o2 a2 l2 →
    (k + n = length l2)%nat →
    subtract_loop s other (Z.of_nat k) n m = Ok () m' →
    capacity <$> objects m' !! s = Some (capacity os).
Proof.
  intros Hne. induction n as [|n IH]; intros k m os as_ ls m' Hok Hs Ho Hk.
  - intros [= <-]. by apply rep_capacity with as_ ls.
  - pose proof Ho as [Ho2 Ha2 _ _ Hc2].
    destruct (lookup_lt_is_Some_2 l2 k) as [v Hv]; [lia|].
    pose proof (read_ok _ _ _ _ _ Ha2 (cells_lookup _ _ _ _ Hc2 Hv)) as Hread.
    simpl. mstep (get_obj_ok _ _ _ Ho2).
    mstep Hread.
    mstep (contains_spec _ _ _ _ _ v Hs).
    replace (Z.of_nat k + 1) with (Z.of_nat (S k)) by lia.
    destruct (decide (v ∈ ls)) as [Hin|Hnin].
    + rewrite (bool_decide_eq_true_2 _ Hin).
      destruct (remove_spec m s os as_ ls v Hok Hs)
        as (m1 & os1 & as1 & Hrem & Hok1 & Hs1 & Hfr1 & Hcap).
      assert (Hstep : (w ← read (data o2) (Z.of_nat k);
                       _ ← remove s w; mret ()) m = Ok () m1).
      { mstep Hread. by mstep Hrem. }
      mstep Hstep. intros Hloop. rewrite <- Hcap.
      apply (IH (S k) m1 os1 as1 (filter (λ y, y ≠ v) ls) m'); try done.
      * apply (unchanged_rep m m1); [by apply Hfr1|done].
      * lia.
    + rewrite (bool_decide_eq_false_2 _ Hnin).
      rewrite (bind_ok (mret ()) _ m () m eq_refl).
      apply (IH (S k) m os as_ ls); try done; lia.
Qed.

Lemma intersect_capacity A B m r m' :
  mem_ok m → is_Some (objects m !! A) → is_Some (objects m !! B) →
  intersect A B m = Ok r m' →
  capacity <$> objects m' !! r = capacity <$> objects m !! A.
Proof.
  intros Hok [oA HoA] [oB HoB].
  destruct (ok_rep m A oA Hok HoA) as (aA & HA & _).
  destruct (ok_rep m B oB Hok HoB) as (aB & HB & _).
  destruct (IntSet_copy_spec A m oA aA _ Hok HA)
    as (r1 & m1 & o1 & a1 & Hcopy & Hr & Hok1 & Hr1 & Hcap & Hfr1).
  assert (HA1 : rep m1 A oA aA (elements m A)) by (by apply (unchanged_rep m m1)).
  assert (HB1 : rep m1 B oB aB (elements m B)) by (by apply (unchanged_rep m m1)).
  assert (HnA : r1 ≠ A) by (intros ->; congruence).
  assert (HnB : r1 ≠ B) by (intros ->; congruence).
  unfold intersect. mstep Hcopy. mstep (size_spec _ _ _ _ _ HA1).
  rewrite Nat2Z.id.
  destruct (intersect_loop A r1 B 0 (length (elements m A)) m1)
    as [[] m2|f] eqn:Hloop.
  - rewrite (bind_ok _ _ _ _ _ Hloop). intros [= <- <-]. rewrite HoA. simpl.
    rewrite <- Hcap.
    by apply (intersect_loop_capacity A r1 B oA aA (elements m A)
                oB aB (elements m B) HnA HnB
                (length (elements m A)) 0%nat m1 o1 a1 (elements m A) m2).
  - by rewrite (bind_fault _ _ _ _ Hloop).
Qed.

Lemma subtract_capacity A B m r m' :
  mem_ok m → is_Some (objects m !! A) → is_Some (objects m !! B) →
  subtract A B m = Ok r m' →
  capacity <$> objects m' !! r = capacity <$> objects m !! A.
Proof.
  intros Hok [oA HoA] [oB HoB].
  destruct (ok_rep m A oA Hok HoA) as (aA & HA & _).
  destruct (ok_rep m B oB Hok HoB) as (aB & HB & _).
  destruct (IntSet_copy_spec A m oA aA _ Hok HA)
    as (r1 & m1 & o1 & a1 & Hcopy & Hr & Hok1 & Hr1 & Hcap & Hfr1).
  assert (HB1 : rep m1 B oB aB (elements m B)) by (by apply (unchanged_rep m m1)).
  assert (HnB : r1 ≠ B) by (intros ->; congruence).
  unfold subtract. mstep Hcopy. mstep (size_spec _ _ _ _ _ HB1).
  rewrite Nat2Z.id.
  destruct (subtract_loop r1 B 0 (length (elements m B)) m1)
    as [[] m2|f] eqn:Hloop.
  - rewrite (bind_ok _ _ _ _ _ Hloop). intros [= <- <-]. rewrite HoA. simpl.
    rewrite <- Hcap.
    by apply (subtract_loop_capacity r1 B oB aB (elements m B) HnB
                (length (elements m B)) 0%nat m1 o1 a1 (elements m A) m2).
  - by rewrite (bind_fault _ _ _ _ Hloop).
Qed.

(** ** Members of intersections, differences and unions *)

Lemma isSubsetOf_true m p o a l q o2 a2 l2 :
  rep m p o a l → rep m q o2 a2 l2 → (∀ x, x ∈ l → x ∈ l2) →
  isSubsetOf p q m = Ok true m.
Proof.
  intros Hp Hq Hsub. rewrite (isSubsetOf_spec _ _ _ _ _ _ _ _ _ Hp Hq).
  f_equal. apply bool_decide_eq_true_2. by apply Forall_forall.
Qed.

(** X8: [A.intersect(B)] returns a set whose members are the members of
    [A] that are in [B], in the order they have in [A], with the capacity
    of [A] however few members remain; [contains] on the result is true
    exactly for the values in both sets, and the result is a subset of [A]
    and of [B].  The call always returns, also when [A] and [B] are the
    same object. *)
Theorem intersect_members m A B :
  mem_ok m → is_Some (objects m !! A) → is_Some (objects m !! B) →
  ∃ r m',
    intersect A B m = Ok r m' ∧ mem_ok m'
    ∧ elements m' r = filter (λ x, x ∈ elements m B) (elements m A)
    ∧ capacity <$> objects m' !! r = capacity <$> objects m !! A
    ∧ (∀ x, contains r x m'
            = Ok (bool_decide (x ∈ elements m A ∧ x ∈ elements m B)) m')
    ∧ isSubsetOf r A m' = Ok true m'
    ∧ isSubsetOf r B m' = Ok true m'.
Proof.
  intros Hok [oA HoA] [oB HoB].
  destruct (ok_rep m A oA Hok HoA) as (aA & HA & _).
  destruct (ok_rep m B oB Hok HoB) as (aB & HB & _).
  set (lA := elements m A) in *. set (lB := elements m B) in *.
  destruct (intersect_spec A B m _ _ _ _ _ _ Hok HA HB)
    as (r & m' & o' & a' & Hop & Hr & Hok' & Hr' & Hfr).
  rewrite intersect_list_self in Hr'.
  assert (HA' : rep m' A oA aA lA) by (by apply (unchanged_rep m m')).
  assert (HB' : rep m' B oB aB lB) by (by apply (unchanged_rep m m')).
  exists r, m'. do 2 (split; [done|]).
  split; [by apply rep_elements with o' a'|].
  split; [apply (intersect_capacity A B m r m' Hok); by try eexists|].
  split; [|split].
  - intros x. rewrite (contains_spec _ _ _ _ _ x Hr'). f_equal.
    apply bool_decide_ext. rewrite list_elem_of_filter. tauto.
  - apply (isSubsetOf_true _ _ _ _ _ _ _ _ _ Hr' HA').
    intros x. rewrite list_elem_of_filter. tauto.
  - apply (isSubsetOf_true _ _ _ _ _ _ _ _ _ Hr' HB').
    intros x. rewrite list_elem_of_filter. tauto.
Qed.

Lemma intersect_members_witness :
  ∃ r m',
    intersect 1 2 sample_mem2 = Ok r m' ∧ mem_ok m'
    ∧ elements m' r
      = filter (λ x, x ∈ elements sample_mem2 2) (elements sample_mem2 1)
    ∧ capacity <$> objects m' !! r = Some 2
    ∧ (∀ x, contains r x m'
            = Ok (bool_decide (x ∈ elements sample_mem2 1
                               ∧ x ∈ elements sample_mem2 2)) m')
    ∧ isSubsetOf r 1 m' = Ok true m'
    ∧ isSubsetOf r 2 m' = Ok true m'.
Proof.
  apply (intersect_members sample_mem2 1 2 sample_mem2_ok); by eexists.
Defined.

(** X9: [A.subtract(B)] returns a set whose members are the members of
    [A] that are not in [B], in the order they have in [A], with the
    capacity of [A] however few members remain; [contains] on the result is
    true exactly for the values in [A] and not in [B], and the result is a
    subset of [A]. *)
Theorem subtract_members m A B :
  mem_ok m → is_Some (objects m !! A) → is_Some (objects m !! B) →
  ∃ r m',
    subtract A B m = Ok r m' ∧ mem_ok m'
    ∧ elements m' r = filter (λ x, x ∉ elements m B) (elements m A)
    ∧ capacity <$> objects m' !! r = capacity <$> objects m !! A
    ∧ (∀ x, contains r x m'
            = Ok (bool_decide (x ∈ elements m A ∧ x ∉ elements m B)) m')
    ∧ isSubsetOf r A m' = Ok true m'.
Proof.
  intros Hok [oA HoA] [oB HoB].
  destruct (ok_rep m A oA Hok HoA) as (aA & HA & _).
  destruct (ok_rep m B oB Hok HoB) as (aB & HB & _).
  set (lA := elements m A) in *. set (lB := elements m B) in *.
  destruct (subtract_spec A B m _ _ _ _ _ _ Hok HA HB)
    as (r & m' & o' & a' & Hop & Hr & Hok' & Hr' & Hfr).
  rewrite subtract_list_filter in Hr'.
  assert (HA' : rep m' A oA aA lA) by (by apply (unchanged_rep m m')).
  exists r, m'. do 2 (split; [done|]).
  split; [by apply rep_elements with o' a'|].
  split; [apply (subtract_capacity A B m r m' Hok); by try eexists|].
  split.
  - intros x. rewrite (contains_spec _ _ _ _ _ x Hr'). f_equal.
    apply bool_decide_ext. rewrite list_elem_of_filter. tauto.
  - apply (isSubsetOf_true _ _ _ _ _ _ _ _ _ Hr' HA').
    intros x. rewrite list_elem_of_filter. tauto.
Qed.

Lemma subtract_members_witness :
  ∃ r m',
    subtract 1 2 sample_mem2 = Ok r m' ∧ mem_ok m'
    ∧ elements m' r
      = filter (λ x, x ∉ elements sample_mem2 2) (elements sample_mem2 1)
    ∧ capacity <$> objects m' !! r = Some 2
    ∧ (∀ x, contains r x m'
            = Ok (bool_decide (x ∈ elements sample_mem2 1
                               ∧ x ∉ elements sample_mem2 2)) m')
    ∧ isSubsetOf r 1 m' = Ok true m'.
Proof.
  apply (subtract_members sample_mem2 1 2 sample_mem2_ok); by eexists.
Defined.

Lemma union_made_intro m A B r m' oA aA oB aB o' a' :
  NoDup (elements m B) →
  rep m' A oA aA (elements m A) → rep m' B oB aB (elements m B) →
  rep m' r o' a' (union_list (elements m A) (elements m B)) →
  union_made m A B r m'.
Proof.
  intros Hnd HA' HB' Hr'. rewrite union_list_filter in Hr' by done.
  split; [by apply rep_elements with o' a'|]. split; [|split].
  - intros x. rewrite (contains_spec _ _ _ _ _ x Hr'). f_equal.
    apply bool_decide_ext. rewrite elem_of_app, list_elem_of_filter.
    destruct (decide (x ∈ elements m A)); tauto.
  - apply (isSubsetOf_true _ _ _ _ _ _ _ _ _ HA' Hr').
    intros x Hx. apply elem_of_app. by left.
  - apply (isSubsetOf_true _ _ _ _ _ _ _ _ _ HB' Hr').
    intros x Hx. rewrite elem_of_app, list_elem_of_filter.
    destruct (decide (x ∈ elements m A)); tauto.
Qed.

(** X10: [A.unionWith(B)] returns a set whose members are the members of
    [A] in their order followed by the members of [B] that are not in [A],
    in the order they have in [B]; [contains] on the result is true exactly
    for the values in [A] or in [B], and [A] and [B] are subsets of the
    result.  The call returns when the counts of the two sets sum to at
    most 1431655765; whenever it returns, the result is as described. *)
Theorem unionWith_members D m A B :
  mem_ok m → is_Some (objects m !! A) → is_Some (objects m !! B) →
  (Z.of_nat (length (elements m A) + length (elements m B)) ≤ MAX_GROWABLE + 1 →
   ∃ r m', unionWith D A B m = Ok r m' ∧ mem_ok m' ∧ union_made m A B r m')
  ∧ (∀ r m', unionWith D A B m = Ok r m' →
             mem_ok m' ∧ union_made m A B r m').
Proof.
  intros Hok [oA HoA] [oB HoB].
  destruct (ok_rep m A oA Hok HoA) as (aA & HA & _).
  destruct (ok_rep m B oB Hok HoB) as (aB & HB & HndB & _).
  assert (Hret : ∀ r m', unionWith D A B m = Ok r m' →
                         mem_ok m' ∧ union_made m A B r m').
  { intros r m' Hop.
    destruct (unionWith_returned D A B m _ _ _ _ _ _ r m' Hok HA HB Hop)
      as (_ & Hok' & (o' & a' & Hr') & Hfr).
    split; [done|].
    apply union_made_intro with oA aA oB aB o' a'; try done.
    - by apply (unchanged_rep m m').
    - by apply (unchanged_rep m m'). }
  split; [|done]. intros Hmax.
  destruct (unionWith_spec D A B m _ _ _ _ _ _ Hok HA HB Hmax)
    as (r & m' & _ & _ & Hop & _).
  exists r, m'. split; [done|]. by apply Hret.
Qed.

Lemma unionWith_members_witness :
  ∃ r m', unionWith 10 1 2 sample_mem2 = Ok r m' ∧ mem_ok m'
          ∧ union_made sample_mem2 1 2 r m'.
Proof.
  destruct (unionWith_members 10 sample_mem2 1 2 sample_mem2_ok)
    as [Htotal _]; [by eexists|by eexists|].
  apply Htotal. by vm_compute.
Defined.

(** When every value of the other set is already in the copy, the loop of
    [unionWith] adds nothing. *)
Lemma unionWith_loop_subset D u other o2 a2 l2 ou au lu m :
  rep m u ou au lu → rep m other o2 a2 l2 →
  ∀ n k, (k + n = length l2)%nat → Forall (λ x, x ∈ lu) (drop k l2) →
         unionWith_loop D u other (Z.of_nat k) n m = Ok () m.
Proof.
  intros Hu Ho. pose proof Ho as [Ho2 Ha2 _ _ Hc2].
  induction n as [|n IH]; intros k Hk Hall; [done|].
  destruct (lookup_lt_is_Some_2 l2 k) as [v Hv]; [lia|].
  pose proof (read_ok _ _ _ _ _ Ha2 (cells_lookup _ _ _ _ Hc2 Hv)) as Hread.
  rewrite (drop_S _ _ _ Hv) in Hall. apply Forall_cons in Hall as [Hin Hall].
  simpl. mstep (get_obj_ok _ _ _ Ho2).
  mstep Hread.
  mstep (contains_spec _ _ _ _ _ v Hu).
  rewrite (bool_decide_eq_true_2 _ Hin). simpl.
  rewrite (bind_ok (mret ()) _ m () m eq_refl).
  replace (Z.of_nat k + 1) with (Z.of_nat (S k)) by lia.
  apply IH; [lia|done].
Qed.

(** X11: when every member of [B] is a member of [A] (in particular when
    [B] is [A] itself), [A.unionWith(B)] adds nothing to its copy of [A]: it
    returns, whatever the size of [A], a set with the members and the
    capacity of [A], equal to [A] under [==]. *)
Theorem unionWith_subset_never_grows D m A B :
  mem_ok m → is_Some (objects m !! A) → is_Some (objects m !! B) →
  (∀ x, x ∈ elements m B → x ∈ elements m A) →
  ∃ r m',
    unionWith D A B m = Ok r m' ∧ mem_ok m'
    ∧ elements m' r = elements m A
    ∧ capacity <$> objects m' !! r = capacity <$> objects m !! A
    ∧ equal r A m' = Ok true m'.
Proof.
  intros Hok [oA HoA] [oB HoB] Hsub.
  destruct (ok_rep m A oA Hok HoA) as (aA & HA & _).
  destruct (ok_rep m B oB Hok HoB) as (aB & HB & _).
  set (lA := elements m A) in *. set (lB := elements m B) in *.
  destruct (IntSet_copy_spec A m oA aA lA Hok HA)
    as (r & m1 & o1 & a1 & Hcopy & Hr & Hok1 & Hr1 & Hcap & Hfr1).
  assert (HA1 : rep m1 A oA aA lA) by (by apply (unchanged_rep m m1)).
  assert (HB1 : rep m1 B oB aB lB) by (by apply (unchanged_rep m m1)).
  exists r, m1. split.
  { unfold unionWith. mstep Hcopy. mstep (size_spec _ _ _ _ _ HB1).
    rewrite Nat2Z.id.
    rewrite (bind_ok (unionWith_loop D r B 0 (length lB)) _ m1 () m1); [done|].
    apply (unionWith_loop_subset D r B oB aB lB o1 a1 lA m1 Hr1 HB1
             (length lB) 0%nat eq_refl).
    rewrite drop_0. by apply Forall_forall. }
  split; [done|]. split; [by apply rep_elements with o1 a1|].
  split; [by rewrite (rep_capacity _ _ _ _ _ Hr1), HoA, Hcap|].
  rewrite (equal_spec _ _ _ _ _ _ _ _ _ Hr1 HA1). f_equal.
  rewrite !andb_true_iff, !bool_decide_eq_true.
  split; [split; [done|]|]; by apply Forall_forall.
Qed.

Lemma unionWith_subset_never_grows_witness :
  ∃ r m',
    unionWith 10 1 1 big_mem = Ok r m' ∧ mem_ok m'
    ∧ elements m' r = elements big_mem 1
    ∧ capacity <$> objects m' !! r = capacity <$> objects big_mem !! 1%positive
    ∧ equal r 1 m' = Ok true m'.
Proof.
  apply (unionWith_subset_never_grows 10 big_mem 1 1 big_mem_ok);
    [eexists; apply big_rep|eexists; apply big_rep|done].
Defined.

(** X12: [A.intersect(A)] returns a set with the members of [A] in the
    same order, equal to [A] under [==]; [A.subtract(A)] returns an empty
    set. *)
Theorem self_intersect_subtract m A :
  mem_ok m → is_Some (objects m !! A) →
  (∃ r m', intersect A A m = Ok r m' ∧ elements m' r = elements m A
           ∧ equal r A m' = Ok true m')
  ∧ (∃ r m', subtract A A m = Ok r m' ∧ elements m' r = []
             ∧ isEmpty r m' = Ok true m').
Proof.
  intros Hok [oA HoA].
  destruct (ok_rep m A oA Hok HoA) as (aA & HA & _).
  set (lA := elements m A) in *. split.
  - destruct (intersect_spec A A m _ _ _ _ _ _ Hok HA HA)
      as (r & m' & o' & a' & Hop & Hr & Hok' & Hr' & Hfr).
    rewrite intersect_list_self, filter_id_in in Hr' by done.
    assert (HA' : rep m' A oA aA lA) by (by apply (unchanged_rep m m')).
    exists r, m'. split; [done|]. split; [by apply rep_elements with o' a'|].
    rewrite (equal_spec _ _ _ _ _ _ _ _ _ Hr' HA'). f_equal.
    rewrite !andb_true_iff, !bool_decide_eq_true.
    split; [split; [done|]|]; by apply Forall_forall.
  - destruct (subtract_spec A A m _ _ _ _ _ _ Hok HA HA)
      as (r & m' & o' & a' & Hop & Hr & Hok' & Hr' & Hfr).
    rewrite subtract_list_filter, filter_none_in in Hr' by (intros x Hx Hn; done).
    exists r, m'. split; [done|]. split; [by apply rep_elements with o' a'|].
    exact (isEmpty_spec _ _ _ _ _ Hr').
Qed.

Lemma self_intersect_subtract_witness :
  (∃ r m', intersect 1 1 sample_mem = Ok r m'
           ∧ elements m' r = elements sample_mem 1
           ∧ equal r 1 m' = Ok true m')
  ∧ (∃ r m', subtract 1 1 sample_mem = Ok r m' ∧ elements m' r = []
             ∧ isEmpty r m' = Ok true m').
Proof.
  apply (self_intersect_subtract sample_mem 1 sample_mem_ok). by eexists.
Defined.

(** X13: [A.intersect(B)] and [A.subtract(B)] split [A]: every member of
    [A] is in one of the two results, no value is in both, and the sizes of
    the two results add up to the size of [A]. *)
Theorem intersect_subtract_partition m A B :
  mem_ok m → is_Some (objects m !! A) → is_Some (objects m !! B) →
  ∃ r1 m1 r2 m2 n1 n2 n,
    intersect A B m = Ok r1 m1 ∧ subtract A B m1 = Ok r2 m2
    ∧ size r1 m2 = Ok n1 m2 ∧ size r2 m2 = Ok n2 m2 ∧ size A m2 = Ok n m2
    ∧ n1 + n2 = n
    ∧ (∀ x, x ∈ elements m A ↔ x ∈ elements m2 r1 ∨ x ∈ elements m2 r2)
    ∧ (∀ x, x ∈ elements m2 r1 → x ∉ elements m2 r2).
Proof.
  intros Hok [oA HoA] [oB HoB].
  destruct (ok_rep m A oA Hok HoA) as (aA & HA & _).
  destruct (ok_rep m B oB Hok HoB) as (aB & HB & _).
  set (lA := elements m A) in *. set (lB := elements m B) in *.
  destruct (intersect_spec A B m _ _ _ _ _ _ Hok HA HB)
    as (r1 & m1 & o1 & a1 & Hop1 & _ & Hok1 & Hr1 & Hfr1).
  rewrite intersect_list_self in Hr1.
  assert (HA1 : rep m1 A oA aA lA) by (by apply (unchanged_rep m m1)).
  assert (HB1 : rep m1 B oB aB lB) by (by apply (unchanged_rep m m1)).
  destruct (subtract_spec A B m1 _ _ _ _ _ _ Hok1 HA1 HB1)
    as (r2 & m2 & o2 & a2 & Hop2 & _ & Hok2 & Hr2 & Hfr2).
  rewrite subtract_list_filter in Hr2.
  assert (HA2 : rep m2 A oA aA lA) by (by apply (unchanged_rep m1 m2)).
  assert (Hr12 : rep m2 r1 o1 a1 (filter (λ x, x ∈ lB) lA))
    by (by apply (unchanged_rep m1 m2)).
  eexists r1, m1, r2, m2, _, _, _. do 2 (split; [done|]).
  split; [exact (size_spec _ _ _ _ _ Hr12)|].
  split; [exact (size_spec _ _ _ _ _ Hr2)|].
  split; [exact (size_spec _ _ _ _ _ HA2)|].
  rewrite (rep_elements _ _ _ _ _ Hr12), (rep_elements _ _ _ _ _ Hr2).
  split; [|split].
  - pose proof (filter_partition_length (λ x, x ∈ lB) lA). lia.
  - intros x. rewrite !list_elem_of_filter.
    destruct (decide (x ∈ lB)); tauto.
  - intros x. rewrite !list_elem_of_filter. tauto.
Qed.

Lemma intersect_subtract_partition_witness :
  ∃ r1 m1 r2 m2 n1 n2 n,
    intersect 1 2 sample_mem2 = Ok r1 m1 ∧ subtract 1 2 m1 = Ok r2 m2
    ∧ size r1 m2 = Ok n1 m2 ∧ size r2 m2 = Ok n2 m2 ∧ size 1 m2 = Ok n m2
    ∧ n1 + n2 = n
    ∧ (∀ x, x ∈ elements sample_mem2 1
            ↔ x ∈ elements m2 r1 ∨ x ∈ elements m2 r2)
    ∧ (∀ x, x ∈ elements m2 r1 → x ∉ elements m2 r2).
Proof.
  apply (intersect_subtract_partition sample_mem2 1 2 sample_mem2_ok);
    by eexists.
Defined.

(** ** Subset test and output *)

(** X14: [A.isSubsetOf(B)] returns true exactly when every member of [A]
    is a member of [B], and changes nothing.  So a set is a subset of
    itself, an empty set is a subset of every set, and the test is
    transitive. *)
Theorem isSubsetOf_is_inclusion m A B C :
  mem_ok m → is_Some (objects m !! A) → is_Some (objects m !! B) →
  is_Some (objects m !! C) →
  (∃ s, isSubsetOf A B m = Ok s m
        ∧ (s = true ↔ ∀ x, x ∈ elements m A → x ∈ elements m B))
  ∧ isSubsetOf A A m = Ok true m
  ∧ (elements m A = [] → isSubsetOf A B m = Ok true m)
  ∧ (isSubsetOf A B m = Ok true m → isSubsetOf B C m = Ok true m →
     isSubsetOf A C m = Ok true m).
Proof.
  intros Hok [oA HoA] [oB HoB] [oC HoC].
  destruct (ok_rep m A oA Hok HoA) as (aA & HA & _).
  destruct (ok_rep m B oB Hok HoB) as (aB & HB & _).
  destruct (ok_rep m C oC Hok HoC) as (aC & HC & _).
  set (lA := elements m A) in *. set (lB := elements m B) in *.
  set (lC := elements m C) in *.
  split; [|split; [|split]].
  - eexists. split; [exact (isSubsetOf_spec _ _ _ _ _ _ _ _ _ HA HB)|].
    by rewrite bool_decide_eq_true, Forall_forall.
  - by apply (isSubsetOf_true _ _ _ _ _ _ _ _ _ HA HA).
  - intros He. apply (isSubsetOf_true _ _ _ _ _ _ _ _ _ HA HB).
    intros x Hx. rewrite He in Hx. by apply not_elem_of_nil in Hx.
  - rewrite (isSubsetOf_spec _ _ _ _ _ _ _ _ _ HA HB).
    rewrite (isSubsetOf_spec _ _ _ _ _ _ _ _ _ HB HC).
    intros [= H1] [= H2]. apply bool_decide_eq_true in H1, H2.
    rewrite Forall_forall in H1, H2.
    apply (isSubsetOf_true _ _ _ _ _ _ _ _ _ HA HC). auto.
Qed.

Lemma isSubsetOf_is_inclusion_witness :
  (∃ s, isSubsetOf 1 2 sample_mem2 = Ok s sample_mem2
        ∧ (s = true ↔ ∀ x, x ∈ elements sample_mem2 1
                           → x ∈ elements sample_mem2 2))
  ∧ isSubsetOf 1 1 sample_mem2 = Ok true sample_mem2
  ∧ isSubsetOf 1 2 sample_mem2 = Ok true sample_mem2
  ∧ isSubsetOf 2 1 sample_mem2 = Ok true sample_mem2.
Proof.
  destruct (isSubsetOf_is_inclusion sample_mem2 1 2 1 sample_mem2_ok)
    as (Hs & Hrefl & _ & Htrans); [by eexists|by eexists|by eexists|].
  assert (H12 : isSubsetOf 1 2 sample_mem2 = Ok true sample_mem2)
    by (by vm_compute).
  assert (H21 : isSubsetOf 2 1 sample_mem2 = Ok true sample_mem2)
    by (by vm_compute).
  split; [done|]. split; [exact (Htrans H12 H21)|done].
Defined.

(** X15: [DumpData] appends to the stream the members in the order of the
    array, each in decimal, with two spaces between one member and the next
    and nothing before the first or after the last; for an empty set it
    appends nothing.  The set is not changed. *)
Theorem DumpData_format m p out :
  mem_ok m → is_Some (objects m !! p) →
  DumpData p out m
  = Ok (out +:+ String.concat "  " (pretty <$> elements m p)) m.
Proof.
  intros Hok [o Ho]. destruct (ok_rep m p o Hok Ho) as (a & Hr & _).
  rewrite (DumpData_spec _ _ _ _ _ out Hr). by rewrite dump_text_concat.
Qed.

Lemma DumpData_format_witness :
  DumpData 1 "S = " sample_mem = Ok "S = 5  3" sample_mem.
Proof.
  exact (DumpData_format sample_mem 1 "S = " sample_mem_ok
           (ex_intro _ _ eq_refl)).
Defined.

(** ** Counting, membership and storage across add and remove *)

Lemma add_total D m p o x :
  mem_ok m → objects m !! p = Some o →
  x ∈ elements m p ∨ used o < capacity o ∨ capacity o ≤ MAX_GROWABLE →
  ∃ b m', add D p x m = Ok b m'.
Proof.
  intros Hok Ho Hcase. destruct (ok_rep m p o Hok Ho) as (a & Hr & _).
  destruct (add_cases D m p o a _ x Hok Hr)
    as [[_ He]|[(_ & m' & _ & _ & He & _)|(Hx & Hfull & Hmax & _)]].
  - by exists false, m.
  - by exists true, m'.
  - exfalso. destruct Hcase as [?|[?|?]]; [done|lia|lia].
Qed.

Lemma add_result D m p x b m' :
  mem_ok m → is_Some (objects m !! p) → add D p x m = Ok b m' →
  b = negb (bool_decide (x ∈ elements m p)).
Proof.
  intros Hok [o Ho] Hadd. destruct (ok_rep m p o Hok Ho) as (a & Hr & _).
  destruct (decide (x ∈ elements m p)) as [Hx|Hx].
  - rewrite (add_present D m p o a _ x Hr Hx) in Hadd. injection Hadd as <- <-.
    by rewrite bool_decide_eq_true_2.
  - destruct (add_returned D m p o a _ x b m' Hok Hr Hx Hadd) as (-> & _).
    by rewrite bool_decide_eq_false_2.
Qed.

(** X16: [size] returns the number of members and [isEmpty] returns true
    exactly when there are none.  [add(x)] returns true exactly when [x] was
    not a member, and then the size is one more; [remove(x)] returns true
    exactly when [x] was a member, and then the size is one less; otherwise
    the size is the same.  [add] returns when [x] is a member, or the array
    is not full, or the capacity is at most 1431655764. *)
Theorem size_counts_members D m p o x :
  mem_ok m → objects m !! p = Some o →
  size p m = Ok (Z.of_nat (length (elements m p))) m
  ∧ isEmpty p m = Ok (bool_decide (elements m p = [])) m
  ∧ (x ∈ elements m p ∨ used o < capacity o ∨ capacity o ≤ MAX_GROWABLE →
     ∃ b m', add D p x m = Ok b m')
  ∧ (∀ b m', add D p x m = Ok b m' →
       b = negb (bool_decide (x ∈ elements m p))
       ∧ size p m'
         = Ok (Z.of_nat (length (elements m p)) + (if b then 1 else 0)) m')
  ∧ (∃ b m', remove p x m = Ok b m'
       ∧ b = bool_decide (x ∈ elements m p)
       ∧ size p m'
         = Ok (Z.of_nat (length (elements m p)) - (if b then 1 else 0)) m').
Proof.
  intros Hok Ho. destruct (ok_rep m p o Hok Ho) as (a & Hr & _).
  set (l := elements m p) in *.
  split; [exact (size_spec _ _ _ _ _ Hr)|].
  split; [exact (isEmpty_spec _ _ _ _ _ Hr)|].
  split; [by apply add_total|]. split.
  - intros b m' Hadd.
    split; [by apply (add_result D m p x b m' Hok ltac:(by eexists))|].
    destruct (add_elements D m p x b m' Hok ltac:(by eexists) Hadd)
      as (Hok' & He & _).
    assert (Hs' : is_Some (objects m' !! p)).
    { destruct (add_footprint D m p x b m' Hok ltac:(by eexists) Hadd)
        as (o' & Hob & _). rewrite Hob, lookup_insert_eq. by eexists. }
    destruct Hs' as [o' Ho'].
    destruct (ok_rep m' p o' Hok' Ho') as (a' & Hr' & _).
    rewrite (size_spec _ _ _ _ _ Hr'), He. f_equal. fold l.
    destruct b; [rewrite length_app; simpl|]; lia.
  - destruct (decide (x ∈ l)) as [Hx|Hx].
    + destruct (remove_present m p o a l x Hok Hr Hx)
        as (m' & o' & a' & Hrem & _ & Hr' & _ & _ & Hu).
      exists true, m'. split; [done|].
      split; [by rewrite bool_decide_eq_true_2|].
      rewrite (size_spec _ _ _ _ _ Hr'). f_equal.
      pose proof (rep_used _ _ _ _ _ Hr'). pose proof (rep_used _ _ _ _ _ Hr).
      lia.
    + exists false, m. split; [by apply remove_absent with o a l|].
      split; [by rewrite bool_decide_eq_false_2|].
      rewrite (size_spec _ _ _ _ _ Hr). f_equal. lia.
Qed.

Lemma size_counts_members_witness :
  size 1 sample_mem = Ok 2 sample_mem
  ∧ isEmpty 1 sample_mem = Ok false sample_mem
  ∧ (∃ m', add 10 1 9 sample_mem = Ok true m' ∧ size 1 m' = Ok 3 m')
  ∧ (∃ m', remove 1 5 sample_mem = Ok true m' ∧ size 1 m' = Ok 1 m').
Proof.
  destruct (size_counts_members 10 sample_mem 1 (mkIntSet 1 2 2) 9
              sample_mem_ok eq_refl) as (Hs & He & Htot & Hadd & _).
  destruct (size_counts_members 10 sample_mem 1 (mkIntSet 1 2 2) 5
              sample_mem_ok eq_refl) as (_ & _ & _ & _ & Hrem).
  split; [exact Hs|]. split; [exact He|]. split.
  - destruct Htot as (b & m' & Ha); [right; right; by vm_compute|].
    destruct (Hadd b m' Ha) as [Hb Hsz]. vm_compute in Hb. subst b.
    exists m'. split; [done|exact Hsz].
  - destruct Hrem as (b & m' & Hr & Hb & Hsz). vm_compute in Hb. subst b.
    exists m'. split; [done|exact Hsz].
Defined.

Lemma contains_elements m p x :
  mem_ok m → is_Some (objects m !! p) →
  contains p x m = Ok (bool_decide (x ∈ elements m p)) m.
Proof.
  intros Hok [o Ho]. destruct (ok_rep m p o Hok Ho) as (a & Hr & _).
  exact (contains_spec _ _ _ _ _ x Hr).
Qed.

Lemma footprint_is_Some m m' p : footprint m m' p → is_Some (objects m' !! p).
Proof. intros (o' & Hob & _). rewrite Hob, lookup_insert_eq. by eexists. Qed.

(** X17: after [add(x)], whatever it returned, [contains(x)] is true;
    after [remove(x)], [contains(x)] is false; in both cases [contains(y)]
    for any other value [y] returns what it returned before. *)
Theorem add_remove_membership D m p o x :
  mem_ok m → objects m !! p = Some o →
  (x ∈ elements m p ∨ used o < capacity o ∨ capacity o ≤ MAX_GROWABLE →
   ∃ b m', add D p x m = Ok b m')
  ∧ (∀ b m', add D p x m = Ok b m' →
       contains p x m' = Ok true m'
       ∧ ∀ y, y ≠ x → ∃ c, contains p y m = Ok c m ∧ contains p y m' = Ok c m')
  ∧ (∃ b m', remove p x m = Ok b m'
       ∧ contains p x m' = Ok false m'
       ∧ ∀ y, y ≠ x → ∃ c, contains p y m = Ok c m ∧ contains p y m' = Ok c m').
Proof.
  intros Hok Ho. assert (Hs : is_Some (objects m !! p)) by (by eexists).
  split; [by apply add_total|]. split.
  - intros b m' Hadd.
    destruct (add_elements D m p x b m' Hok Hs Hadd) as (Hok' & He & _).
    pose proof (footprint_is_Some _ _ _ (add_footprint D m p x b m' Hok Hs Hadd))
      as Hs'.
    pose proof (add_result D m p x b m' Hok Hs Hadd) as Hb.
    split.
    + rewrite (contains_elements m' p x Hok' Hs'). f_equal.
      apply bool_decide_eq_true_2. rewrite He.
      destruct (decide (x ∈ elements m p)) as [Hx|Hx].
      * rewrite (bool_decide_eq_true_2 _ Hx) in Hb. by subst b.
      * rewrite (bool_decide_eq_false_2 _ Hx) in Hb. subst b. simpl.
        apply elem_of_app. right. apply list_elem_of_here.
    + intros y Hy. eexists. split; [by apply contains_elements|].
      rewrite (contains_elements m' p y Hok' Hs'). f_equal.
      apply bool_decide_ext. rewrite He. destruct b; [|done].
      rewrite elem_of_app, list_elem_of_singleton. tauto.
  - destruct (remove_elements m p x Hok Hs) as (m' & Hrem & Hok' & He & _).
    pose proof (footprint_is_Some _ _ _
                  (remove_footprint m p x _ m' Hok Hs Hrem)) as Hs'.
    eexists _, m'. split; [done|]. split.
    + rewrite (contains_elements m' p x Hok' Hs'). f_equal.
      apply bool_decide_eq_false_2. rewrite He, list_elem_of_filter. tauto.
    + intros y Hy. eexists. split; [by apply contains_elements|].
      rewrite (contains_elements m' p y Hok' Hs'). f_equal.
      apply bool_decide_ext. rewrite He, list_elem_of_filter. tauto.
Qed.

Lemma add_remove_membership_witness :
  (∃ b m', add 10 1 9 sample_mem = Ok b m'
     ∧ contains 1 9 m' = Ok true m'
     ∧ ∀ y, y ≠ 9 → ∃ c, contains 1 y sample_mem = Ok c sample_mem
                         ∧ contains 1 y m' = Ok c m')
  ∧ (∃ b m', remove 1 5 sample_mem = Ok b m'
       ∧ contains 1 5 m' = Ok false m'
       ∧ ∀ y, y ≠ 5 → ∃ c, contains 1 y sample_mem = Ok c sample_mem
                           ∧ contains 1 y m' = Ok c m').
Proof.
  destruct (add_remove_membership 10 sample_mem 1 (mkIntSet 1 2 2) 9
              sample_mem_ok eq_refl) as (Htot & Hadd & _).
  destruct (add_remove_membership 10 sample_mem 1 (mkIntSet 1 2 2) 5
              sample_mem_ok eq_refl) as (_ & _ & Hrem).
  split; [|exact Hrem].
  destruct Htot as (b & m' & Ha); [right; right; by vm_compute|].
  exists b, m'. split; [done|]. exact (Hadd b m' Ha).
Defined.

(** X18: for a value [x] that is not a member, [add(x)] followed by
    [remove(x)] gives back the members the set had, in the same order; both
    calls return true and no other set is changed.  (The capacity may have
    grown.) *)
Theorem add_then_remove_restores D m p o x :
  mem_ok m → objects m !! p = Some o → x ∉ elements m p →
  (used o < capacity o ∨ capacity o ≤ MAX_GROWABLE →
   ∃ m1 m2, add D p x m = Ok true m1 ∧ remove p x m1 = Ok true m2)
  ∧ (∀ b m1, add D p x m = Ok b m1 →
       ∃ m2, remove p x m1 = Ok true m2 ∧ mem_ok m2
             ∧ elements m2 p = elements m p
             ∧ ∀ q, q ≠ p → unchanged m m2 q).
Proof.
  intros Hok Ho Hx. assert (Hs : is_Some (objects m !! p)) by (by eexists).
  assert (Hret : ∀ b m1, add D p x m = Ok b m1 →
            ∃ m2, remove p x m1 = Ok true m2 ∧ mem_ok m2
                  ∧ elements m2 p = elements m p
                  ∧ ∀ q, q ≠ p → unchanged m m2 q).
  { intros b m1 Hadd.
    destruct (add_elements D m p x b m1 Hok Hs Hadd) as (Hok1 & He1 & Hfr1).
    pose proof (add_result D m p x b m1 Hok Hs Hadd) as Hb.
    rewrite (bool_decide_eq_false_2 _ Hx) in Hb. simpl in Hb. subst b.
    pose proof (footprint_is_Some _ _ _
                  (add_footprint D m p x true m1 Hok Hs Hadd)) as Hs1.
    destruct (remove_elements m1 p x Hok1 Hs1) as (m2 & Hrem & Hok2 & He2 & Hfr2).
    rewrite He1 in Hrem, He2.
    rewrite bool_decide_eq_true_2 in Hrem
      by (apply elem_of_app; right; apply list_elem_of_here).
    exists m2. do 2 (split; [done|]). split.
    - rewrite He2, filter_app, (filter_ne_absent _ _ Hx).
      rewrite filter_cons_False by (intros H; by apply H). simpl.
      by rewrite app_nil_r.
    - intros q Hq. eapply unchanged_trans; [by apply Hfr1|by apply Hfr2]. }
  split; [|done]. intros Hcase.
  destruct (add_total D m p o x Hok Ho ltac:(tauto)) as (b & m1 & Hadd).
  pose proof (add_result D m p x b m1 Hok Hs Hadd) as Hb.
  rewrite (bool_decide_eq_false_2 _ Hx) in Hb. simpl in Hb. subst b.
  destruct (Hret true m1 Hadd) as (m2 & Hrem & _).
  by exists m1, m2.
Qed.

Lemma add_then_remove_restores_witness :
  ∃ m1 m2, add 10 1 9 sample_mem = Ok true m1 ∧ remove 1 9 m1 = Ok true m2
           ∧ elements m2 1 = elements sample_mem 1.
Proof.
  assert (Hx : 9 ∉ elements sample_mem 1).
  { vm_compute. intros H. apply elem_of_cons in H as [H|H]; [lia|].
    apply list_elem_of_singleton in H. lia. }
  destruct (add_then_remove_restores 10 sample_mem 1 (mkIntSet 1 2 2) 9
              sample_mem_ok eq_refl Hx) as [Htotal Hret].
  destruct Htotal as (m1 & m2 & Hadd & Hrem); [right; by vm_compute|].
  destruct (Hret true m1 Hadd) as (m2' & Hrem' & _ & He & _).
  exists m1, m2'. by repeat split.
Defined.

(** X19: [remove] never moves or resizes the array: the object keeps its
    [data] pointer and its capacity, the array keeps its length, and no
    array is allocated or released; only the count goes down by one when
    the value was found.  The same holds of [add] when the array is not
    full, with the count going up by one when the value is new. *)
Theorem storage_moves_only_when_full D m p o x :
  mem_ok m → objects m !! p = Some o →
  (∃ b m', remove p x m = Ok b m'
     ∧ objects m' !! p
       = Some (mkIntSet (data o) (capacity o) (used o - (if b then 1 else 0)))
     ∧ dom (arrays m') = dom (arrays m)
     ∧ length <$> arrays m' !! data o = length <$> arrays m !! data o)
  ∧ (used o < capacity o →
     ∃ b m', add D p x m = Ok b m'
       ∧ objects m' !! p
         = Some (mkIntSet (data o) (capacity o) (used o + (if b then 1 else 0)))
       ∧ dom (arrays m') = dom (arrays m)
       ∧ length <$> arrays m' !! data o = length <$> arrays m !! data o).
Proof.
  intros Hok Ho. destruct (ok_rep m p o Hok Ho) as (a & Hr & _ & Hrange).
  pose proof (rep_arr _ _ _ _ _ Hr) as Ha.
  set (l := elements m p) in *.
  assert (Hsame : objects m !! p = Some (mkIntSet (data o) (capacity o) (used o))).
  { rewrite Ho. by destruct o. }
  split.
  - destruct (decide (x ∈ l)) as [Hx|Hx].
    + destruct (remove_memory m p o a l x Hok Hr Hx) as (a' & Hrem & Hlen).
      eexists true, _. split; [exact Hrem|]. simpl.
      split; [apply lookup_insert_eq|].
      split; [apply dom_insert_lookup_L; by eexists|].
      by rewrite lookup_insert_eq, Ha; simpl; rewrite Hlen.
    + exists false, m. split; [by apply remove_absent with o a l|].
      by rewrite Z.sub_0_r.
  - intros Hlt. destruct (decide (x ∈ l)) as [Hx|Hx].
    + exists false, m. split; [by apply add_present with o a l|].
      by rewrite Z.add_0_r.
    + eexists true, _.
      split; [exact (add_room D m p o a l x Hr Hx Hlt ltac:(lia))|]. simpl.
      split; [apply lookup_insert_eq|].
      split; [apply dom_insert_lookup_L; by eexists|].
      rewrite lookup_insert_eq, Ha. simpl. by rewrite length_insert.
Qed.

Lemma storage_moves_only_when_full_witness :
  (∃ b m', remove 2 9 sample_mem2 = Ok b m'
     ∧ objects m' !! 2%positive
       = Some (mkIntSet 2 4 (2 - (if b then 1 else 0)))
     ∧ dom (arrays m') = dom (arrays sample_mem2)
     ∧ length <$> arrays m' !! 2%positive
       = length <$> arrays sample_mem2 !! 2%positive)
  ∧ (∃ b m', add 10 2 9 sample_mem2 = Ok b m'
       ∧ objects m' !! 2%positive
         = Some (mkIntSet 2 4 (2 + (if b then 1 else 0)))
       ∧ dom (arrays m') = dom (arrays sample_mem2)
       ∧ length <$> arrays m' !! 2%positive
         = length <$> arrays sample_mem2 !! 2%positive).
Proof.
  destruct (storage_moves_only_when_full 10 sample_mem2 2 (mkIntSet 2 4 2) 9
              sample_mem2_ok eq_refl) as [Hrem Hadd].
  split; [exact Hrem|]. apply Hadd. by vm_compute.
Defined.

(** ** resize *)

Lemma copy_loop_short src dst (a : list cell) (l : list Z) :
  src ≠ dst → take (length l) a = Some <$> l →
  ∀ n k b m,
    arrays m !! src = Some a → arrays m !! dst = Some b →
    (k + n = length l)%nat → (k ≤ length b)%nat → (length b < length l)%nat →
    copy_loop src dst (Z.of_nat k) n m = Fault OutOfBounds.
Proof.
  intros Hne Hc. induction n as [|n IH]; intros k b m Ha Hb Hk Hkb Hlen; [lia|].
  destruct (lookup_lt_is_Some_2 l k) as [v Hv]; [lia|].
  simpl. mstep (read_ok _ _ _ _ _ Ha (cells_lookup _ _ _ _ Hc Hv)).
  destruct (decide (k = length b)) as [->|Hlt].
  - apply bind_fault. unfold write. rewrite Hb.
    destruct (decide (0 ≤ Z.of_nat (length b) < Z.of_nat (length b))); [lia|done].
  - assert (Hkb' : (k < length b)%nat) by lia.
    mstep (write_ok _ _ _ _ v Hb Hkb').
    replace (Z.of_nat k + 1) with (Z.of_nat (S k)) by lia.
    apply (IH (S k) (<[k := Some v]> b)); simpl.
    + by rewrite lookup_insert_ne.
    + apply lookup_insert_eq.
    + lia.
    + rewrite length_insert. lia.
    + rewrite length_insert. lia.
Qed.

(** X20: [resize(n)] with [n > 0] moves the members, in their order, to
    a new array of [max(used, n)] cells and releases the old array; the
    count, every other set and the absence of lost arrays are preserved. *)
Theorem resize_positive_keeps_members D m p o n :
  mem_ok m → objects m !! p = Some o → 0 < n ≤ INT_MAX →
  ∃ m',
    resize D p n m = Ok () m' ∧ mem_ok m'
    ∧ elements m' p = elements m p
    ∧ capacity <$> objects m' !! p = Some (Z.max (used o) n)
    ∧ used <$> objects m' !! p = Some (used o)
    ∧ arrays m' !! data o = None
    ∧ (∀ q, q ≠ p → unchanged m m' q)
    ∧ (no_leak m → no_leak m').
Proof.
  intros Hok Ho Hn. destruct (ok_rep m p o Hok Ho) as (a & Hr & _ & Hrange).
  pose proof (rep_used_le _ _ _ _ _ Hr) as Hu.
  set (l := elements m p) in *. set (c := Z.max (used o) n).
  destruct (resized_ok m p o a l c Hok Hr ltac:(lia) ltac:(lia))
    as (Hok' & Hr' & Hfr).
  exists (resized m p o l c).
  split; [apply (resize_positive_request D m p o a l n Hr); lia|].
  split; [done|]. split; [by eapply rep_elements|].
  split; [by rewrite (rep_capacity _ _ _ _ _ Hr')|].
  split; [by rewrite (rep_obj _ _ _ _ _ Hr')|].
  split; [apply lookup_delete_eq|]. split; [done|].
  intros Hnl. apply footprint_no_leak with m p; [done|].
  unfold resized. apply footprint_moved; [done|by eapply rep_array_some].
Qed.

Lemma resize_positive_keeps_members_witness :
  ∃ m',
    resize 10 1 1 sample_mem = Ok () m' ∧ mem_ok m'
    ∧ elements m' 1 = elements sample_mem 1
    ∧ capacity <$> objects m' !! 1%positive = Some 2
    ∧ used <$> objects m' !! 1%positive = Some 2
    ∧ arrays m' !! 1%positive = None
    ∧ (∀ q, q ≠ 1%positive → unchanged sample_mem m' q)
    ∧ no_leak m'.
Proof.
  destruct (resize_positive_keeps_members 10 sample_mem 1 (mkIntSet 1 2 2) 1
              sample_mem_ok eq_refl)
    as (m' & Hres & Hok & He & Hc & Hu & Ha & Hfr & Hnl); [by vm_compute|].
  exists m'. do 7 (split; [done|]). apply Hnl, sample_mem_no_leak.
Defined.

(** X21: [resize(n)] with [n <= 0] takes [DEFAULT_CAPACITY] as the new
    capacity without comparing it with the count.  When the count is at
    most [DEFAULT_CAPACITY] the members are kept; when it is greater, the
    copy into the new array runs beyond its end; a negative
    [DEFAULT_CAPACITY] is an invalid array length. *)
Theorem resize_request_not_positive D m p o n :
  mem_ok m → objects m !! p = Some o → n ≤ 0 →
  (D < 0 → resize D p n m = Fault BadArrayLength)
  ∧ (0 ≤ D < used o → resize D p n m = Fault OutOfBounds)
  ∧ (used o ≤ D → 1 ≤ D ≤ INT_MAX →
     ∃ m', resize D p n m = Ok () m' ∧ mem_ok m'
           ∧ elements m' p = elements m p
           ∧ capacity <$> objects m' !! p = Some D).
Proof.
  intros Hok Ho Hn. destruct (ok_rep m p o Hok Ho) as (a & Hr & _ & Hrange).
  pose proof Hr as [_ Ha Hcap Hu Hc].
  set (l := elements m p) in *.
  set (m1 := mkMem (arrays m) (<[p := mkIntSet (data o) D (used o)]> (objects m))).
  assert (Ho1 : objects m1 !! p = Some (mkIntSet (data o) D (used o)))
    by apply lookup_insert_eq.
  assert (Hcap1 : set_capacity p (resize_capacity D (used o) n) m = Ok () m1).
  { rewrite resize_capacity_nonpositive by done. by apply set_capacity_ok. }
  split; [|split].
  - intros HD. unfold resize. mstep (get_obj_ok _ _ _ Ho). mstep Hcap1.
    mstep (get_obj_ok _ _ _ Ho1). simpl. apply bind_fault.
    unfold new_array. by destruct (decide (D < 0)); [|lia].
  - intros HD. unfold resize. mstep (get_obj_ok _ _ _ Ho). mstep Hcap1.
    mstep (get_obj_ok _ _ _ Ho1). simpl.
    mstep (new_array_ok m1 D ltac:(lia)). simpl.
    set (d := fresh (dom (arrays m))).
    assert (Hd : arrays m !! d = None) by apply fresh_array.
    assert (Hne : data o ≠ d) by congruence.
    apply bind_fault.
    replace (Z.to_nat (used o)) with (length l) by lia.
    apply (copy_loop_short (data o) d a l Hne Hc (length l) 0%nat
             (replicate (Z.to_nat D) None)).
    + simpl. by rewrite lookup_insert_ne.
    + simpl. apply lookup_insert_eq.
    + done.
    + lia.
    + rewrite length_replicate. lia.
  - intros HD Hrange'.
    destruct (resized_ok m p o a l D Hok Hr HD Hrange') as (Hok' & Hr' & Hfr).
    exists (resized m p o l D). split.
    { pose proof (resize_spec D m p o a l n Hr) as H.
      rewrite resize_capacity_nonpositive in H by done. by apply H. }
    split; [done|]. split; [by eapply rep_elements|].
    by rewrite (rep_capacity _ _ _ _ _ Hr').
Qed.

Lemma resize_request_not_positive_witness :
  resize (-1) 1 0 sample_mem = Fault BadArrayLength
  ∧ resize 1 1 0 sample_mem = Fault OutOfBounds
  ∧ (∃ m', resize 10 1 0 sample_mem = Ok () m' ∧ mem_ok m'
           ∧ elements m' 1 = elements sample_mem 1
           ∧ capacity <$> objects m' !! 1%positive = Some 10).
Proof.
  split; [|split].
  - apply (resize_request_not_positive (-1) sample_mem 1 (mkIntSet 1 2 2) 0
             sample_mem_ok eq_refl); lia.
  - apply (resize_request_not_positive 1 sample_mem 1 (mkIntSet 1 2 2) 0
             sample_mem_ok eq_refl); [lia|]. cbn [used]. lia.
  - apply (resize_request_not_positive 10 sample_mem 1 (mkIntSet 1 2 2) 0
             sample_mem_ok eq_refl); [lia| |by vm_compute]. cbn [used]. lia.
Defined.

(** ** DEFAULT_CAPACITY *)

Lemma add_any_default D1 D2 m p x :
  mem_ok m → is_Some (objects m !! p) → add D1 p x m = add D2 p x m.
Proof.
  intros Hok [o Ho]. destruct (ok_rep m p o Hok Ho) as (a & Hr & _ & Hrange).
  pose proof (rep_used_le _ _ _ _ _ Hr) as Hu.
  set (l := elements m p) in *.
  destruct (decide (x ∈ l)) as [Hx|Hx].
  { by rewrite !(add_present _ m p o a l x Hr Hx). }
  destruct (decide (used o < capacity o)) as [Hlt|Hge].
  { by rewrite !(add_room _ m p o a l x Hr Hx Hlt ltac:(lia)). }
  assert (Hfull : used o = capacity o) by lia.
  destruct (decide (grown (capacity o) ≤ INT_MAX)) as [Hg|Hg].
  - by rewrite !(add_grow _ m p o a l x Hr Hx Hfull Hg).
  - by rewrite !(add_overflow _ m p o a l x Hr Hx Hfull ltac:(lia)).
Qed.

Lemma step_any_default D1 D2 env o m k :
  mem_ok m → env_ok m env k → step D1 env o m = step D2 env o m.
Proof.
  intros Hok Henv. destruct o as [v x|v x|v|v|v w]; simpl; try done.
  destruct (env !! v) as [p|] eqn:Hv.
  - rewrite !(bind_ok _ _ _ _ _ (var_ok _ _ _ m Hv)).
    destruct (env_ok_lookup _ _ _ _ _ Henv Hv) as [Hsp _].
    unfold mbind, M_bind. by rewrite (add_any_default D1 D2 m p x Hok Hsp).
  - destruct (var_unbound env v m Hv) as [Hf _].
    by rewrite !(bind_fault _ _ _ _ Hf).
Qed.

Lemma run_any_default D1 D2 ops :
  ∀ env m k, mem_ok m → env_ok m env k → run D1 env ops m = run D2 env ops m.
Proof.
  induction ops as [|o ops IH]; intros env m k Hok Henv; [done|]. simpl.
  pose proof (step_any_default D1 D2 env o m k Hok Henv) as Hstep.
  destruct (step_cases D1 env o m k Hok Henv)
    as [(env1 & m1 & Hs & Hok1 & Henv1 & _)|[(Hs & _)|[Hs _]]].
  - rewrite (bind_ok _ _ _ _ _ Hs). rewrite Hstep in Hs.
    rewrite (bind_ok _ _ _ _ _ Hs). by apply (IH env1 m1 (k + adds o)).
  - rewrite (bind_fault _ _ _ _ Hs). rewrite Hstep in Hs.
    by rewrite (bind_fault _ _ _ _ Hs).
  - rewrite (bind_fault _ _ _ _ Hs). rewrite Hstep in Hs.
    by rewrite (bind_fault _ _ _ _ Hs).
Qed.

(** X22: [DEFAULT_CAPACITY] has no part in [add]: the request [add] makes
    to [resize] is greater than the capacity, so [resize] grants it as it
    is.  Hence [add] behaves the same for any two values of
    [DEFAULT_CAPACITY], and so does a whole program whose first set is
    constructed with a capacity [c > 0]. *)
Theorem default_capacity_only_in_constructor D1 D2 m p x c ops :
  mem_ok m → is_Some (objects m !! p) → 0 < c ≤ INT_MAX →
  add D1 p x m = add D2 p x m
  ∧ IntSet_new D1 c m = IntSet_new D2 c m
  ∧ program D1 c ops empty_mem = program D2 c ops empty_mem.
Proof.
  intros Hok Hs Hc. split; [by apply add_any_default|].
  assert (Hi : ∀ D, initial D c = c).
  { intros D. unfold initial. destruct (decide (c ≤ 0)); [lia|done]. }
  assert (Hnew : ∀ m0, IntSet_new D1 c m0 = IntSet_new D2 c m0).
  { intros m0. rewrite !IntSet_new_memory by (rewrite Hi; lia).
    by rewrite !Hi. }
  split; [done|]. unfold program.
  destruct (IntSet_new_spec D1 c empty_mem empty_mem_ok ltac:(rewrite Hi; lia))
    as (s & m0 & o0 & a0 & Hn & _ & Hok0 & Hr0 & _).
  rewrite (bind_ok _ _ _ _ _ Hn). rewrite Hnew in Hn.
  rewrite (bind_ok _ _ _ _ _ Hn).
  apply (run_any_default D1 D2 ops [s] m0 0 Hok0).
  apply Forall_singleton. rewrite (rep_elements _ _ _ _ _ Hr0).
  split; [|done]. exists o0. apply Hr0.
Qed.

Lemma default_capacity_only_in_constructor_witness :
  add 10 1 9 sample_mem = add 1 1 9 sample_mem
  ∧ IntSet_new 10 3 sample_mem = IntSet_new 1 3 sample_mem
  ∧ program 10 3 [Add 0 5; Copy 0; Add 1 7] empty_mem
    = program 1 3 [Add 0 5; Copy 0; Add 1 7] empty_mem.
Proof.
  apply (default_capacity_only_in_constructor 10 1 sample_mem 1 9 3
           [Add 0 5; Copy 0; Add 1 7] sample_mem_ok); [by eexists|by vm_compute].
Defined.

(** ** What the queries can see *)

Lemma slack_mem_ok : mem_ok slack_mem.
Proof. apply mem_check_ok. apply (bool_decide_unpack _). vm_compute. exact I. Qed.

(** X23: what [size], [isEmpty], [contains] and [DumpData] return depends
    only on the members and their order: two sets with the same members in
    the same order give the same answers, whatever their capacities and
    whatever the cells beyond the count hold. *)
Theorem queries_see_members_only m1 m2 p q x out :
  mem_ok m1 → mem_ok m2 →
  is_Some (objects m1 !! p) → is_Some (objects m2 !! q) →
  elements m1 p = elements m2 q →
  (∃ n, size p m1 = Ok n m1 ∧ size q m2 = Ok n m2)
  ∧ (∃ e, isEmpty p m1 = Ok e m1 ∧ isEmpty q m2 = Ok e m2)
  ∧ (∃ c, contains p x m1 = Ok c m1 ∧ contains q x m2 = Ok c m2)
  ∧ (∃ s, DumpData p out m1 = Ok s m1 ∧ DumpData q out m2 = Ok s m2).
Proof.
  intros Hok1 Hok2 [o1 Ho1] [o2 Ho2] He.
  destruct (ok_rep m1 p o1 Hok1 Ho1) as (a1 & Hr1 & _).
  destruct (ok_rep m2 q o2 Hok2 Ho2) as (a2 & Hr2 & _).
  rewrite He in Hr1. set (l := elements m2 q) in *.
  split; [|split; [|split]]; eexists.
  - split; [exact (size_spec _ _ _ _ _ Hr1)|exact (size_spec _ _ _ _ _ Hr2)].
  - split; [exact (isEmpty_spec _ _ _ _ _ Hr1)|exact (isEmpty_spec _ _ _ _ _ Hr2)].
  - split; [exact (contains_spec _ _ _ _ _ x Hr1)
           |exact (contains_spec _ _ _ _ _ x Hr2)].
  - split; [exact (DumpData_spec _ _ _ _ _ out Hr1)
           |exact (DumpData_spec _ _ _ _ _ out Hr2)].
Qed.

Lemma queries_see_members_only_witness :
  (∃ n, size 1 sample_mem = Ok n sample_mem ∧ size 1 slack_mem = Ok n slack_mem)
  ∧ (∃ e, isEmpty 1 sample_mem = Ok e sample_mem
          ∧ isEmpty 1 slack_mem = Ok e slack_mem)
  ∧ (∃ c, contains 1 7 sample_mem = Ok c sample_mem
          ∧ contains 1 7 slack_mem = Ok c slack_mem)
  ∧ (∃ s, DumpData 1 "" sample_mem = Ok s sample_mem
          ∧ DumpData 1 "" slack_mem = Ok s slack_mem).
Proof.
  apply (queries_see_members_only sample_mem slack_mem 1 1 7 ""
           sample_mem_ok slack_mem_ok); [by eexists|by eexists|by vm_compute].
Defined.

(** ** Sizes of unions and intersections *)

Lemma filter_swap_length (l k : list Z) :
  NoDup l → NoDup k →
  length (filter (λ x, x ∈ k) l) = length (filter (λ x, x ∈ l) k).
Proof.
  intros Hl Hk. apply same_members_length.
  - by apply NoDup_filter.
  - by apply NoDup_filter.
  - apply Forall_forall. intros x. rewrite !list_elem_of_filter. tauto.
  - apply Forall_forall. intros x. rewrite !list_elem_of_filter. tauto.
Qed.

(** X24: the sizes of [A.unionWith(B)] and [A.intersect(B)] add up to the
    sizes of [A] and [B]: a value in both sets is counted once in each
    result.  [unionWith] returns when the counts of the two sets sum to at
    most 1431655765; the equation holds whenever it returns. *)
Theorem union_intersect_sizes D m A B :
  mem_ok m → is_Some (objects m !! A) → is_Some (objects m !! B) →
  (Z.of_nat (length (elements m A) + length (elements m B)) ≤ MAX_GROWABLE + 1 →
   ∃ r1 m1, unionWith D A B m = Ok r1 m1)
  ∧ (∀ r1 m1, unionWith D A B m = Ok r1 m1 →
       ∃ r2 m2 n1 n2 nA nB,
         intersect A B m1 = Ok r2 m2
         ∧ size r1 m2 = Ok n1 m2 ∧ size r2 m2 = Ok n2 m2
         ∧ size A m2 = Ok nA m2 ∧ size B m2 = Ok nB m2
         ∧ n1 + n2 = nA + nB).
Proof.
  intros Hok [oA HoA] [oB HoB].
  destruct (ok_rep m A oA Hok HoA) as (aA & HA & HndA & _).
  destruct (ok_rep m B oB Hok HoB) as (aB & HB & HndB & _).
  set (lA := elements m A) in *. set (lB := elements m B) in *.
  split.
  { intros Hmax.
    destruct (unionWith_spec D A B m _ _ _ _ _ _ Hok HA HB Hmax)
      as (r & m' & _ & _ & Hop & _).
    by exists r, m'. }
  intros r1 m1 Hop1.
  destruct (unionWith_returned D A B m _ _ _ _ _ _ r1 m1 Hok HA HB Hop1)
    as (_ & Hok1 & (o1 & a1 & Hr1) & Hfr1).
  rewrite union_list_filter in Hr1 by done.
  assert (HA1 : rep m1 A oA aA lA) by (by apply (unchanged_rep m m1)).
  assert (HB1 : rep m1 B oB aB lB) by (by apply (unchanged_rep m m1)).
  destruct (intersect_spec A B m1 _ _ _ _ _ _ Hok1 HA1 HB1)
    as (r2 & m2 & o2 & a2 & Hop2 & _ & Hok2 & Hr2 & Hfr2).
  rewrite intersect_list_self in Hr2.
  assert (HA2 : rep m2 A oA aA lA) by (by apply (unchanged_rep m1 m2)).
  assert (HB2 : rep m2 B oB aB lB) by (by apply (unchanged_rep m1 m2)).
  assert (Hr12 : rep m2 r1 o1 a1 (lA ++ filter (λ y, y ∉ lA) lB))
    by (by apply (unchanged_rep m1 m2)).
  eexists r2, m2, _, _, _, _. split; [done|].
  split; [exact (size_spec _ _ _ _ _ Hr12)|].
  split; [exact (size_spec _ _ _ _ _ Hr2)|].
  split; [exact (size_spec _ _ _ _ _ HA2)|].
  split; [exact (size_spec _ _ _ _ _ HB2)|].
  rewrite length_app.
  pose proof (filter_partition_length (λ x, x ∈ lA) lB).
  pose proof (filter_swap_length lA lB HndA HndB). lia.
Qed.

Lemma union_intersect_sizes_witness :
  ∃ r1 m1 r2 m2 n1 n2 nA nB,
    unionWith 10 1 2 sample_mem2 = Ok r1 m1
    ∧ intersect 1 2 m1 = Ok r2 m2
    ∧ size r1 m2 = Ok n1 m2 ∧ size r2 m2 = Ok n2 m2
    ∧ size 1 m2 = Ok nA m2 ∧ size 2 m2 = Ok nB m2
    ∧ n1 + n2 = nA + nB.
Proof.
  destruct (union_intersect_sizes 10 sample_mem2 1 2 sample_mem2_ok)
    as [Htot Hret]; [by eexists|by eexists|].
  destruct Htot as (r1 & m1 & Hop1); [by vm_compute|].
  destruct (Hret r1 m1 Hop1) as (r2 & m2 & n1 & n2 & nA & nB & H).
  by exists r1, m1, r2, m2, n1, n2, nA, nB.
Defined.

(** X25: [A.intersect(B)] and [B.intersect(A)] both return, and [==] on
    the two results returns true: they hold the same members, whatever
    the order each has them in. *)
Theorem intersect_commutes m A B :
  mem_ok m → is_Some (objects m !! A) → is_Some (objects m !! B) →
  ∃ r1 m1 r2 m2,
    intersect A B m = Ok r1 m1 ∧ intersect B A m1 = Ok r2 m2
    ∧ equal r1 r2 m2 = Ok true m2.
Proof.
  intros Hok [oA HoA] [oB HoB].
  destruct (ok_rep m A oA Hok HoA) as (aA & HA & HndA & _).
  destruct (ok_rep m B oB Hok HoB) as (aB & HB & HndB & _).
  set (lA := elements m A) in *. set (lB := elements m B) in *.
  destruct (intersect_spec A B m _ _ _ _ _ _ Hok HA HB)
    as (r1 & m1 & o1 & a1 & Hop1 & _ & Hok1 & Hr1 & Hfr1).
  rewrite intersect_list_self in Hr1.
  assert (HA1 : rep m1 A oA aA lA) by (by apply (unchanged_rep m m1)).
  assert (HB1 : rep m1 B oB aB lB) by (by apply (unchanged_rep m m1)).
  destruct (intersect_spec B A m1 _ _ _ _ _ _ Hok1 HB1 HA1)
    as (r2 & m2 & o2 & a2 & Hop2 & _ & Hok2 & Hr2 & Hfr2).
  rewrite intersect_list_self in Hr2.
  assert (Hr12 : rep m2 r1 o1 a1 (filter (λ y, y ∈ lB) lA))
    by (by apply (unchanged_rep m1 m2)).
  exists r1, m1, r2, m2. do 2 (split; [done|]).
  rewrite (equal_spec _ _ _ _ _ _ _ _ _ Hr12 Hr2). f_equal.
  rewrite !andb_true_iff, !bool_decide_eq_true.
  split; [split|].
  - by apply filter_swap_length.
  - apply Forall_forall. intros x. rewrite !list_elem_of_filter. tauto.
  - apply Forall_forall. intros x. rewrite !list_elem_of_filter. tauto.
Qed.

Lemma intersect_commutes_witness :
  ∃ r1 m1 r2 m2,
    intersect 1 2 sample_mem2 = Ok r1 m1 ∧ intersect 2 1 m1 = Ok r2 m2
    ∧ equal r1 r2 m2 = Ok true m2.
Proof.
  apply (intersect_commutes sample_mem2 1 2 sample_mem2_ok); by eexists.
Defined.
